(** * viber: indexed heap, timers, actions and the action manager

    A shallow embedding of the scheduling core of the viber sources
    (heap.ts, Ticker.ts, Director.ts, Action.ts) and the properties the
    specification states about it.

    Conventions of the embedding
    - a JavaScript [number] used as an index or a counter is a [Z]; a
      [number] used as a time, a duration or a coordinate is a rational
      [Q] (exact arithmetic: rounding of IEEE doubles is not modelled);
    - [undefined]/[null] is [None];
    - a method that can throw returns a [result]; a loop whose number of
      iterations is not bounded by its arguments takes a fuel argument and
      returns [OutOfFuel] when the fuel is used up;
    - mutable objects are passed and returned as values; where two places
      hold the same object (the records of the action manager) the object
      lives in a store and the places hold its address. *)

From Stdlib Require Import ZArith QArith Qround Qminmax List Bool Lia Lqa.
From stdpp Require Import gmap list.
Import ListNotations.

Local Open Scope Z_scope.

(** ** Results of calls that may throw *)

Inductive JsError : Type :=
| TypeError     (* property access on undefined, write to a getter-only property *)
| UserError     (* [throw new Error(...)] *)
| NoSuchObject. (* an address outside the store of the model; not an error of
                   the program, and no run of it gets there *)

Inductive result (A : Type) : Type :=
| Ok (a : A)
| Throw (e : JsError)
| OutOfFuel.

Arguments Ok {A} a.
Arguments Throw {A} e.
Arguments OutOfFuel {A}.

#[global] Instance result_ret : MRet result := fun _ a => Ok a.
#[global] Instance result_bind : MBind result := fun _ _ k r =>
  match r with
  | Ok a => k a
  | Throw e => Throw e
  | OutOfFuel => OutOfFuel
  end.

Definition is_Ok {A} (r : result A) : Prop := exists a, r = Ok a.

(** ** JavaScript arrays

    The dense part holds the entries at indices [0 .. length-1]; an entry
    that is a hole or [undefined] is [None].  A write at a negative key
    creates an ordinary property and leaves [length] alone, a write at or
    beyond [length] extends the array. *)

Module JsArray.

Record t (T : Type) : Type :=
  mk { items : list (option T); props : gmap Z (option T) }.
Arguments mk {T} items props.
Arguments items {T} _.
Arguments props {T} _.

Section ops.
Context {T : Type}.

Definition empty : t T := mk [] ∅.

Definition of_list (l : list T) : t T := mk (Some <$> l) ∅.

Definition length (a : t T) : Z := Z.of_nat (List.length (items a)).

Definition get (i : Z) (a : t T) : option T :=
  if i <? 0 then default None (props a !! i)
  else default None (items a !! Z.to_nat i).

Definition set (i : Z) (v : option T) (a : t T) : t T :=
  if i <? 0 then mk (items a) (<[i := v]> (props a))
  else if i <? length a then mk (<[Z.to_nat i := v]> (items a)) (props a)
  else mk (items a
             ++ replicate (Z.to_nat i - List.length (items a))%nat None
             ++ [v])
          (props a).

Definition push (v : option T) (a : t T) : t T :=
  mk (items a ++ [v]) (props a).

(** [Array.prototype.pop]: on an empty array nothing changes and the
    result is [undefined]. *)
Definition pop (a : t T) : t T * option T :=
  match items a with
  | [] => (a, None)
  | _ => (mk (removelast (items a)) (props a),
          default None (last (items a)))
  end.
End ops.

End JsArray.

(** ** heap.ts *)

(** [interface Container<T>] *)
Record Container (T C : Type) : Type := {
  size : C -> Z;
  get : Z -> C -> option T;
  swap : Z -> Z -> C -> result C;
  less : Z -> Z -> C -> result bool;
  pushBack : T -> C -> C;
  popBack : C -> C * option T
}.
Arguments size {T C} _ _.
Arguments get {T C} _ _ _.
Arguments swap {T C} _ _ _ _.
Arguments less {T C} _ _ _ _.
Arguments pushBack {T C} _ _ _.
Arguments popBack {T C} _ _.

(** [class Heap<T, C extends Container<T>>].  A heap object has its
    container as only field, so the methods are functions on the
    container. *)
Module Heap.
Section heap.
Context {T C : Type} (K : Container T C).

(** [_up(j)]: every round but the last moves [j] to its parent, so
    [_up_fuel j] rounds are enough (see [_up_returns]). *)
Fixpoint _up_loop (fuel : nat) (j : Z) (c : C) : result C :=
  match fuel with
  | O => OutOfFuel
  | S fuel =>
      let i := j - 1 in
      let i := if 0 <=? i then Z.shiftr i 1 else 0 in
      if i =? j then Ok c
      else
        b ← less K j i c;
        if negb b then Ok c
        else c ← swap K i j c; _up_loop fuel i c
  end.

Definition _up_fuel (j : Z) : nat := S (S (Z.to_nat j)).

Definition _up (j : Z) (c : C) : result C := _up_loop (_up_fuel j) j c.

(** [_down(i0, n)]: the loop, returning the container and the final
    [i]. *)
Fixpoint _down_loop (fuel : nat) (i n : Z) (c : C) : result (C * Z) :=
  match fuel with
  | O => OutOfFuel
  | S fuel =>
      let j1 := 2 * i + 1 in
      if (n <=? j1) || (j1 <? 0) then Ok (c, i)
      else
        let j2 := j1 + 1 in
        b ← (if j2 <? n then less K j2 j1 c else Ok false);
        let j := if (b : bool) then j2 else j1 in
        b' ← less K j i c;
        if negb b' then Ok (c, i)
        else c ← swap K i j c; _down_loop fuel j n c
  end.

Definition _down_fuel (n : Z) : nat := S (Z.to_nat n).

Definition _down (i0 n : Z) (c : C) : result (C * bool) :=
  '(c, i) ← _down_loop (_down_fuel n) i0 n c;
  Ok (c, i0 <? i).

Fixpoint init_loop (k : nat) (n : Z) (c : C) : result C :=
  match k with
  | O => Ok c
  | S k' => '(c, _) ← _down (Z.of_nat k') n c; init_loop k' n c
  end.

(** [init()]: [i] runs from [(n >> 1) - 1] down to [0]. *)
Definition init (c : C) : result C :=
  let n := size K c in
  init_loop (Z.to_nat (Z.shiftr n 1)) n c.

Definition push (x : T) (c : C) : result C :=
  let c := pushBack K x c in
  _up (size K c - 1) c.

Definition pop (c : C) : result (C * option T) :=
  let n := size K c - 1 in
  c ← swap K 0 n c;
  '(c, _) ← _down 0 n c;
  Ok (popBack K c).

Definition remove (i : Z) (c : C) : result (C * option T) :=
  let n := size K c - 1 in
  c ← (if negb (n =? i) then
         c ← swap K i n c;
         '(c, moved) ← _down i n c;
         if negb (moved : bool) then _up i c else Ok c
       else Ok c);
  Ok (popBack K c).

Definition fix_ (i : Z) (c : C) : result C :=
  '(c, moved) ← _down i (size K c) c;
  if negb (moved : bool) then _up i c else Ok c.
End heap.
End Heap.

(** [class Array<T>], the plain container. *)
Module Array.

Record t (T : Type) : Type :=
  mk { elems : JsArray.t T;
       lessFn : option (option T -> option T -> result bool) }.
Arguments mk {T} elems lessFn.
Arguments elems {T} _.
Arguments lessFn {T} _.

Section ops.
Context {T : Type}.
(** the built-in [<] on element values, used when no [lessFn] is given *)
Context (js_lt : option T -> option T -> bool).

Definition new (es : option (list T))
    (f : option (option T -> option T -> result bool)) : t T :=
  mk (JsArray.of_list (default [] es)) f.

Definition size (a : t T) : Z := JsArray.length (elems a).

Definition get (i : Z) (a : t T) : option T := JsArray.get i (elems a).

Definition less (i j : Z) (a : t T) : result bool :=
  match lessFn a with
  | Some f => f (JsArray.get i (elems a)) (JsArray.get j (elems a))
  | None => Ok (js_lt (JsArray.get i (elems a)) (JsArray.get j (elems a)))
  end.

Definition swap (i j : Z) (a : t T) : t T :=
  let tmp := JsArray.get i (elems a) in
  let e := JsArray.set i (JsArray.get j (elems a)) (elems a) in
  let e := JsArray.set j tmp e in
  mk e (lessFn a).

Definition pushBack (x : T) (a : t T) : t T :=
  mk (JsArray.push (Some x) (elems a)) (lessFn a).

Definition popBack (a : t T) : t T * option T :=
  let '(e, x) := JsArray.pop (elems a) in (mk e (lessFn a), x).

Definition container : Container T (t T) :=
  Build_Container T (t T) size get (fun i j a => Ok (swap i j a))
    less pushBack popBack.
End ops.

End Array.

(** [interface Identifiable { id }]: reading the property [id] and the
    assignment [x.id = v].  For a plain object the assignment stores [v];
    for an object whose [id] is an accessor without setter it does not
    ([Timer] below). *)
Class Identifiable (T : Type) : Type := {
  get_id : T -> Z;
  put_id : Z -> T -> result T
}.

(** [class Map<T extends Identifiable> extends Array<T>].  The elements are
    taken to be distinct objects, so that an in-place write to one element
    is a write to one slot. *)
Module Map.

Record t (T : Type) : Type :=
  mk { elems : JsArray.t T;
       lessFn : option (option T -> option T -> result bool);
       indices : gmap Z Z }.
Arguments mk {T} elems lessFn indices.
Arguments elems {T} _.
Arguments lessFn {T} _.
Arguments indices {T} _.

Section ops.
Context {T : Type} `{Identifiable T}.
Context (js_lt : option T -> option T -> bool).

Fixpoint index_all (i : Z) (l : list T) (ix : gmap Z Z) : gmap Z Z :=
  match l with
  | [] => ix
  | x :: l => index_all (i + 1) l (<[get_id x := i]> ix)
  end.

Definition new (es : option (list T))
    (f : option (option T -> option T -> result bool)) : t T :=
  mk (JsArray.of_list (default [] es)) f (index_all 0 (default [] es) ∅).

Definition as_Array (m : t T) : Array.t T := Array.mk (elems m) (lessFn m).

Definition size (m : t T) : Z := Array.size (as_Array m).
Definition get (i : Z) (m : t T) : option T := Array.get i (as_Array m).
Definition less (i j : Z) (m : t T) : result bool :=
  Array.less js_lt i j (as_Array m).

(** [this.elems[i].id = i] *)
Definition assign_id (i : Z) (e : JsArray.t T) : result (JsArray.t T) :=
  match JsArray.get i e with
  | None => Throw TypeError
  | Some x => x' ← put_id i x; Ok (JsArray.set i (Some x') e)
  end.

Definition swap (i j : Z) (m : t T) : result (t T) :=
  let tmp := JsArray.get i (elems m) in
  let e := JsArray.set i (JsArray.get j (elems m)) (elems m) in
  let e := JsArray.set j tmp e in
  e ← assign_id i e;
  e ← assign_id j e;
  Ok (mk e (lessFn m) (indices m)).

Definition pushBack (x : T) (m : t T) : t T :=
  mk (JsArray.push (Some x) (elems m)) (lessFn m)
     (<[get_id x := JsArray.length (elems m)]> (indices m)).

Definition popBack (m : t T) : t T * option T :=
  let '(e, x) := JsArray.pop (elems m) in
  match x with
  | Some y => (mk e (lessFn m) (delete (get_id y) (indices m)), x)
  | None => (mk e (lessFn m) (indices m), x)
  end.

Definition indexof (k : Z) (m : t T) : Z :=
  match indices m !! k with
  | Some i => i
  | None => -1
  end.

Definition container : Container T (t T) :=
  Build_Container T (t T) size get swap less pushBack popBack.
End ops.

End Map.

(** ** Handler.ts *)

(** [class Handler]: a function with its bound arguments.  What the call
    does lies outside the sources: a handler is a name, and a call appends
    that name to the list of the calls made so far.  (A handler that calls
    back into the scheduler is not represented.) *)
Module Handler.
Definition t : Type := nat.
Definition call (h : t) (calls : list t) : list t := calls ++ [h].
End Handler.

(** ** Ticker.ts *)

Definition Qltb (x y : Q) : bool := negb (Qle_bool y x).

Module Timer.

Record t : Type :=
  mk { handler : Handler.t;
       begin : Q;
       interval : Q;
       once : bool;
       id : Z;
       times : Z;
       next : Q }.

(** [new Timer(handler, begin, interval, once)]; [nextId] is the static
    counter [Timer.$nextId], returned incremented. *)
Definition new (h : Handler.t) (b i : Q) (o : bool) (nextId : Z) : t * Z :=
  (mk h b i o (nextId + 1) 0 (b + i)%Q, nextId + 1).

(** [call()]: runs the handler, counts the firing, recomputes [$next];
    the result is [$once]. *)
Definition call (tm : t) (calls : list Handler.t) : t * list Handler.t * bool :=
  let calls := Handler.call (handler tm) calls in
  let n := times tm + 1 in
  (mk (handler tm) (begin tm) (interval tm) (once tm) (id tm) n
      (begin tm + interval tm * inject_Z (n + 1))%Q,
   calls, once tm).

(** [Timer] exposes [id] through [get id()] only.  An assignment
    [timer.id = v] therefore never changes [$id]: strict code (an ES
    module, a class body, output of tsc with its default settings) throws
    a [TypeError], non-strict code ignores the write.  The build settings
    are not part of the sources, so the mode is a parameter. *)
Definition identifiable (strict : bool) : Identifiable t :=
  {| get_id := id;
     put_id := fun _ tm => if strict then Throw TypeError else Ok tm |}.

End Timer.

(** ** Director.ts, the timer part *)

Module Director.

Record t : Type :=
  mk { timers : Map.t Timer.t;      (* [$timers], the heap's container *)
       nextId : Z;                  (* [Timer.$nextId] *)
       calls : list Handler.t }.    (* handler calls made so far *)

(** the comparator given to [heap.map]:
    [(t1, t2) => t1.next() < t2.next()] *)
Definition lessFn (a b : option Timer.t) : result bool :=
  match a, b with
  | Some t1, Some t2 => Ok (Qltb (Timer.next t1) (Timer.next t2))
  | _, _ => Throw TypeError
  end.

Definition init : t := mk (Map.mk JsArray.empty (Some lessFn) ∅) 0 [].

Section director.
Context (strict : bool).

(** the container operations of [$timers]; a comparator is always
    present, so the built-in [<] is never consulted *)
Definition K : Container Timer.t (Map.t Timer.t) :=
  @Map.container Timer.t (Timer.identifiable strict) (fun _ _ => false).

(** [setInterval]/[setTimeout]; [now] is the value of [Director.now()] *)
Definition schedule (h : Handler.t) (now i : Q) (o : bool) (d : t)
  : result (t * Z) :=
  let '(ticker, nid) := Timer.new h now i o (nextId d) in
  c ← Heap.push K ticker (timers d);
  Ok (mk c nid (calls d), Timer.id ticker).

Definition setInterval (h : Handler.t) (now i : Q) (d : t) : result (t * Z) :=
  schedule h now i false d.

Definition setTimeout (h : Handler.t) (now i : Q) (d : t) : result (t * Z) :=
  schedule h now i true d.

Definition clearInterval (k : Z) (d : t) : result t :=
  let i := @Map.indexof Timer.t k (timers d) in
  if 0 <=? i then
    '(c, _) ← Heap.remove K i (timers d);
    Ok (mk c (nextId d) (calls d))
  else Ok d.

(** One round of the loop of [scheduleTimers(now)]: [None] when the
    loop is left ([break], or the heap is empty), otherwise the state
    after the body. *)
Definition scheduleTimers_round (now : Q) (d : t) : result (option t) :=
  if 0 <? size K (timers d) then
    match get K 0 (timers d) with
    | None => Throw TypeError
    | Some top =>
        if Qltb now (Timer.next top) then Ok None
        else
          '(c, ticker) ← Heap.pop K (timers d);
          match ticker with
          | None => Throw TypeError
          | Some ticker =>
              let '(ticker, calls, once) := Timer.call ticker (calls d) in
              if negb once then
                c ← Heap.push K ticker c;
                Ok (Some (mk c (nextId d) calls))
              else Ok (Some (mk c (nextId d) calls))
          end
    end
  else Ok None.

(** [scheduleTimers(now)].  The loop runs for as long as the root is
    due, which no argument bounds (a repeating timer with interval 0
    stays due for ever): the number of rounds is limited by [fuel]. *)
Fixpoint scheduleTimers (fuel : nat) (now : Q) (d : t) : result t :=
  match fuel with
  | O => OutOfFuel
  | S fuel =>
      r ← scheduleTimers_round now d;
      match r with
      | None => Ok d
      | Some d => scheduleTimers fuel now d
      end
  end.
End director.

End Director.

(** A plain identifiable object: [{ id, key }] with a writable [id]. *)
Module Item.
Record t : Type := mk { id : Z; key : Z }.
#[global] Instance identifiable : Identifiable t :=
  {| get_id := id; put_id := fun v x => Ok (mk v (key x)) |}.
Definition lessFn (a b : option t) : result bool :=
  match a, b with
  | Some x, Some y => Ok (key x <? key y)
  | _, _ => Throw TypeError
  end.
Definition K : Container t (Map.t t) := Map.container (fun _ _ => false).
End Item.

(** ** Notions used to state the properties of the scheduler *)

Module Pass.

(** the timer after one firing, and after [k] firings *)
Definition fire (tm : Timer.t) : Timer.t := (Timer.call tm []).1.1.

Fixpoint fired (k : nat) (tm : Timer.t) : Timer.t :=
  match k with
  | O => tm
  | S k => fired k (fire tm)
  end.

(** the container of [$timers] when [tm] is the only timer in it *)
Definition single (tm : Timer.t) : Map.t Timer.t :=
  Map.mk (JsArray.mk [Some tm] ∅) (Some Director.lessFn)
         {[ Timer.id tm := 0 ]}.

(** the handlers of the timers in the heap *)
Definition handlers (d : Director.t) : list Handler.t :=
  omap (fmap Timer.handler) (JsArray.items (Map.elems (Director.timers d))).

(** "Within one pass each timer fires at most once", read on the calls:
    when the timers have handlers of their own, a pass that returns adds
    at most one call of each handler. *)
Definition fires_at_most_once (strict : bool) (now : Q) (d : Director.t)
  : Prop :=
  NoDup (handlers d) ->
  forall fuel d', Director.scheduleTimers strict fuel now d = Ok d' ->
  forall h, (count_occ Nat.eq_dec (Director.calls d') h
             <= count_occ Nat.eq_dec (Director.calls d) h + 1)%nat.

(** [Director.setInterval(h, 1.0)] called when [Director.now()] is 0, on
    a scheduler without timers *)
Definition interval_1_from_0 (strict : bool) (h : Handler.t)
  : result Director.t :=
  '(d, _) ← Director.setInterval strict h 0 1 Director.init; Ok d.

(** the timer [interval_1_from_0] creates: begin 0, interval 1,
    repeating *)
Definition timer_0_1 (h : Handler.t) : Timer.t :=
  Timer.mk h 0 1 false 1 0 (0 + 1).

End Pass.

(** ** Action.ts: interval actions *)

Definition FLT_EPSILON : Q := 1192092896 # 10000000000000000.

(** A node ([THREE.Object3D]) is known to the actions by reference; its
    [id] stands for it. *)
Definition Node : Type := Z.

(** [class ActionInterval extends FiniteTimeAction extends Action]: the
    fields of the three classes, [$x] written [_x].  [updates] is not a
    field of the class: [update(t)] of these classes does nothing, and
    [updates] lists the values it was called with. *)
Module ActionInterval.

Record t (Easing : Type) : Type :=
  mk { originalTarget : option Node;
       target : option Node;
       tag : Z;
       _times : option Q;
       _duration : Q;
       _elapsed : Q;
       _firstTick : bool;
       _easeList : option (list Easing);
       _forever : bool;
       _speed : Q;
       MAX_VALUE : Q;
       updates : list Q }.
Arguments mk {Easing} _ _ _ _ _ _ _ _ _ _ _ _.
Arguments originalTarget {Easing} _.
Arguments target {Easing} _.
Arguments tag {Easing} _.
Arguments _times {Easing} _.
Arguments _duration {Easing} _.
Arguments _elapsed {Easing} _.
Arguments _firstTick {Easing} _.
Arguments _easeList {Easing} _.
Arguments _forever {Easing} _.
Arguments _speed {Easing} _.
Arguments MAX_VALUE {Easing} _.
Arguments updates {Easing} _.

Section methods.
(** [interface Easing { easing(dt); reverse() }] *)
Context {Easing : Type}.
Context (easing : Easing -> Q -> Q) (ease_reverse : Easing -> Easing).

Definition ACTION_TAG_INVALID : Z := -1.

(** [$initWithDuration(d)] *)
Definition _initWithDuration (d : Q) (a : t Easing) : t Easing :=
  mk (originalTarget a) (target a) (tag a) (_times a)
     (if Qeq_bool d 0 then FLT_EPSILON else d) 0 true
     (_easeList a) (_forever a) (_speed a) (MAX_VALUE a) (updates a).

(** [new ActionInterval(d)] *)
Definition new (d : Q) : t Easing :=
  _initWithDuration d
    (mk None None ACTION_TAG_INVALID None d 0 true None false 1 2 []).

(** [get times()]: [$times || 1] *)
Definition times (a : t Easing) : Q :=
  match _times a with
  | Some n => if Qeq_bool n 0 then 1%Q else n
  | None => 1%Q
  end.

(** [set times(value)] *)
Definition set_times (n : Q) (a : t Easing) : t Easing :=
  mk (originalTarget a) (target a) (tag a) (Some n)
     (_duration a) (_elapsed a) (_firstTick a)
     (_easeList a) (_forever a) (_speed a) (MAX_VALUE a) (updates a).

(** [get duration()]: [($duration || 0) * ($times || 1)] *)
Definition duration (a : t Easing) : Q := (_duration a * times a)%Q.

Definition getElapsed (a : t Easing) : Q := _elapsed a.

(** [isDone()]: [$elapsed >= $duration] *)
Definition isDone (a : t Easing) : bool :=
  Qle_bool (_duration a) (_elapsed a).

(** [easing(...easeObjs)] *)
Definition set_easing (l : list Easing) (a : t Easing) : t Easing :=
  mk (originalTarget a) (target a) (tag a) (_times a)
     (_duration a) (_elapsed a) (_firstTick a)
     (Some l) (_forever a) (_speed a) (MAX_VALUE a) (updates a).

Definition repeatForever (a : t Easing) : t Easing :=
  let a := set_times (MAX_VALUE a) a in
  mk (originalTarget a) (target a) (tag a) (_times a)
     (_duration a) (_elapsed a) (_firstTick a)
     (_easeList a) true (_speed a) (MAX_VALUE a) (updates a).

(** [$cloneDecoration(action)]: [this] is [src] *)
Definition _cloneDecoration (src action : t Easing) : t Easing :=
  mk (originalTarget action) (target action) (tag action) (_times src)
     (_duration action) (_elapsed action) (_firstTick action)
     (_easeList src) (_forever src) (_speed src) (MAX_VALUE action)
     (updates action).

(** [$reverseEaseList(action)] *)
Definition _reverseEaseList (src action : t Easing) : t Easing :=
  match _easeList src with
  | Some l =>
      mk (originalTarget action) (target action) (tag action)
         (_times action) (_duration action) (_elapsed action)
         (_firstTick action) (Some (ease_reverse <$> l))
         (_forever action) (_speed action) (MAX_VALUE action)
         (updates action)
  | None => action
  end.

(** [$computeEaseTime(dt)]: the list is walked from index 0 upwards *)
Definition _computeEaseTime (a : t Easing) (dt : Q) : Q :=
  match _easeList a with
  | None | Some [] => dt
  | Some l => fold_left (fun dt e => easing e dt) l dt
  end.

Definition startWithTarget (tg : option Node) (a : t Easing) : t Easing :=
  mk tg tg (tag a) (_times a) (_duration a) 0 true
     (_easeList a) (_forever a) (_speed a) (MAX_VALUE a) (updates a).

Definition stop (a : t Easing) : t Easing :=
  mk (originalTarget a) None (tag a) (_times a)
     (_duration a) (_elapsed a) (_firstTick a)
     (_easeList a) (_forever a) (_speed a) (MAX_VALUE a) (updates a).

(** [update(t)] of [Action]: no effect; the call is recorded *)
Definition update (x : Q) (a : t Easing) : t Easing :=
  mk (originalTarget a) (target a) (tag a) (_times a)
     (_duration a) (_elapsed a) (_firstTick a)
     (_easeList a) (_forever a) (_speed a) (MAX_VALUE a)
     (updates a ++ [x]).

(** the first statement of [step(dt)] *)
Definition tick (dt : Q) (a : t Easing) : t Easing :=
  mk (originalTarget a) (target a) (tag a) (_times a) (_duration a)
     (if _firstTick a then 0 else _elapsed a + dt)%Q false
     (_easeList a) (_forever a) (_speed a) (MAX_VALUE a) (updates a).

(** the divisor in [step]:
    [this.$duration > FLT_EPSILON ? this.$duration : FLT_EPSILON] *)
Definition divisor (a : t Easing) : Q :=
  if Qltb FLT_EPSILON (_duration a) then _duration a else FLT_EPSILON.

(** the value [step] hands to [update] *)
Definition normalized (a : t Easing) : Q :=
  let x := (_elapsed a / divisor a)%Q in
  let x := if Qltb x 1 then x else 1%Q in
  if Qltb 0 x then x else 0%Q.

(** [this.$times > 1] *)
Definition times_gt_1 (a : t Easing) : bool :=
  match _times a with
  | Some n => Qltb 1 n
  | None => false
  end.

Definition decrement_times (a : t Easing) : t Easing :=
  mk (originalTarget a) (target a) (tag a)
     ((fun n => n - 1)%Q <$> _times a)
     (_duration a) (_elapsed a) (_firstTick a)
     (_easeList a) (_forever a) (_speed a) (MAX_VALUE a) (updates a).

(** [step(dt)].  It calls itself after a finished cycle of a repeated
    action; with a [$duration] that is not positive and [$forever]
    set this never ends, so the depth is limited by [fuel]. *)
Fixpoint step (fuel : nat) (dt : Q) (a : t Easing) : result (t Easing) :=
  match fuel with
  | O => OutOfFuel
  | S fuel =>
      let a := tick dt a in
      let a := update (normalized a) a in
      if times_gt_1 a && isDone a then
        let a := if negb (_forever a) then decrement_times a else a in
        let a := startWithTarget (target a) a in
        step fuel (_elapsed a - _duration a)%Q a
      else Ok a
  end.
End methods.

End ActionInterval.

(** An easing given by an exponent: [easeIn(n).easing(dt)] is
    [Math.pow(dt, n)], here for a natural number [n]. *)
Module EaseIn.
Definition t : Type := nat.
Definition easing (n : t) (dt : Q) : Q := (dt ^ Z.of_nat n)%Q.
End EaseIn.

(** The words of the specification about [step]. *)
Module StepSpec.
Import ActionInterval.

(** "clamp(elapsed / max(duration, epsilon), 0, 1)" *)
Definition clamped_ratio (elapsed duration : Q) : Q :=
  Qmax 0 (Qmin (elapsed / Qmax duration FLT_EPSILON) 1).

(** "passed through the easing transforms before being handed to
    update" *)
Definition eased_ratio {Easing : Type} (easing : Easing -> Q -> Q)
    (a : t Easing) : Q :=
  _computeEaseTime easing a (clamped_ratio (_elapsed a) (_duration a)).

(** an action of duration 2 with the easing [easeIn(2)], started *)
Definition eased_action : t EaseIn.t :=
  startWithTarget (Some 1) (set_easing [2%nat] (new 2)).

(** an action of duration 1 with [times] set to 2, started *)
Definition repeated_action : t EaseIn.t :=
  startWithTarget (Some 1) (set_times 2 (new 1)).
End StepSpec.

(** ** Action.ts: the leaf actions and [reverse()] *)

(** [THREE.Vector3] as [util.vec3(x, y, z)] builds it *)
Module Vec3.
Record t : Type := mk { x : Q; y : Q; z : Q }.
Definition zero : t := mk 0 0 0.
Definition opp (v : t) : t := mk (- x v) (- y v) (- z v).
Definition sub (v w : t) : t := mk (x v - x w) (y v - y w) (z v - z w).
End Vec3.

(** what [log.error] was called with *)
Inductive LogEntry : Type :=
| ReverseNotImplemented.   (* "cc.IntervalAction: reverse not implemented." *)

Module Leaf.

(** the fields of [ScaleTo] *)
Record ScaleFields : Type :=
  mkScale { _scale : Vec3.t;        (* $scaleX, $scaleY, $scaleZ *)
            _startScale : Vec3.t;   (* $startScaleX, ... *)
            _endScale : Vec3.t;     (* $endScaleX, ... *)
            _d : Vec3.t }.          (* $dx, $dy, $dz *)

(** The class of the object with the fields the class adds to
    [ActionInterval]; a field that is not yet assigned is [None]. *)
Inductive fields : Type :=
| RotateTo (_dst : Vec3.t) (_start _delta : option Vec3.t)
| RotateBy (_angle : Vec3.t) (_start : option Vec3.t)
| MoveBy (_delta _start _prev : Vec3.t)
| MoveTo (_delta _start _prev _end : Vec3.t)       (* extends MoveBy *)
| BezierBy (_config : option (list Vec3.t)) (_start _prev : Vec3.t)
| BezierTo (_config : option (list Vec3.t)) (_start _prev : Vec3.t)
           (_toConfig : option (list Vec3.t))      (* extends BezierBy *)
| ScaleTo (s : ScaleFields).

Record t (Easing : Type) : Type :=
  mk { base : ActionInterval.t Easing; own : fields }.
Arguments mk {Easing} _ _.
Arguments base {Easing} _.
Arguments own {Easing} _.

Section methods.
Context {Easing : Type} (ease_reverse : Easing -> Easing).

Definition new_RotateTo (d : Q) (dst : Vec3.t) : t Easing :=
  mk (ActionInterval.new d) (RotateTo dst None None).

Definition new_RotateBy (d : Q) (delta : Vec3.t) : t Easing :=
  mk (ActionInterval.new d) (RotateBy delta None).

Definition new_MoveBy (d : Q) (delta : Vec3.t) : t Easing :=
  mk (ActionInterval.new d) (MoveBy delta Vec3.zero Vec3.zero).

(** [super(duration, util.vec3(0, 0, 0))], then [$end] *)
Definition new_MoveTo (d : Q) (dst : Vec3.t) : t Easing :=
  mk (ActionInterval.new d)
     (MoveTo Vec3.zero Vec3.zero Vec3.zero dst).

Definition new_BezierBy (d : Q) (points : option (list Vec3.t)) : t Easing :=
  mk (ActionInterval.new d) (BezierBy points Vec3.zero Vec3.zero).

(** [super(duration, null)] leaves [$config] unassigned *)
Definition new_BezierTo (d : Q) (points : option (list Vec3.t)) : t Easing :=
  mk (ActionInterval.new d) (BezierTo None Vec3.zero Vec3.zero points).

(** [new ScaleTo(duration, sx, sy?)]; [$endScaleZ] keeps its initial 0 *)
Definition new_ScaleTo (d sx : Q) (sy : option Q) : t Easing :=
  mk (ActionInterval.new d)
     (ScaleTo (mkScale (Vec3.mk 1 1 1) (Vec3.mk 1 1 1)
                       (Vec3.mk sx (default sx sy) 0) Vec3.zero)).

(** [$cloneDecoration(action); $reverseEaseList(action)] *)
Definition decorate (this action : t Easing) : t Easing :=
  let b := ActionInterval._cloneDecoration (base this) (base action) in
  mk (ActionInterval._reverseEaseList ease_reverse (base this) b)
     (own action).

(** [ActionInterval.reverse()]: logs an error and returns [null] *)
Definition ActionInterval_reverse (this : t Easing)
  : result (option (t Easing) * list LogEntry) :=
  Ok (None, [ReverseNotImplemented]).

(** [MoveBy.reverse()] on an object whose [$delta] is [delta] *)
Definition MoveBy_reverse (this : t Easing) (delta : Vec3.t)
  : result (option (t Easing) * list LogEntry) :=
  let action :=
    new_MoveBy (ActionInterval.duration (base this)) (Vec3.opp delta) in
  Ok (Some (decorate this action), []).

Definition RotateBy_reverse (this : t Easing) (angle : Vec3.t)
  : result (option (t Easing) * list LogEntry) :=
  let action :=
    new_RotateBy (ActionInterval.duration (base this)) (Vec3.opp angle) in
  Ok (Some (decorate this action), []).

(** [BezierBy.reverse()] on an object whose [$config] is [config]:
    reading [loc[i].x] throws when [loc] or [loc[i]] is [undefined] *)
Definition BezierBy_reverse (this : t Easing)
    (config : option (list Vec3.t))
  : result (option (t Easing) * list LogEntry) :=
  match config with
  | Some (p0 :: p1 :: p2 :: _) =>
      let r := [Vec3.sub p1 p2; Vec3.sub p0 p2; Vec3.opp p2] in
      let action :=
        new_BezierBy (ActionInterval.duration (base this)) (Some r) in
      Ok (Some (decorate this action), [])
  | _ => Throw TypeError
  end.

(** [reverse()], by the class of the object: [MoveTo] and [BezierTo]
    do not override the method of the class they extend *)
Definition reverse (this : t Easing)
  : result (option (t Easing) * list LogEntry) :=
  match own this with
  | RotateTo _ _ _ => ActionInterval_reverse this
  | RotateBy angle _ => RotateBy_reverse this angle
  | MoveBy delta _ _ => MoveBy_reverse this delta
  | MoveTo delta _ _ _ => MoveBy_reverse this delta
  | BezierBy config _ _ => BezierBy_reverse this config
  | BezierTo config _ _ _ => BezierBy_reverse this config
  | ScaleTo _ => ActionInterval_reverse this
  end.

(** the vector a "-by" action moves or turns by *)
Definition by_delta (a : t Easing) : option Vec3.t :=
  match own a with
  | RotateBy angle _ => Some angle
  | MoveBy delta _ _ => Some delta
  | _ => None
  end.

Definition duration (a : t Easing) : Q := ActionInterval.duration (base a).

(** [action.times = n] *)
Definition set_times (n : Q) (a : t Easing) : t Easing :=
  mk (ActionInterval.set_times n (base a)) (own a).

(** [reverse().reverse()] *)
Definition reverse_twice (a : t Easing)
  : result (option (t Easing) * list LogEntry) :=
  '(r, _) ← reverse a;
  match r with
  | Some r => reverse r
  | None => Throw TypeError
  end.
End methods.

End Leaf.

(** ** Action.ts: [Sequence] *)

(** [x % 1] for a positive [x] *)
Definition Qmod1 (x : Q) : Q := (x - inject_Z (Qfloor x))%Q.

Module Sequence.

(** a call of a method of a child *)
Inductive Event : Type :=
| Start (tg : option Node)   (* [startWithTarget(tg)] *)
| Update (x : Q)             (* [update(x)] *)
| Stop.                      (* [stop()] *)

(** A sequence of two actions that has been started: before the first
    [startWithTarget] the fields [$split] and [$last] are unassigned.
    The children are objects of any class of [FiniteTimeAction], with
    state [Child].  [events] is not a field: it lists the calls made on
    the children, each with the index of the child. *)
Record t (Easing Child : Type) : Type :=
  mk { base : ActionInterval.t Easing;
       _actions : Child * Child;
       _split : Q;
       _last : Z;
       events : list (Z * Event) }.
Arguments mk {Easing Child} _ _ _ _ _.
Arguments base {Easing Child} _.
Arguments _actions {Easing Child} _.
Arguments _split {Easing Child} _.
Arguments _last {Easing Child} _.
Arguments events {Easing Child} _.

Section methods.
Context {Easing : Type} (easing : Easing -> Q -> Q).
Context {Child : Type}.
(** the methods of the children *)
Context (child_startWithTarget : option Node -> Child -> Child)
        (child_update : Q -> Child -> Child)
        (child_stop : Child -> Child)
        (child_isDone : Child -> bool)
        (child_times : Child -> Q)
        (child_duration : Child -> Q).

Definition child (i : Z) (s : t Easing Child) : Child :=
  if i =? 0 then (_actions s).1 else (_actions s).2.

(** a method call on child [i] that turns its state into [f state] *)
Definition call (i : Z) (e : Event) (f : Child -> Child)
    (s : t Easing Child) : t Easing Child :=
  mk (base s)
     (if i =? 0 then (f (_actions s).1, (_actions s).2)
      else ((_actions s).1, f (_actions s).2))
     (_split s) (_last s) (events s ++ [(i, e)]).

Definition call_start (i : Z) (tg : option Node) :=
  call i (Start tg) (child_startWithTarget tg).
Definition call_update (i : Z) (x : Q) :=
  call i (Update x) (child_update x).
Definition call_stop (i : Z) := call i Stop child_stop.

(** [get duration()] of the sequence *)
Definition duration (s : t Easing Child) : Q :=
  ActionInterval.duration (base s).

(** [startWithTarget(target)].  [$split] is a quotient by
    [this.duration]; that is 0 only after [duration] was assigned 0
    from outside, and the quotient is then not a number: [None]. *)
Definition startWithTarget (tg : option Node) (s : t Easing Child)
  : option (t Easing Child) :=
  let b := ActionInterval.startWithTarget tg (base s) in
  if Qeq_bool (ActionInterval.duration b) 0 then None
  else Some (mk b (_actions s)
                (child_duration (_actions s).1 / ActionInterval.duration b)
                (-1) (events s)).

Definition set_last (found : Z) (s : t Easing Child) : t Easing Child :=
  mk (base s) (_actions s) (_split s) found (events s).

(** [update(dt)] from [actionFound = locActions[found]] on *)
Definition update_found (found : Z) (new_t : Q) (locLast : Z)
    (s : t Easing Child) : t Easing Child :=
  if (locLast =? found) && child_isDone (child found s) then s
  else
    let s := if negb (locLast =? found)
             then call_start found (ActionInterval.target (base s)) s
             else s in
    let new_t := (new_t * child_times (child found s))%Q in
    let s := call_update found
               (if Qltb 1 new_t then Qmod1 new_t else new_t) s in
    set_last found s.

(** [update(dt)] after [dt = this.$computeEaseTime(dt)] *)
Definition update_eased (dt : Q) (s : t Easing Child) : t Easing Child :=
  let locSplit := _split s in
  let locLast := _last s in
  if Qltb dt locSplit then
    let new_t := if negb (Qeq_bool locSplit 0)
                 then (dt / locSplit)%Q else 1%Q in
    let s := if locLast =? 1
             then call_stop 1 (call_update 1 0 s) else s in
    update_found 0 new_t locLast s
  else
    let new_t := if Qeq_bool locSplit 1 then 1%Q
                 else ((dt - locSplit) / (1 - locSplit))%Q in
    let s := if locLast =? -1
             then call_stop 0 (call_update 0 1
                    (call_start 0 (ActionInterval.target (base s)) s))
             else s in
    let s := if locLast =? 0
             then call_stop 0 (call_update 0 1 s) else s in
    update_found 1 new_t locLast s.

(** [update(dt)]; [super.update(dt)] is the empty method of [Action] *)
Definition update (dt : Q) (s : t Easing Child) : t Easing Child :=
  update_eased (ActionInterval._computeEaseTime easing (base s) dt) s.

(** successive calls of [update] *)
Definition run (ts : list Q) (s : t Easing Child) : t Easing Child :=
  fold_left (fun s x => update x s) ts s.

(** the calls made on the first child *)
Definition first_child_events (s : t Easing Child) : list Event :=
  omap (fun '(i, e) => if (i : Z) =? 0 then Some e else None) (events s).

(** the time [update] works with *)
Definition eased (s : t Easing Child) (x : Q) : Q :=
  ActionInterval._computeEaseTime easing (base s) x.
End methods.

End Sequence.

(** A child that does nothing and is never done, with duration 1. *)
Module Idle.
Definition t : Type := unit.
Definition startWithTarget (_ : option Node) (c : t) : t := c.
Definition update (_ : Q) (c : t) : t := c.
Definition stop (c : t) : t := c.
Definition isDone (_ : t) : bool := false.
Definition times (_ : t) : Q := 1.
Definition duration (_ : t) : Q := 1.

(** [sequence(a, b)] of two such children, started on node 1 *)
Definition started_sequence : Sequence.t EaseIn.t t :=
  Sequence.mk (ActionInterval.startWithTarget (Some 1) (ActionInterval.new 2))
              (tt, tt) (1 # 2) (-1) [].
End Idle.

(** ** Action.ts: [ActionManager] *)

Module ActionManager.

(** Objects are held by reference: [ref] is the address of a
    [HashElement] in [elements], or of an action in [objects]. *)
Definition ref : Type := nat.

Record HashElement : Type :=
  mkHashElement { actions : list ref;
                  target : option Node;
                  actionIndex : Z;
                  currentAction : option ref;
                  paused : bool;
                  lock : bool }.

(** [new HashElement()] *)
Definition new_HashElement : HashElement :=
  mkHashElement [] None 0 None false false.

(** The manager, the objects it refers to, and [stepped], which is not a
    field: the calls of [step] made so far, each with its argument. *)
Record t (A : Type) : Type :=
  mk { _pool : list ref;
       _elementsMap : gmap Z ref;
       _elementsArr : list ref;
       _current : option ref;
       elements : gmap ref HashElement;
       objects : gmap ref A;
       stepped : list (ref * Q) }.
Arguments mk {A} _ _ _ _ _ _ _.
Arguments _pool {A} _.
Arguments _elementsMap {A} _.
Arguments _elementsArr {A} _.
Arguments _current {A} _.
Arguments elements {A} _.
Arguments objects {A} _.
Arguments stepped {A} _.

(** What user code run from inside [step] (the function of a [CallFunc])
    asks of the manager. *)
Inductive Call : Type :=
| CallRemoveAction (action : ref)
| CallRemoveAllActionsFromTarget (tg : Node)
| CallRemoveActionByTag (tag : Z) (tg : Node)
| CallAddAction (action : ref) (tg : Node) (paused : bool).

(** [new ActionManager()] with the action objects [objs] in the store *)
Definition new {A : Type} (objs : gmap ref A) : t A :=
  mk [] ∅ [] None ∅ objs [].

(** The methods of the action classes, on an action of state [A].
    [act_step this dt a] gives the state after [step(dt)] and the calls
    the step made on the manager, in order. *)
Record Methods (A : Type) : Type :=
  { act_step : ref -> Q -> A -> A * list Call;
    act_isDone : A -> bool;
    act_stop : A -> A;
    act_startWithTarget : Node -> A -> A;
    act_speed : A -> Q;
    act_originalTarget : A -> option Node;
    act_tag : A -> Z }.
Arguments act_step {A} _ _ _ _.
Arguments act_isDone {A} _ _.
Arguments act_stop {A} _ _.
Arguments act_startWithTarget {A} _ _ _.
Arguments act_speed {A} _ _.
Arguments act_originalTarget {A} _ _.
Arguments act_tag {A} _ _.

Section methods.
Context {A : Type}.
Context (M : Methods A).

Definition get_element (e : ref) (w : t A) : result HashElement :=
  match elements w !! e with
  | Some el => Ok el
  | None => Throw NoSuchObject
  end.

Definition get_object (r : ref) (w : t A) : result A :=
  match objects w !! r with
  | Some a => Ok a
  | None => Throw NoSuchObject
  end.

Definition set_element (e : ref) (el : HashElement) (w : t A) : t A :=
  mk (_pool w) (_elementsMap w) (_elementsArr w) (_current w)
     (<[e := el]> (elements w)) (objects w) (stepped w).

Definition set_object (r : ref) (a : A) (w : t A) : t A :=
  mk (_pool w) (_elementsMap w) (_elementsArr w) (_current w)
     (elements w) (<[r := a]> (objects w)) (stepped w).

(** [arr[i]] for an integer [i] *)
Definition at_index {X : Type} (i : Z) (l : list X) : option X :=
  if i <? 0 then None else l !! Z.to_nat i.

(** the first index at which [l] holds [r] *)
Fixpoint index_of (r : ref) (l : list ref) : option nat :=
  match l with
  | [] => None
  | x :: l => if decide (x = r) then Some 0%nat else S <$> index_of r l
  end.

(** a fresh address for [new HashElement()] *)
Definition fresh_element (w : t A) : ref := fresh (dom (elements w)).

Definition _getElement (tg : Node) (p : bool) (w : t A) : result (t A * ref) :=
  match last (_pool w) with
  | Some e =>
      el ← get_element e w;
      let w := mk (removelast (_pool w)) (_elementsMap w) (_elementsArr w)
                  (_current w) (elements w) (objects w) (stepped w) in
      Ok (set_element e
            (mkHashElement (actions el) (Some tg) (actionIndex el)
                           (currentAction el) p (lock el)) w, e)
  | None =>
      let e := fresh_element w in
      Ok (set_element e
            (mkHashElement [] (Some tg) 0 None p false) w, e)
  end.

Definition _putElement (e : ref) (w : t A) : result (t A) :=
  el ← get_element e w;
  let w := set_element e (mkHashElement [] None 0 None false false) w in
  Ok (mk (_pool w ++ [e]) (_elementsMap w) (_elementsArr w) (_current w)
         (elements w) (objects w) (stepped w)).

Definition addAction (action : option ref) (tg : option Node) (p : bool)
    (w : t A) : result (t A) :=
  match action, tg with
  | None, _ => Throw UserError
  | _, None => Throw UserError
  | Some r, Some tg =>
      '(w, e) ← match _elementsMap w !! tg with
                | Some e => Ok (w, e)
                | None =>
                    '(w, e) ← _getElement tg p w;
                    Ok (mk (_pool w) (<[tg := e]> (_elementsMap w))
                           (_elementsArr w ++ [e]) (_current w)
                           (elements w) (objects w) (stepped w), e)
                end;
      el ← get_element e w;
      let w := set_element e
                 (mkHashElement (actions el ++ [r]) (target el)
                    (actionIndex el) (currentAction el) (paused el)
                    (lock el)) w in
      a ← get_object r w;
      Ok (set_object r (act_startWithTarget M tg a) w)
  end.

Definition _deleteHashElement (e : ref) (w : t A) : result (t A * bool) :=
  el ← get_element e w;
  if lock el then Ok (w, false)
  else
    match target el with
    | None => Throw TypeError
    | Some tg =>
        match _elementsMap w !! tg with
        | None => Ok (w, false)
        | Some _ =>
            let arr := match index_of e (_elementsArr w) with
                       | Some i => delete i (_elementsArr w)
                       | None => _elementsArr w
                       end in
            let w := mk (_pool w) (delete tg (_elementsMap w)) arr
                        (_current w) (elements w) (objects w)
                        (stepped w) in
            w ← _putElement e w;
            Ok (w, true)
        end
    end.

Definition removeAllActionsFromTarget (tg : option Node) (w : t A)
  : result (t A) :=
  match tg with
  | None => Ok w
  | Some tg =>
      match _elementsMap w !! tg with
      | None => Ok w
      | Some e =>
          el ← get_element e w;
          let w := set_element e
                     (mkHashElement [] (target el) (actionIndex el)
                        (currentAction el) (paused el) (lock el)) w in
          '(w, _) ← _deleteHashElement e w;
          Ok w
      end
  end.

(** [actions.splice(i, 1)] and the adjustment of [actionIndex] *)
Definition spliced (i : nat) (el : HashElement) : HashElement :=
  mkHashElement (delete i (actions el)) (target el)
    (if Z.of_nat i <=? actionIndex el
     then actionIndex el - 1 else actionIndex el)
    (currentAction el) (paused el) (lock el).

Definition removeAction (action : option ref) (w : t A) : result (t A) :=
  match action with
  | None => Ok w
  | Some r =>
      a ← get_object r w;
      match act_originalTarget M a with
      | None => Throw TypeError
      | Some tg =>
          match _elementsMap w !! tg with
          | None => Ok w
          | Some e =>
              el ← get_element e w;
              match index_of r (actions el) with
              | None => Ok w
              | Some i => Ok (set_element e (spliced i el) w)
              end
          end
      end
  end.

Definition _removeActionAtIndex (i : nat) (e : ref) (w : t A)
  : result (t A) :=
  el ← get_element e w;
  let w := set_element e (spliced i el) w in
  if (List.length (delete i (actions el)) =? 0)%nat then
    '(w, _) ← _deleteHashElement e w; Ok w
  else Ok w.

(** the first index whose action has the tag and the target *)
Fixpoint find_tagged (tag : Z) (tg : Node) (i : nat) (l : list ref)
    (w : t A) : result (option nat) :=
  match l with
  | [] => Ok None
  | r :: l =>
      a ← get_object r w;
      if (act_tag M a =? tag)
         && bool_decide (act_originalTarget M a = Some tg)
      then Ok (Some i)
      else find_tagged tag tg (S i) l w
  end.

Definition removeActionByTag (tag : Z) (tg : Node) (w : t A)
  : result (t A) :=
  match _elementsMap w !! tg with
  | None => Ok w
  | Some e =>
      el ← get_element e w;
      i ← find_tagged tag tg 0 (actions el) w;
      match i with
      | Some i => _removeActionAtIndex i e w
      | None => Ok w
      end
  end.

Definition numberOfRunningActionsInTarget (tg : Node) (w : t A)
  : result Z :=
  match _elementsMap w !! tg with
  | None => Ok 0
  | Some e => el ← get_element e w; Ok (Z.of_nat (List.length (actions el)))
  end.

Definition call (c : Call) (w : t A) : result (t A) :=
  match c with
  | CallRemoveAction r => removeAction (Some r) w
  | CallRemoveAllActionsFromTarget tg =>
      removeAllActionsFromTarget (Some tg) w
  | CallRemoveActionByTag tag tg => removeActionByTag tag tg w
  | CallAddAction r tg p => addAction (Some r) (Some tg) p w
  end.

Fixpoint calls (cs : list Call) (w : t A) : result (t A) :=
  match cs with
  | [] => Ok w
  | c :: cs => w ← call c w; calls cs w
  end.

(** [action.step(dt)] on the object at [r], with what it asks of the
    manager *)
Definition step_object (r : ref) (dt : Q) (w : t A) : result (t A) :=
  a ← get_object r w;
  let '(a', cs) := act_step M r dt a in
  let w := set_object r a' w in
  let w := mk (_pool w) (_elementsMap w) (_elementsArr w) (_current w)
              (elements w) (objects w) (stepped w ++ [(r, dt)]) in
  calls cs w.

Definition set_currentAction (c : option ref) (el : HashElement)
  : HashElement :=
  mkHashElement (actions el) (target el) (actionIndex el) c
                (paused el) (lock el).

Definition set_actionIndex (i : Z) (el : HashElement) : HashElement :=
  mkHashElement (actions el) (target el) i (currentAction el)
                (paused el) (lock el).

Definition set_lock (b : bool) (el : HashElement) : HashElement :=
  mkHashElement (actions el) (target el) (actionIndex el)
                (currentAction el) (paused el) b.

Definition modify_element (e : ref) (f : HashElement -> HashElement)
    (w : t A) : result (t A) :=
  el ← get_element e w; Ok (set_element e (f el) w).

(** the body of the inner loop of [update(dt)], for the element [e] *)
Definition update_action (dt : Q) (e : ref) (w : t A) : result (t A) :=
  el ← get_element e w;
  let c := at_index (actionIndex el) (actions el) in
  let w := set_element e (set_currentAction c el) w in
  match c with
  | None => Ok w                                   (* [continue] *)
  | Some r =>
      a ← get_object r w;
      w ← step_object r (dt * act_speed M a)%Q w;
      el ← get_element e w;
      w ← match currentAction el with
          | Some r' =>
              a ← get_object r' w;
              if act_isDone M a then
                let w := set_object r' (act_stop M a) w in
                w ← modify_element e (set_currentAction None) w;
                removeAction (Some r') w
              else Ok w
          | None => Ok w
          end;
      modify_element e (set_currentAction None) w
  end.

(** the inner loop, from the current [actionIndex] on.  User code may
    add actions while the loop runs, so its length is not bounded by
    the list the loop starts with. *)
Fixpoint update_actions (fuel : nat) (dt : Q) (e : ref) (w : t A)
  : result (t A) :=
  match fuel with
  | O => OutOfFuel
  | S fuel =>
      el ← get_element e w;
      if actionIndex el <? Z.of_nat (List.length (actions el)) then
        w ← update_action dt e w;
        w ← modify_element e
              (fun el => set_actionIndex (actionIndex el + 1) el) w;
        update_actions fuel dt e w
      else Ok w
  end.

(** the body of the outer loop for [elements[i]]; the result holds the
    [i] the loop goes on from *)
Definition update_element (fuel : nat) (dt : Q) (i : Z) (w : t A)
  : result (t A * Z) :=
  match at_index i (_elementsArr w) with
  | None => Throw TypeError
  | Some e =>
      let w := mk (_pool w) (_elementsMap w) (_elementsArr w) (Some e)
                  (elements w) (objects w) (stepped w) in
      el ← get_element e w;
      w ← (if negb (paused el) then
             w ← modify_element e (set_lock true) w;
             w ← modify_element e (set_actionIndex 0) w;
             w ← update_actions fuel dt e w;
             modify_element e (set_lock false) w
           else Ok w);
      el ← get_element e w;
      if (List.length (actions el) =? 0)%nat then
        '(w, _) ← _deleteHashElement e w;
        Ok (w, i - 1 + 1)
      else Ok (w, i + 1)
  end.

Fixpoint update_elements (fuel : nat) (dt : Q) (i : Z) (w : t A)
  : result (t A) :=
  match fuel with
  | O => OutOfFuel
  | S fuel =>
      if i <? Z.of_nat (List.length (_elementsArr w)) then
        '(w, i) ← update_element fuel dt i w;
        update_elements fuel dt i w
      else Ok w
  end.

(** [update(dt)] *)
Definition update (fuel : nat) (dt : Q) (w : t A) : result (t A) :=
  update_elements fuel dt 0 w.
End methods.

End ActionManager.

(** An action for examples.  [step] counts [remaining] down and the action
    is done when it is 0; with [removes_itself] its step calls
    [removeAction] on the action itself, as the function of a [CallFunc]
    can. *)
Module Plain.
Record t : Type :=
  mk { originalTarget : option Node;
       target : option Node;
       tag : Z;
       remaining : nat;
       removes_itself : bool }.

Definition step (this : ActionManager.ref) (dt : Q) (a : t)
  : t * list ActionManager.Call :=
  (mk (originalTarget a) (target a) (tag a) (pred (remaining a))
      (removes_itself a),
   if removes_itself a then [ActionManager.CallRemoveAction this] else []).
Definition isDone (a : t) : bool := (remaining a =? 0)%nat.
Definition stop (a : t) : t :=
  mk (originalTarget a) None (tag a) (remaining a) (removes_itself a).
Definition startWithTarget (tg : Node) (a : t) : t :=
  mk (Some tg) (Some tg) (tag a) (remaining a) (removes_itself a).
Definition speed (_ : t) : Q := 1.

Definition methods : ActionManager.Methods t :=
  ActionManager.Build_Methods t step isDone stop startWithTarget speed
    originalTarget tag.

(** a fresh action that is done after [n] steps *)
Definition new (n : nat) (self_removing : bool) : t :=
  mk None None (-1) n self_removing.

(** two records: target 7 with the actions 0, 1 (which removes itself
    when stepped) and 2, target 8 with the action 3 *)
Definition example : ActionManager.t t :=
  ActionManager.mk [] {[ 7 := 0%nat; 8 := 1%nat ]} [0%nat; 1%nat] None
    {[ 0%nat := ActionManager.mkHashElement [0%nat; 1%nat; 2%nat] (Some 7)
                  0 None false false;
       1%nat := ActionManager.mkHashElement [3%nat] (Some 8)
                  0 None false false ]}
    {[ 0%nat := mk (Some 7) (Some 7) (-1) 2 false;
       1%nat := mk (Some 7) (Some 7) (-1) 0 true;
       2%nat := mk (Some 7) (Some 7) (-1) 1 false;
       3%nat := mk (Some 8) (Some 8) (-1) 5 false ]}
    [].
End Plain.

(** The words of the specification about the records of the manager. *)
Module Records.
Import ActionManager.

Section records.
Context {A : Type} (M : Methods A).

(** the record at [e] is the record of its target, it is not locked,
    and its actions are action objects bound to that target *)
Definition record_ok (w : t A) (e : ref) : Prop :=
  exists el tg,
    elements w !! e = Some el
    /\ target el = Some tg
    /\ lock el = false
    /\ _elementsMap w !! tg = Some e
    /\ Forall (fun r => exists a, objects w !! r = Some a
                                  /\ act_originalTarget M a = Some tg)
              (actions el).

(** the action object at [r] is bound to the target [tg] *)
Definition bound (w : t A) (tg : Node) (r : ref) : Prop :=
  exists a, objects w !! r = Some a /\ act_originalTarget M a = Some tg.

(** what the loop over the actions of the record at [e] relies on *)
Record record_inv (w : t A) (e : ref) (tg : Node) (el : HashElement)
  : Prop :=
  { inv_el : elements w !! e = Some el;
    inv_tg : target el = Some tg;
    inv_map : _elementsMap w !! tg = Some e;
    inv_nodup : NoDup (actions el);
    inv_bound : forall r, r ∈ actions el -> bound w tg r }.

(** the world [w2] and the element [el2] once the action at [r], at
    index [k] of the list of [el], has been stepped with [x] and perhaps
    removed from the list *)
Definition after_step (w w2 : t A) (e : ref) (tg : Node)
    (el el2 : HashElement) (r : ref) (k : nat) (x : Q) : Prop :=
  stepped w2 = stepped w ++ [(r, x)]
  /\ elements w2 = <[e := el2]> (elements w)
  /\ (exists a2, objects w2 = <[r := a2]> (objects w)
                 /\ act_originalTarget M a2 = Some tg)
  /\ _elementsMap w2 = _elementsMap w
  /\ _elementsArr w2 = _elementsArr w
  /\ target el2 = target el
  /\ paused el2 = paused el
  /\ lock el2 = lock el
  /\ ((actions el2 = actions el /\ actionIndex el2 = Z.of_nat k)
      \/ (actions el2 = delete k (actions el)
          /\ actionIndex el2 = Z.of_nat k - 1)).

(** the actions of the records [es], record after record *)
Definition actions_of (w : t A) (es : list ref) : list ref :=
  mjoin ((fun e => match elements w !! e with
                   | Some el => actions el
                   | None => []
                   end) <$> es).

(** the actions of the records [es] that are not paused *)
Definition running_of (w : t A) (es : list ref) : list ref :=
  mjoin ((fun e => match elements w !! e with
                   | Some el => if paused el then [] else actions el
                   | None => []
                   end) <$> es).

(** A manager between two operations: every record is listed once, is
    the record of its target, and no action object is in two lists or
    twice in one. *)
Definition well_formed (w : t A) : Prop :=
  NoDup (_elementsArr w)
  /\ Forall (record_ok w) (_elementsArr w)
  /\ NoDup (actions_of w (_elementsArr w)).
End records.

(** "a record exists for a target iff that target has at least one
    action still in its list": the record of [tg], if there is one, has
    a list that is not empty *)
Definition no_empty_record {A : Type} (w : t A) (tg : Node) : Prop :=
  forall e el, _elementsMap w !! tg = Some e ->
               elements w !! e = Some el -> actions el <> [].
End Records.

(** ** Notions used to state the order of a heap *)

Module HeapOrder.

(** [k] is the index of a child of the element at index [i] *)
Definition child (i k : nat) : Prop :=
  k = (2 * i + 1)%nat \/ k = (2 * i + 2)%nat.

Section order.
Context {T : Type} (lt : T -> T -> bool).

(** among the first [n] elements of [l] no element is less than its
    parent *)
Definition heap_upto (n : nat) (l : list T) : Prop :=
  forall i k x y, child i k -> (k < n)%nat ->
                  l !! i = Some x -> l !! k = Some y -> lt y x = false.

Definition heap_ordered (l : list T) : Prop := heap_upto (List.length l) l.

(** what the heap asks of a comparator: it is asymmetric, and "not less
    than" is transitive *)
Definition strict_weak : Prop :=
  (forall x y, lt x y = true -> lt y x = false)
  /\ (forall x y z, lt y x = false -> lt z y = false -> lt z x = false).

(** the elements are sorted: none is less than an earlier one *)
Fixpoint sorted (l : list T) : Prop :=
  match l with
  | [] => True
  | x :: l => Forall (fun y => lt y x = false) l /\ sorted l
  end.
End order.

(** the [Array] container [a] holds the elements [l], without holes, and
    its [less] is [lt] on them *)
Definition holds {T : Type} (js_lt : option T -> option T -> bool)
    (lt : T -> T -> bool) (a : Array.t T) (l : list T) : Prop :=
  JsArray.items (Array.elems a) = Some <$> l
  /\ forall x y,
       match Array.lessFn a with
       | Some f => f (Some x) (Some y)
       | None => Ok (js_lt (Some x) (Some y))
       end = Ok (lt x y).

(** the order of the timers in [$timers] *)
Definition timer_lt (t1 t2 : Timer.t) : bool :=
  Qltb (Timer.next t1) (Timer.next t2).

(** the container of [$timers] holds the timers [l] *)
Definition holds_timers (m : Map.t Timer.t) (l : list Timer.t) : Prop :=
  JsArray.items (Map.elems m) = Some <$> l
  /\ Map.lessFn m = Some Director.lessFn.

(** the built-in [<] on numbers; a comparison with [undefined] is false *)
Definition number_lt (a b : option Z) : bool :=
  match a, b with
  | Some x, Some y => x <? y
  | _, _ => false
  end.

(** [heap.array([1, 3, 2])] and [heap.array([5, 4, 3, 2, 1])]: heaps of
    numbers without a [lessFn] *)
Definition numbers_132 : Array.t Z := Array.new (Some [1; 3; 2]) None.
Definition numbers_54321 : Array.t Z := Array.new (Some [5; 4; 3; 2; 1]) None.

(** three one-shot timers, due at 2, 5 and 3, as three calls of
    [setTimeout] at time 0 leave them *)
Definition timeout (h : Handler.t) (k : Z) (due : Q) : Timer.t :=
  Timer.mk h 0 due true k 0 (0 + due).

Definition three_timeouts : Director.t :=
  Director.mk
    (Map.mk (JsArray.mk [Some (timeout 0%nat 1 2); Some (timeout 1%nat 2 5);
                         Some (timeout 2%nat 3 3)] ∅)
            (Some Director.lessFn)
            {[ 1 := 0; 2 := 1; 3 := 2 ]})
    3 [].

End HeapOrder.

(** ** Reader.ts *)

From Stdlib Require Strings.Byte.

(** [DataView] on an [ArrayBuffer], as far as the reader uses it.  A
    method that throws a [RangeError] gives [None]. *)
Module DataView.

Record t : Type :=
  mk { buffer : list Byte.byte; byteOffset : Z; byteLength : Z }.

(** [new DataView(buffer)] *)
Definition of_buffer (b : list Byte.byte) : t :=
  mk b 0 (Z.of_nat (List.length b)).

(** [new DataView(buffer, byteOffset)] *)
Definition of_buffer_from (b : list Byte.byte) (off : Z) : option t :=
  if (off <? 0) || (Z.of_nat (List.length b) <? off) then None
  else Some (mk b off (Z.of_nat (List.length b) - off)).

(** the [n] bytes at the offset [off] of the view *)
Definition bytes_at (v : t) (off : Z) (n : nat) : option (list Byte.byte) :=
  if (off <? 0) || (byteLength v <? off + Z.of_nat n) then None
  else Some (take n (drop (Z.to_nat (byteOffset v + off)) (buffer v))).

(** the number the bytes stand for, least significant byte first *)
Fixpoint le_value (bs : list Byte.byte) : Z :=
  match bs with
  | [] => 0
  | b :: bs => Z.of_N (Byte.to_N b) + 256 * le_value bs
  end.

Definition unsigned (little : bool) (bs : list Byte.byte) : Z :=
  le_value (if little then bs else rev bs).

(** two's complement on [w] bits *)
Definition signed (w v : Z) : Z := if v <? 2 ^ (w - 1) then v else v - 2 ^ w.

(** [getUint8], [getUint16], [getUint32] ([n] is 1, 2, 4) *)
Definition getUint (n : nat) (v : t) (off : Z) (little : bool) : option Z :=
  unsigned little <$> bytes_at v off n.

(** [getInt8], [getInt16], [getInt32], [getBigInt64] ([n] is 1, 2, 4, 8) *)
Definition getInt (n : nat) (v : t) (off : Z) (little : bool) : option Z :=
  signed (8 * Z.of_nat n) <$> getUint n v off little.

End DataView.

(** [class Reader] *)
Module Reader.

Record t : Type :=
  mk { _view : DataView.t; _littleEndian : bool; _offset : Z }.

(** [new Reader(view, littleEndian?, offset?)] *)
Definition new (view : DataView.t) (littleEndian : option bool)
    (offset : option Z) : t :=
  mk view (default false littleEndian) (default 0 offset).

(** How a call ends: with a result, or with the [RangeError] of the
    [DataView].  [r] is the reader after the call; [p] is what the call
    leaves behind when it throws (the array [dst] handed in, for the
    methods that fill one). *)
Inductive completion (A P : Type) : Type :=
| Normal (a : A) (r : t)
| RangeError (p : P) (r : t).
Arguments Normal {A P} a r.
Arguments RangeError {A P} p r.

Definition view (r : t) : option DataView.t :=
  DataView.of_buffer_from (DataView.buffer (_view r)) (_offset r).

Definition getInt8 (r : t) : option Z :=
  DataView.getInt 1 (_view r) (_offset r) false.
Definition getInt16 (r : t) : option Z :=
  DataView.getInt 2 (_view r) (_offset r) (_littleEndian r).
Definition getInt32 (r : t) : option Z :=
  DataView.getInt 4 (_view r) (_offset r) (_littleEndian r).
Definition getInt64 (r : t) : option Z :=
  DataView.getInt 8 (_view r) (_offset r) (_littleEndian r).
Definition getUint8 (r : t) : option Z :=
  DataView.getUint 1 (_view r) (_offset r) false.
Definition getUint16 (r : t) : option Z :=
  DataView.getUint 2 (_view r) (_offset r) (_littleEndian r).
Definition getUint32 (r : t) : option Z :=
  DataView.getUint 4 (_view r) (_offset r) (_littleEndian r).
(** [getUint64] calls [getBigInt64] *)
Definition getUint64 (r : t) : option Z :=
  DataView.getInt 8 (_view r) (_offset r) (_littleEndian r).

(** [this.$offset += k] *)
Definition advance (k : Z) (r : t) : t :=
  mk (_view r) (_littleEndian r) (_offset r + k).

(** [let x = this.getX(); this.$offset += k; return x] *)
Definition reading (get : t -> option Z) (k : Z) (r : t)
  : completion Z unit :=
  match get r with
  | Some x => Normal x (advance k r)
  | None => RangeError tt r
  end.

Definition readInt8 : t -> completion Z unit := reading getInt8 1.
Definition readInt16 : t -> completion Z unit := reading getInt16 2.
Definition readInt32 : t -> completion Z unit := reading getInt32 4.
Definition readInt64 : t -> completion Z unit := reading getInt64 8.
Definition readUint8 : t -> completion Z unit := reading getUint8 1.
Definition readUint16 : t -> completion Z unit := reading getUint16 2.
Definition readUint32 : t -> completion Z unit := reading getUint32 4.
(** [readUint64] calls [getInt64] *)
Definition readUint64 : t -> completion Z unit := reading getInt64 8.

(** the result of a [case] of the [switch] *)
Definition defined (c : completion Z unit) : completion (option Z) unit :=
  match c with
  | Normal x r => Normal (Some x) r
  | RangeError p r => RangeError p r
  end.

(** [readInt(bits)]: without a [case] for [bits] the result is
    [undefined] *)
Definition readInt (bits : Z) (r : t) : completion (option Z) unit :=
  if bits =? 8 then defined (readInt8 r)
  else if bits =? 16 then defined (readInt16 r)
  else if bits =? 32 then defined (readInt32 r)
  else if bits =? 64 then defined (readInt64 r)
  else Normal None r.

Definition readUint (bits : Z) (r : t) : completion (option Z) unit :=
  if bits =? 8 then defined (readUint8 r)
  else if bits =? 16 then defined (readUint16 r)
  else if bits =? 32 then defined (readUint32 r)
  else if bits =? 64 then defined (readUint64 r)
  else Normal None r.

(** the loop of [readFixedInts] and of [readFixedObjects], with [k]
    rounds to go: each round reads one value and pushes it on [dst] *)
Fixpoint filling {V : Type} (one : t -> completion V unit) (k : nat)
    (dst : list V) (r : t) : completion (list V) (list V) :=
  match k with
  | O => Normal dst r
  | S k =>
      match one r with
      | Normal x r => filling one k (dst ++ [x]) r
      | RangeError _ r => RangeError dst r
      end
  end.

(** what a round of the loop of [readFixedInts] reads:
    [unsigned ? this.readUint(bits) : this.readInt(bits)] *)
Definition one (unsigned : bool) (bits : Z)
  : t -> completion (option Z) unit :=
  if unsigned then readUint bits else readInt bits.

(** [readFixedInts(n, bits, unsigned?, dst?)] *)
Definition readFixedInts (n bits : Z) (unsigned : option bool)
    (dst : option (list (option Z))) (r : t)
  : completion (list (option Z)) (list (option Z)) :=
  filling (one (default false unsigned) bits) (Z.to_nat n)
          (default [] dst) r.

(** [readInts(bits, unsigned?, dst?)]: the count is read first *)
Definition readInts (bits : Z) (unsigned : option bool)
    (dst : option (list (option Z))) (r : t)
  : completion (list (option Z)) (list (option Z)) :=
  match readInt32 r with
  | Normal n r => readFixedInts n bits unsigned dst r
  | RangeError _ r => RangeError (default [] dst) r
  end.

Section objects.
(** [interface Unmarshaler]: [let t = new ctor(); t.unmarshal(this)],
    giving the object read *)
Context {T : Type} (unmarshal : t -> completion T unit).

(** [readFixedObjects(n, ctor, dst?)] *)
Definition readFixedObjects (n : Z) (dst : option (list T)) (r : t)
  : completion (list T) (list T) :=
  filling unmarshal (Z.to_nat n) (default [] dst) r.

(** [readObjects(ctor, dst?)] *)
Definition readObjects (dst : option (list T)) (r : t)
  : completion (list T) (list T) :=
  match readInt32 r with
  | Normal n r => readFixedObjects n dst r
  | RangeError _ r => RangeError (default [] dst) r
  end.
End objects.

(** the width in bytes of the values [readInt(bits)] and
    [readUint(bits)] read *)
Definition width (bits : Z) : Z :=
  if (bits =? 8) || (bits =? 16) || (bits =? 32) || (bits =? 64)
  then bits / 8 else 0.

(** what [readInt(bits)] or [readUint(bits)] would give at the place of
    [r], the reader left alone *)
Definition peek (unsigned : bool) (bits : Z) (r : t) : option Z :=
  if bits =? 8 then (if unsigned then getUint8 r else getInt8 r)
  else if bits =? 16 then (if unsigned then getUint16 r else getInt16 r)
  else if bits =? 32 then (if unsigned then getUint32 r else getInt32 r)
  else if bits =? 64 then (if unsigned then getUint64 r else getInt64 r)
  else None.

(** the values a call has put in the array, and whether it returned *)
Definition values {V : Type} (c : completion (list V) (list V))
  : list V * bool :=
  match c with
  | Normal d _ => (d, true)
  | RangeError d _ => (d, false)
  end.

(** two readers that stand before the same bytes *)
Definition same_ahead (r1 r2 : t) : Prop :=
  _littleEndian r1 = _littleEndian r2
  /\ forall off n, 0 <= off ->
       DataView.bytes_at (_view r1) (_offset r1 + off) n
       = DataView.bytes_at (_view r2) (_offset r2 + off) n.

(** a reader on a buffer of eight bytes [0xff] *)
Definition ones : t :=
  new (DataView.of_buffer (replicate 8 Byte.xff)) (Some true) None.

(** a reader on the bytes 1 .. 6, little-endian *)
Definition six : t :=
  new (DataView.of_buffer
         [Byte.x01; Byte.x02; Byte.x03; Byte.x04; Byte.x05; Byte.x06])
      (Some true) None.

End Reader.

(** ** util.ts: [mask] *)

Module Util.
Section mask.
(** A string is the list of its UTF-16 code units, of type [U]; [star]
    is the code unit of ["*"]. *)
Context {U : Type} (star : U).

(** [s.substr(start, length)] and [s.substr(start)], for a [start] that
    is not negative *)
Definition substr (start : Z) (len : option Z) (s : list U) : list U :=
  match len with
  | Some n => take (Z.to_nat n) (drop (Z.to_nat start) s)
  | None => drop (Z.to_nat start) s
  end.

(** ["*".repeat(n)] *)
Definition stars (n : Z) : list U := replicate (Z.to_nat n) star.

(** [mask(s)]; an argument that is not a string is [None] *)
Definition mask (s : option (list U)) : list U :=
  match s with
  | None => []
  | Some s =>
      let totalLength := Z.of_nat (List.length s) in
      if totalLength =? 0 then s
      else if 3 <? totalLength then
        let tailLength := totalLength / 3 in
        let headLength := tailLength in
        let maskLength := totalLength - headLength - tailLength in
        substr 0 (Some headLength) s ++ stars maskLength
          ++ substr (headLength + maskLength) None s
      else stars totalLength
  end.

(** the number of code units [mask] keeps at each end of a string of
    length [n] *)
Definition kept (n : nat) : nat := if (3 <? n)%nat then (n / 3)%nat else 0%nat.
End mask.
End Util.

(** ** Director.ts: the scenes *)

Module Scenes.
Section scenes.
Context {Scene : Type}.

(** [getRunningScene()]: [this.$scenes[this.$scenes.length - 1]] *)
Definition getRunningScene (scenes : list Scene) : option Scene :=
  last scenes.

(** [runScene(scene)] *)
Definition runScene (scene : Scene) (scenes : list Scene) : list Scene :=
  let n := List.length scenes in
  let scenes := if (0 <? n)%nat then removelast scenes else scenes in
  scenes ++ [scene].
End scenes.
End Scenes.

(** ** Action.ts: successive steps of an interval action *)

Module Cycles.
Section cycles.
Context {Easing : Type}.

(** [step(dt)] for each [dt] of [dts], in order *)
Fixpoint steps (fuel : nat) (dts : list Q) (a : ActionInterval.t Easing)
  : result (ActionInterval.t Easing) :=
  match dts with
  | [] => Ok a
  | dt :: dts => a ← ActionInterval.step fuel dt a; steps fuel dts a
  end.

(** the calls of [update] that [k] steps make when each spans a whole
    cycle and a further cycle follows: [update(1)], and [update(0)] after
    the restart *)
Definition cycle_updates (k : nat) : list Q :=
  mjoin (replicate k [1%Q; 0%Q]).

(** an action between two cycles, with [n] cycles to go *)
Definition between_cycles (a : ActionInterval.t Easing) (n : Z) : Prop :=
  (FLT_EPSILON <= ActionInterval._duration a)%Q
  /\ ActionInterval._forever a = false
  /\ ActionInterval._firstTick a = false
  /\ ActionInterval._elapsed a = 0%Q
  /\ (ActionInterval.times a == inject_Z n)%Q
  /\ 1 <= n.
End cycles.

(** an action of duration 2 with [times] set to 3, as its first step
    leaves it: the first tick and [update(0)] *)
Definition thrice : ActionInterval.t EaseIn.t :=
  ActionInterval.update 0
    (ActionInterval.tick 0
       (ActionInterval.startWithTarget (Some 1)
          (ActionInterval.set_times 3 (ActionInterval.new 2)))).
End Cycles.

(** ** Action.ts: what the leaf actions do to their target *)

(** [x % m] on numbers: the quotient is cut towards 0, so the remainder
    has the sign of [x] *)
Definition Qtrunc (x : Q) : Z :=
  if Qle_bool 0 x then Qfloor x else Qceiling x.
Definition Qrem (x m : Q) : Q := (x - m * inject_Z (Qtrunc (x / m)))%Q.

(** [THREE.Object3D]: the three vectors of a node that the actions read
    and set *)
Module Object3D.
Record t : Type :=
  mk { position : Vec3.t; rotation : Vec3.t; scale : Vec3.t }.
Definition set_position (v : Vec3.t) (o : t) : t :=
  mk v (rotation o) (scale o).
Definition set_rotation (v : Vec3.t) (o : t) : t :=
  mk (position o) v (scale o).
Definition set_scale (v : Vec3.t) (o : t) : t :=
  mk (position o) (rotation o) v.
End Object3D.

Module Motion.

(** the nodes of the scene, by their [id] *)
Abbreviation Nodes := (gmap Node Object3D.t).

(** componentwise sum, product with a number, and equality of the
    numbers *)
Definition plus (v w : Vec3.t) : Vec3.t :=
  Vec3.mk (Vec3.x v + Vec3.x w) (Vec3.y v + Vec3.y w) (Vec3.z v + Vec3.z w).
Definition times (v : Vec3.t) (k : Q) : Vec3.t :=
  Vec3.mk (Vec3.x v * k) (Vec3.y v * k) (Vec3.z v * k).
Definition same (v w : Vec3.t) : Prop :=
  (Vec3.x v == Vec3.x w /\ Vec3.y v == Vec3.y w /\ Vec3.z v == Vec3.z w)%Q.

(** [bezierAt(a, b, c, d, t)] *)
Definition bezierAt (a b c d t : Q) : Q :=
  ((1 - t) ^ 3 * a + 3 * t * (1 - t) ^ 2 * b + 3 * t ^ 2 * (1 - t) * c
   + t ^ 3 * d)%Q.

(** the point of the curve with the control points [0, c0, c1, c2] at
    [t], as [BezierBy.update] computes it *)
Definition bezier_point (c0 c1 c2 : Vec3.t) (t : Q) : Vec3.t :=
  Vec3.mk (bezierAt 0 (Vec3.x c0) (Vec3.x c1) (Vec3.x c2) t)
          (bezierAt 0 (Vec3.y c0) (Vec3.y c1) (Vec3.y c2) t)
          (bezierAt 0 (Vec3.z c0) (Vec3.z c1) (Vec3.z c2) t).

(** The stackable update of [MoveBy] and [BezierBy]
    ([ENABLE_STACKABLE_ACTIONS] is the constant [true]): [step] is the
    offset from the start computed for this call, [pos] the position
    of the target.  The result holds the new [$start], the new [$prev]
    and the position the target is given. *)
Definition stacked (step start prev pos : Vec3.t)
  : Vec3.t * Vec3.t * Vec3.t :=
  let start :=
    Vec3.mk (Vec3.x start + (Vec3.x pos - Vec3.x prev))
            (Vec3.y start + (Vec3.y pos - Vec3.y prev))
            (Vec3.z start + (Vec3.z pos - Vec3.z prev)) in
  let p := Vec3.mk (Vec3.x step + Vec3.x start) (Vec3.y step + Vec3.y start)
                   (Vec3.z step + Vec3.z start) in
  (start, p, p).

Section methods.
Context {Easing : Type} (easing : Easing -> Q -> Q).

(** [startWithTarget(target)] of the leaf classes, for the node [tg] *)
Definition startWithTarget (tg : Node) (nodes : Nodes) (a : Leaf.t Easing)
  : result (Leaf.t Easing) :=
  match nodes !! tg with
  | None => Throw NoSuchObject
  | Some o =>
      let b := ActionInterval.startWithTarget (Some tg) (Leaf.base a) in
      let p := Object3D.position o in
      let r := Object3D.rotation o in
      match Leaf.own a with
      | Leaf.RotateTo dst _ _ =>
          let diff := Vec3.mk (Vec3.x dst - Qrem (Vec3.x r) 360)
                              (Vec3.y dst - Qrem (Vec3.y r) 360)
                              (Vec3.z dst - Qrem (Vec3.z r) 360) in
          Ok (Leaf.mk b (Leaf.RotateTo dst (Some diff) (Some diff)))
      | Leaf.RotateBy angle _ => Ok (Leaf.mk b (Leaf.RotateBy angle (Some r)))
      | Leaf.MoveBy delta _ _ => Ok (Leaf.mk b (Leaf.MoveBy delta p p))
      | Leaf.MoveTo _ _ _ dst =>
          Ok (Leaf.mk b (Leaf.MoveTo (Vec3.sub dst p) p p dst))
      | Leaf.BezierBy config _ _ => Ok (Leaf.mk b (Leaf.BezierBy config p p))
      | Leaf.BezierTo _ _ _ toConfig =>
          match toConfig with
          | Some (q0 :: q1 :: q2 :: _) =>
              Ok (Leaf.mk b
                    (Leaf.BezierTo
                       (Some [Vec3.sub q0 p; Vec3.sub q1 p; Vec3.sub q2 p])
                       p p toConfig))
          | _ => Throw TypeError
          end
      | Leaf.ScaleTo f =>
          let s := Object3D.scale o in
          Ok (Leaf.mk b
                (Leaf.ScaleTo
                   (Leaf.mkScale (Leaf._scale f) s (Leaf._endScale f)
                                 (Vec3.sub (Leaf._endScale f) s))))
      end
  end.

(** [update(dt)] of the leaf classes: nothing happens without a target;
    a field read before it was assigned throws *)
Definition update (x : Q) (nodes : Nodes) (a : Leaf.t Easing)
  : result (Leaf.t Easing * Nodes) :=
  let dt := ActionInterval._computeEaseTime easing (Leaf.base a) x in
  match ActionInterval.target (Leaf.base a) with
  | None => Ok (a, nodes)
  | Some tg =>
      match nodes !! tg with
      | None => Throw NoSuchObject
      | Some o =>
          match Leaf.own a with
          | Leaf.RotateTo _ (Some start) (Some delta) =>
              Ok (a, <[tg := Object3D.set_rotation
                                (plus start (times delta dt)) o]> nodes)
          | Leaf.RotateTo _ _ _ => Throw TypeError
          | Leaf.RotateBy angle (Some start) =>
              Ok (a, <[tg := Object3D.set_rotation
                                (plus start (times angle dt)) o]> nodes)
          | Leaf.RotateBy _ None => Throw TypeError
          | Leaf.MoveBy delta start prev =>
              let '(start, prev, p) :=
                stacked (times delta dt) start prev (Object3D.position o) in
              Ok (Leaf.mk (Leaf.base a) (Leaf.MoveBy delta start prev),
                  <[tg := Object3D.set_position p o]> nodes)
          | Leaf.MoveTo delta start prev dst =>
              let '(start, prev, p) :=
                stacked (times delta dt) start prev (Object3D.position o) in
              Ok (Leaf.mk (Leaf.base a) (Leaf.MoveTo delta start prev dst),
                  <[tg := Object3D.set_position p o]> nodes)
          | Leaf.BezierBy (Some (c0 :: c1 :: c2 :: rest)) start prev =>
              let '(start, prev, p) :=
                stacked (bezier_point c0 c1 c2 dt) start prev
                        (Object3D.position o) in
              Ok (Leaf.mk (Leaf.base a)
                    (Leaf.BezierBy (Some (c0 :: c1 :: c2 :: rest)) start prev),
                  <[tg := Object3D.set_position p o]> nodes)
          | Leaf.BezierBy _ _ _ => Throw TypeError
          | Leaf.BezierTo (Some (c0 :: c1 :: c2 :: rest)) start prev cfg =>
              let '(start, prev, p) :=
                stacked (bezier_point c0 c1 c2 dt) start prev
                        (Object3D.position o) in
              Ok (Leaf.mk (Leaf.base a)
                    (Leaf.BezierTo (Some (c0 :: c1 :: c2 :: rest)) start prev
                                   cfg),
                  <[tg := Object3D.set_position p o]> nodes)
          | Leaf.BezierTo _ _ _ _ => Throw TypeError
          | Leaf.ScaleTo f =>
              Ok (a, <[tg := Object3D.set_scale
                                (plus (Leaf._startScale f)
                                      (times (Leaf._d f) dt)) o]> nodes)
          end
      end
  end.

(** the node [tg] moved by [v] from outside, by another action or by
    the program *)
Definition moved (v : Vec3.t) (tg : Node) (nodes : Nodes) : Nodes :=
  match nodes !! tg with
  | Some o =>
      <[tg := Object3D.set_position (plus (Object3D.position o) v) o]> nodes
  | None => nodes
  end.

(** calls of [update], the target being moved from outside by [v]
    before the call with [x], for each [(v, x)] of the list *)
Fixpoint updates (tg : Node) (l : list (Vec3.t * Q)) (nodes : Nodes)
    (a : Leaf.t Easing) : result (Leaf.t Easing * Nodes) :=
  match l with
  | [] => Ok (a, nodes)
  | (v, x) :: l =>
      '(a, nodes) ← update x (moved v tg nodes) a;
      updates tg l nodes a
  end.

(** the sum of the vectors *)
Definition total (vs : list Vec3.t) : Vec3.t :=
  fold_left plus vs Vec3.zero.

(** the fields [$delta], [$start] and [$prev] of a [MoveBy] or a
    [MoveTo] *)
Definition mover (a : Leaf.t Easing)
  : option (Vec3.t * Vec3.t * Vec3.t) :=
  match Leaf.own a with
  | Leaf.MoveBy delta start prev => Some (delta, start, prev)
  | Leaf.MoveTo delta start prev _ => Some (delta, start, prev)
  | _ => None
  end.

(** the time [update] works with *)
Definition eased (a : Leaf.t Easing) (x : Q) : Q :=
  ActionInterval._computeEaseTime easing (Leaf.base a) x.
End methods.

(** a scene with the node 1 at the position (1, 2, 3), not turned and
    not scaled *)
Definition one_node : Nodes :=
  {[ 1 := Object3D.mk (Vec3.mk 1 2 3) Vec3.zero (Vec3.mk 1 1 1) ]}.

End Motion.

(** ** Action.ts: the other methods of [ActionManager] *)

Module Targets.
Import ActionManager.

Section methods.
Context {A : Type} (M : Methods A).

Definition set_paused (b : bool) (el : HashElement) : HashElement :=
  mkHashElement (actions el) (target el) (actionIndex el)
                (currentAction el) b (lock el).

(** [pauseTarget(target)] *)
Definition pauseTarget (tg : Node) (w : t A) : result (t A) :=
  match _elementsMap w !! tg with
  | Some e => modify_element e (set_paused true) w
  | None => Ok w
  end.

(** [resumeTarget(target)] *)
Definition resumeTarget (tg : Node) (w : t A) : result (t A) :=
  match _elementsMap w !! tg with
  | Some e => modify_element e (set_paused false) w
  | None => Ok w
  end.

(** the loop of [pauseAllRunningActions] over the records [es], [ids]
    being [idsWithActions] *)
Fixpoint pausing (es : list ref) (ids : list (option Node)) (w : t A)
  : result (t A * list (option Node)) :=
  match es with
  | [] => Ok (w, ids)
  | e :: es =>
      el ← get_element e w;
      if negb (paused el) then
        pausing es (ids ++ [target el])
                (set_element e (set_paused true el) w)
      else pausing es ids w
  end.

(** [pauseAllRunningActions()] *)
Definition pauseAllRunningActions (w : t A)
  : result (t A * list (option Node)) :=
  pausing (_elementsArr w) [] w.

(** the loop of [resumeTargets]; an entry that is [null] is passed
    over *)
Fixpoint resuming (ts : list (option Node)) (w : t A) : result (t A) :=
  match ts with
  | [] => Ok w
  | Some tg :: ts => w ← resumeTarget tg w; resuming ts w
  | None :: ts => resuming ts w
  end.

(** [resumeTargets(targetsToResume)] *)
Definition resumeTargets (ts : option (list (option Node))) (w : t A)
  : result (t A) :=
  match ts with
  | None => Ok w
  | Some ts => resuming ts w
  end.

(** the loop of [getActionByTag] *)
Fixpoint first_tagged (tag : Z) (l : list ref) (w : t A)
  : result (option ref) :=
  match l with
  | [] => Ok None
  | r :: l =>
      a ← get_object r w;
      if act_tag M a =? tag then Ok (Some r) else first_tagged tag l w
  end.

(** [getActionByTag(tag, target)] *)
Definition getActionByTag (tag : Z) (tg : Node) (w : t A)
  : result (option ref) :=
  match _elementsMap w !! tg with
  | Some e => el ← get_element e w; first_tagged tag (actions el) w
  | None => Ok None
  end.

(** The loop of [removeAllActions], from the index [i] on.  The array it
    walks is [$elementsArr] itself, which [removeAllActionsFromTarget]
    shortens. *)
Fixpoint removing (fuel : nat) (i : Z) (w : t A) : result (t A) :=
  match fuel with
  | O => OutOfFuel
  | S fuel =>
      if i <? Z.of_nat (List.length (_elementsArr w)) then
        match at_index i (_elementsArr w) with
        | Some e =>
            el ← get_element e w;
            w ← removeAllActionsFromTarget (target el) w;
            removing fuel (i + 1) w
        | None => removing fuel (i + 1) w
        end
      else Ok w
  end.

(** [removeAllActions()]; the loop makes at most as many rounds as
    there are records *)
Definition removeAllActions (w : t A) : result (t A) :=
  removing (S (List.length (_elementsArr w))) 0 w.
End methods.

(** every record of [$elementsArr] is listed once, is the record of its
    target in [$elementsMap], and is not locked *)
Definition linked {A : Type} (w : t A) : Prop :=
  NoDup (_elementsArr w)
  /\ Forall (fun e => exists el tg,
               elements w !! e = Some el /\ target el = Some tg
               /\ lock el = false /\ _elementsMap w !! tg = Some e)
            (_elementsArr w).

(** every entry of [$elementsMap] is a record with that target, and the
    records of [$pool] are as [$putElement] leaves them *)
Definition stored {A : Type} (w : t A) : Prop :=
  (forall tg e, _elementsMap w !! tg = Some e ->
                exists el, elements w !! e = Some el /\ target el = Some tg)
  /\ (forall e, e ∈ _pool w ->
                exists el, elements w !! e = Some el
                           /\ actions el = [] /\ target el = None).

(** the manager [w] with the records [m] *)
Definition with_elements {A : Type} (m : gmap ref HashElement) (w : t A)
  : t A :=
  mk (_pool w) (_elementsMap w) (_elementsArr w) (_current w) m
     (objects w) (stepped w).

(** the targets of the records of [es] that are not paused, in the order
    of [es] *)
Definition running_targets (m : gmap ref HashElement) (es : list ref)
  : list (option Node) :=
  mjoin ((fun e => match m !! e with
                   | Some el => if paused el then [] else [target el]
                   | None => []
                   end) <$> es).

(** [e] is the record of one of the targets [ts] *)
Definition record_of_one {A : Type} (w : t A) (ts : list (option Node))
    (e : ref) : bool :=
  existsb (fun t => match t with
                    | Some tg => bool_decide (_elementsMap w !! tg = Some e)
                    | None => false
                    end) ts.

(** the entries of [l] at the indices 1, 3, 5, ... *)
Fixpoint odds {X : Type} (l : list X) : list X :=
  match l with
  | _ :: y :: l => y :: odds l
  | _ => []
  end.

(** three records, of the targets 7, 8 and 9, the second one paused, and
    an action object, 4, that is in no list *)
Definition three_records : t Plain.t :=
  mk [] {[ 7 := 0%nat; 8 := 1%nat; 9 := 2%nat ]} [0%nat; 1%nat; 2%nat] None
     {[ 0%nat := mkHashElement [0%nat] (Some 7) 0 None false false;
        1%nat := mkHashElement [1%nat] (Some 8) 0 None true false;
        2%nat := mkHashElement [2%nat; 3%nat] (Some 9) 0 None false false ]}
     {[ 0%nat := Plain.mk (Some 7) (Some 7) 5 2 false;
        1%nat := Plain.mk (Some 8) (Some 8) (-1) 2 false;
        2%nat := Plain.mk (Some 9) (Some 9) (-1) 2 false;
        3%nat := Plain.mk (Some 9) (Some 9) 5 2 false;
        4%nat := Plain.new 2 false ]}
     [].
End Targets.

(** * Theorems *)

(** ** Properties of the heap *)

Section up_down_return.
Context {T C : Type} (K : Container T C).
(** the container's own methods have no loops *)
Hypothesis less_returns : forall i j c, less K i j c <> OutOfFuel.
Hypothesis swap_returns : forall i j c, swap K i j c <> OutOfFuel.

(** Rounds [_up] needs from [j]: a negative [j] is first swapped with the
    root, then the loop stops at the root. *)
Definition up_rounds (j : Z) : nat :=
  if j <? 0 then 2%nat else S (Z.to_nat j).

Lemma up_rounds_le_fuel j : (up_rounds j <= Heap._up_fuel j)%nat.
Proof. unfold up_rounds, Heap._up_fuel. destruct (j <? 0); lia. Qed.

Lemma _up_loop_returns fuel j c :
  (up_rounds j <= fuel)%nat -> Heap._up_loop K fuel j c <> OutOfFuel.
Proof using less_returns swap_returns.
  revert j c. induction fuel as [|fuel IH]; intros j c Hf.
  - unfold up_rounds in Hf. destruct (j <? 0); lia.
  - cbn [Heap._up_loop].
    set (i := if 0 <=? j - 1 then Z.shiftr (j - 1) 1 else 0).
    destruct (i =? j) eqn:Eij; [discriminate|].
    destruct (less K j i c) as [b| |] eqn:El; cbn; try discriminate;
      [|by apply less_returns in El].
    destruct b; cbn; [|discriminate].
    destruct (swap K i j c) as [c'| |] eqn:Es; cbn; try discriminate;
      [|by apply swap_returns in Es].
    apply IH.
    apply Z.eqb_neq in Eij. subst i. unfold up_rounds in *.
    destruct (0 <=? j - 1) eqn:E0.
    + apply Z.leb_le in E0.
      assert (Hs : 0 <= Z.shiftr (j - 1) 1 <= j - 1).
      { rewrite Z.shiftr_div_pow2 by lia. change (2 ^ 1) with 2.
        split; [apply Z.div_pos; lia | apply Z.div_le_upper_bound; lia]. }
      destruct (j <? 0) eqn:Ej; [apply Z.ltb_lt in Ej; lia|].
      destruct (Z.shiftr (j - 1) 1 <? 0) eqn:Ei;
        [apply Z.ltb_lt in Ei; lia|].
      lia.
    + apply Z.leb_gt in E0. cbn.
      destruct (j <? 0) eqn:Ej; [lia|].
      apply Z.ltb_ge in Ej. assert (j = 0) by lia. subst j. cbn in Eij. lia.
Qed.

(** [_up] always returns or throws. *)
Lemma _up_returns j c : Heap._up K j c <> OutOfFuel.
Proof using less_returns swap_returns.
  apply _up_loop_returns, up_rounds_le_fuel.
Qed.

Lemma _down_loop_returns fuel i n c :
  (Z.to_nat (n - Z.max i 0) < fuel)%nat ->
  Heap._down_loop K fuel i n c <> OutOfFuel.
Proof using less_returns swap_returns.
  revert i c. induction fuel as [|fuel IH]; intros i c Hf; [lia|].
  cbn [Heap._down_loop].
  destruct ((n <=? 2 * i + 1) || (2 * i + 1 <? 0)) eqn:Eb; [discriminate|].
  apply orb_false_iff in Eb as [E1 E2].
  apply Z.leb_gt in E1. apply Z.ltb_ge in E2.
  destruct (2 * i + 1 + 1 <? n) eqn:E3.
  - destruct (less K (2 * i + 1 + 1) (2 * i + 1) c) as [b| |] eqn:El; cbn;
      try discriminate; [|by apply less_returns in El].
    destruct (less K (if b then 2 * i + 1 + 1 else 2 * i + 1) i c)
      as [b'| |] eqn:El'; cbn; try discriminate;
      [|by apply less_returns in El'].
    destruct b'; cbn; [|discriminate].
    destruct (swap K i (if b then 2 * i + 1 + 1 else 2 * i + 1) c)
      as [c'| |] eqn:Es; cbn; try discriminate;
      [|by apply swap_returns in Es].
    apply IH. apply Z.ltb_lt in E3. destruct b; lia.
  - cbn.
    destruct (less K (2 * i + 1) i c) as [b'| |] eqn:El'; cbn;
      try discriminate; [|by apply less_returns in El'].
    destruct b'; cbn; [|discriminate].
    destruct (swap K i (2 * i + 1) c) as [c'| |] eqn:Es; cbn;
      try discriminate; [|by apply swap_returns in Es].
    apply IH. lia.
Qed.

(** [_down] from a non-negative index always returns or throws. *)
Lemma _down_returns i0 n c : 0 <= i0 -> Heap._down K i0 n c <> OutOfFuel.
Proof using less_returns swap_returns.
  intros Hi. unfold Heap._down.
  pose proof (_down_loop_returns (Heap._down_fuel n) i0 n c) as H.
  destruct (Heap._down_loop K (Heap._down_fuel n) i0 n c) as [[c' i]| |];
    cbn; try discriminate.
  exfalso. apply H; [|reflexivity]. unfold Heap._down_fuel. lia.
Qed.
End up_down_return.

(** Evaluation that leaves the operations of finite maps folded. *)
Ltac js_eval :=
  cbv -[lookup insert delete empty singletonM from_option
        gmap_lookup gmap_partial_alter gmap_empty
        map_insert map_delete map_singleton].
Ltac js_eval_in H :=
  cbv -[lookup insert delete empty singletonM from_option
        gmap_lookup gmap_partial_alter gmap_empty
        map_insert map_delete map_singleton] in H.

(** C10.  [pop()] on an empty heap over the [Array] container does not
    throw: it returns [undefined] and the heap is empty afterwards.  The
    heap is empty when the array has no elements and no stray property
    [-1] (the slot [swap(0, -1)] reads); both still hold after the call. *)
Theorem C10_pop_on_empty_array_heap {T : Type}
    (js_lt : option T -> option T -> bool) (a : Array.t T) :
  Array.size a = 0 ->
  JsArray.get (-1) (Array.elems a) = None ->
  exists a', Heap.pop (Array.container js_lt) a = Ok (a', None)
             /\ Array.size a' = 0
             /\ JsArray.get (-1) (Array.elems a') = None.
Proof.
  destruct a as [[items props] f]. unfold Array.size, JsArray.length. cbn.
  intros Hs Hp. destruct items; [clear Hs|cbn in Hs; lia].
  unfold JsArray.get in Hp. cbn in Hp.
  exists (Array.mk (JsArray.mk [] (<[-1 := None]> props)) f).
  split; [|split].
  - js_eval. js_eval_in Hp. by rewrite Hp.
  - reflexivity.
  - unfold JsArray.get. cbn. by rewrite lookup_insert_eq.
Qed.

Lemma C10_pop_on_empty_array_heap_witness :
  exists a', Heap.pop (Array.container (fun _ _ => false))
                      (@Array.new Z None None) = Ok (a', None)
             /\ Array.size a' = 0
             /\ JsArray.get (-1) (Array.elems a') = None.
Proof.
  apply (C10_pop_on_empty_array_heap (fun _ _ => false) (@Array.new Z None None));
    reflexivity.
Defined.

(** [Map.swap] never writes [indices]: whatever the two slots are, every
    [indexof] answers after the swap what it answered before *)
Lemma swap_keeps_indices {T : Type} `{Identifiable T} (i j k : Z)
    (m m' : Map.t T) :
  Map.swap i j m = Ok m' ->
  Map.indices m' = Map.indices m /\ Map.indexof k m' = Map.indexof k m.
Proof.
  unfold Map.swap. intros Hs.
  destruct (Map.assign_id i _) as [e1| |]; try discriminate.
  cbn in Hs.
  destruct (Map.assign_id j e1) as [e2| |]; try discriminate.
  cbn in Hs. injection Hs as <-. split; reflexivity.
Qed.

(** C1 (fails on the code).  Two pushes into an empty [Map] heap ordered by
    [key]: [{id: 10, key: 5}], then [{id: 20, key: 3}].  The second push
    sifts up through [Map.swap], which stores the slot numbers into the
    [id] fields of the two elements and leaves [indices] as it was.
    Afterwards the element pushed with id 20 sits in slot 0 with id 0,
    [indexof(20)] is 1 and [indexof(0)] is -1. *)
Theorem C1_map_swap_leaves_indices_stale :
  exists m,
    (c ← Heap.push Item.K (Item.mk 10 5) (Map.new None (Some Item.lessFn));
     Heap.push Item.K (Item.mk 20 3) c) = Ok m
    /\ Map.get 0 m = Some (Item.mk 0 3)
    /\ Map.get 1 m = Some (Item.mk 1 5)
    /\ Map.indexof 20 m = 1
    /\ Map.indexof 10 m = 0
    /\ Map.indexof 0 m = -1.
Proof.
  eexists. split; [vm_compute; reflexivity|]. vm_compute. done.
Qed.

(** ** Properties of the timer pass *)

Lemma single_size strict tm : size (Director.K strict) (Pass.single tm) = 1.
Proof. reflexivity. Qed.

Lemma single_get strict tm :
  get (Director.K strict) 0 (Pass.single tm) = Some tm.
Proof. reflexivity. Qed.

Lemma single_pop tm :
  Heap.pop (Director.K false) (Pass.single tm)
  = Ok (Map.mk (JsArray.mk [] ∅) (Some Director.lessFn)
               (delete (Timer.id tm) {[ Timer.id tm := 0 ]}), Some tm).
Proof. reflexivity. Qed.

Lemma single_pop_strict tm :
  Heap.pop (Director.K true) (Pass.single tm) = Throw TypeError.
Proof. reflexivity. Qed.

Lemma push_empty strict tm ix :
  Heap.push (Director.K strict) tm
            (Map.mk (JsArray.mk [] ∅) (Some Director.lessFn) ix)
  = Ok (Map.mk (JsArray.mk [Some tm] ∅) (Some Director.lessFn)
               (<[ Timer.id tm := 0 ]> ix)).
Proof. reflexivity. Qed.

Lemma Qltb_true x y : Qltb x y = true <-> (x < y)%Q.
Proof.
  unfold Qltb. rewrite negb_true_iff. split.
  - intros H. apply Qnot_le_lt. intros Hle. apply Qle_bool_iff in Hle.
    congruence.
  - intros H. destruct (Qle_bool y x) eqn:E; [|done].
    apply Qle_bool_iff in E. exfalso. eapply Qlt_not_le; eauto.
Qed.

Lemma Qltb_false x y : Qltb x y = false <-> (y <= x)%Q.
Proof. unfold Qltb. rewrite negb_false_iff. apply Qle_bool_iff. Qed.

Lemma Qlt_dec' (x y : Q) : {(x < y)%Q} + {~ (x < y)%Q}.
Proof.
  destruct (Qlt_le_dec x y) as [H|H]; [by left|right].
  by apply Qle_not_lt.
Qed.

(** the root is not due: the loop is left *)
Lemma round_stop strict tm nid cs now :
  Qltb now (Timer.next tm) = true ->
  Director.scheduleTimers_round strict now
    (Director.mk (Pass.single tm) nid cs) = Ok None.
Proof.
  intros H. unfold Director.scheduleTimers_round.
  cbn [Director.timers]. rewrite single_size, single_get, H. reflexivity.
Qed.

(** the root is due and repeats: it fires and is pushed back *)
Lemma round_fire tm nid cs now :
  Timer.once tm = false ->
  Qltb now (Timer.next tm) = false ->
  Director.scheduleTimers_round false now
    (Director.mk (Pass.single tm) nid cs)
  = Ok (Some (Director.mk (Pass.single (Pass.fire tm)) nid
                          (cs ++ [Timer.handler tm]))).
Proof.
  intros Ho H. unfold Director.scheduleTimers_round.
  cbn [Director.timers Director.calls Director.nextId].
  rewrite single_size, single_get, H, single_pop. cbn [mbind result_bind].
  unfold Timer.call. rewrite Ho. cbn [negb].
  rewrite push_empty. cbn [mbind result_bind Timer.id].
  unfold Pass.single, Pass.fire, Timer.call, Handler.call.
  cbn [fst Timer.id app].
  rewrite insert_delete_eq, insert_singleton_eq, ?Ho. reflexivity.
Qed.

(** in strict code the pop of a due root throws before the handler runs *)
Lemma round_fire_strict tm nid cs now :
  Qltb now (Timer.next tm) = false ->
  Director.scheduleTimers_round true now
    (Director.mk (Pass.single tm) nid cs) = Throw TypeError.
Proof.
  intros H. unfold Director.scheduleTimers_round.
  cbn [Director.timers Director.calls Director.nextId].
  rewrite single_size, single_get, H, single_pop_strict. reflexivity.
Qed.

Lemma fired_succ k tm : Pass.fired (S k) tm = Pass.fire (Pass.fired k tm).
Proof.
  revert tm. induction k as [|k IH]; intros tm; [done|].
  change (Pass.fired (S (S k)) tm) with (Pass.fired (S k) (Pass.fire tm)).
  by rewrite IH.
Qed.

Lemma fired_times k tm :
  Timer.times (Pass.fired k tm) = Timer.times tm + Z.of_nat k.
Proof.
  induction k as [|k IH]; [cbn; lia|]. rewrite fired_succ. cbn.
  rewrite IH. lia.
Qed.

Lemma fired_begin k tm : Timer.begin (Pass.fired k tm) = Timer.begin tm.
Proof. induction k as [|k IH]; [done|]. rewrite fired_succ. cbn. by rewrite IH. Qed.

Lemma fired_interval k tm :
  Timer.interval (Pass.fired k tm) = Timer.interval tm.
Proof. induction k as [|k IH]; [done|]. rewrite fired_succ. cbn. by rewrite IH. Qed.

Lemma fired_next k tm :
  Timer.next (Pass.fired (S k) tm)
  = (Timer.begin tm
     + Timer.interval tm * inject_Z (Timer.times tm + Z.of_nat k + 1 + 1))%Q.
Proof.
  rewrite fired_succ. cbn.
  by rewrite fired_begin, fired_interval, fired_times.
Qed.

(** A pass over one repeating timer whose first [k] due times are not
    after [now] and whose next one is. *)
Lemma pass_single_fires k : forall tm nid cs now,
  Timer.once tm = false ->
  (forall j, (j < k)%nat -> (Timer.next (Pass.fired j tm) <= now)%Q) ->
  (now < Timer.next (Pass.fired k tm))%Q ->
  forall fuel, (k < fuel)%nat ->
  Director.scheduleTimers false fuel now (Director.mk (Pass.single tm) nid cs)
  = Ok (Director.mk (Pass.single (Pass.fired k tm)) nid
                    (cs ++ replicate k (Timer.handler tm))).
Proof.
  induction k as [|k IH]; intros tm nid cs now Ho Hdue Hstop fuel Hfuel.
  - destruct fuel as [|fuel]; [lia|]. cbn [Director.scheduleTimers].
    rewrite round_stop by (by apply Qltb_true). cbn. by rewrite app_nil_r.
  - destruct fuel as [|fuel]; [lia|]. cbn [Director.scheduleTimers].
    rewrite round_fire; [|done|apply Qltb_false, (Hdue 0%nat); lia].
    cbn [mbind result_bind]. rewrite IH.
    + cbn [Pass.fired replicate]. by rewrite <- app_assoc.
    + done.
    + intros j Hj. apply (Hdue (S j)). lia.
    + exact Hstop.
    + lia.
Qed.

Lemma least_index (P : nat -> Prop) (dec : forall n, {P n} + {~ P n}) U :
  P U -> exists k, P k /\ forall j, (j < k)%nat -> ~ P j.
Proof.
  revert P dec. induction U as [|U IH]; intros P dec HU.
  - exists 0%nat. split; [done|]. intros j Hj. lia.
  - destruct (dec 0%nat) as [H0|H0].
    + exists 0%nat. split; [done|]. intros j Hj. lia.
    + destruct (IH (fun n => P (S n)) (fun n => dec (S n)) HU)
        as (k & Hk & Hlt).
      exists (S k). split; [done|]. intros [|j] Hj; [done|]. apply Hlt. lia.
Qed.

(** with a positive interval the due times pass any [now] *)
Lemma due_times_end (b i now : Q) (n0 : Z) :
  (0 < i)%Q ->
  exists U : nat, (now < b + i * inject_Z (n0 + Z.of_nat U + 1 + 1))%Q.
Proof.
  intros Hi.
  set (q := ((now - b) / i)%Q).
  exists (Z.to_nat (Qceiling q - n0)).
  set (n := n0 + Z.of_nat (Z.to_nat (Qceiling q - n0)) + 1 + 1).
  assert (Hq : (q < inject_Z n)%Q).
  { eapply Qle_lt_trans; [apply Qle_ceiling|]. rewrite <- Zlt_Qlt. lia. }
  assert (Hm : (i * q == now - b)%Q).
  { unfold q. apply Qmult_div_r. intros Hz. rewrite Hz in Hi.
    by apply Qlt_irrefl in Hi. }
  assert (Hlt : (i * q < i * inject_Z n)%Q) by (by apply Qmult_lt_l).
  rewrite Hm in Hlt. lra.
Qed.




(** C5 (fails on the code in strict mode).  [setInterval(h, 1.0)] at time
    0, then [scheduleTimers(3.5)].  In strict code the pass throws in its
    first [pop()], in [Map.swap], before any handler has run, whatever the
    fuel.  Where the write to [id] is ignored the pass returns after three
    firings with [$next] equal to 4. *)
Theorem C5_strict_pass_throws_before_firing :
  (forall fuel,
     (d ← Pass.interval_1_from_0 true 0%nat;
      Director.scheduleTimers true (S fuel) (7 # 2) d) = Throw TypeError)
  /\ (exists d tm,
        (d ← Pass.interval_1_from_0 false 0%nat;
         Director.scheduleTimers false 4 (7 # 2) d) = Ok d
        /\ Map.size (Director.timers d) = 1
        /\ Map.get 0 (Director.timers d) = Some tm
        /\ Timer.times tm = 3
        /\ Timer.next tm = 4%Q
        /\ Director.calls d = [0; 0; 0]%nat).
Proof.
  split.
  - intros fuel. reflexivity.
  - eexists _, _. split; [vm_compute; reflexivity|]. vm_compute. done.
Qed.

(** ** Properties of [ActionInterval.step] *)

Lemma FLT_EPSILON_pos : (0 < FLT_EPSILON)%Q.
Proof. reflexivity. Qed.

Lemma divisor_max {E} (a : ActionInterval.t E) :
  (ActionInterval.divisor a == Qmax (ActionInterval._duration a) FLT_EPSILON)%Q.
Proof.
  unfold ActionInterval.divisor.
  destruct (Qltb FLT_EPSILON (ActionInterval._duration a)) eqn:E1.
  - apply Qltb_true in E1. symmetry. apply Q.max_l. by apply Qlt_le_weak.
  - apply Qltb_false in E1. symmetry. by apply Q.max_r.
Qed.

Lemma divisor_pos {E} (a : ActionInterval.t E) : (0 < ActionInterval.divisor a)%Q.
Proof.
  unfold ActionInterval.divisor.
  destruct (Qltb FLT_EPSILON (ActionInterval._duration a)) eqn:E1.
  - apply Qltb_true in E1. eapply Qlt_trans; [apply FLT_EPSILON_pos|done].
  - apply FLT_EPSILON_pos.
Qed.

Lemma normalized_clamped {E} (a : ActionInterval.t E) :
  (ActionInterval.normalized a
   == StepSpec.clamped_ratio (ActionInterval._elapsed a) (ActionInterval._duration a))%Q.
Proof.
  unfold ActionInterval.normalized, StepSpec.clamped_ratio.
  rewrite <- divisor_max.
  set (x := (ActionInterval._elapsed a / ActionInterval.divisor a)%Q).
  destruct (Qltb x 1) eqn:E1.
  - apply Qltb_true in E1.
    rewrite (Q.min_l x 1) by (by apply Qlt_le_weak).
    destruct (Qltb 0 x) eqn:E2.
    + apply Qltb_true in E2. symmetry. apply Q.max_r. by apply Qlt_le_weak.
    + apply Qltb_false in E2. symmetry. by apply Q.max_l.
  - apply Qltb_false in E1. rewrite (Q.min_r x 1) by done.
    cbn. symmetry. by apply Q.max_r.
Qed.

(** C7 (as amended).  For an interval action on which no repetition is
    pending ([$times] unset or not above 1, or the action not done after
    the tick), [step(dt)] returns; the first [step] after
    [startWithTarget] sets [$elapsed] to 0 whatever [dt] is and every later
    one adds [dt]; the value handed to [update] is
    [clamp($elapsed / max($duration, FLT_EPSILON), 0, 1)] itself, not
    eased, and the divisor is positive.  The easing list is applied, from
    its first entry to its last, by [$computeEaseTime], which the [update]
    methods of the concrete classes call on the value they receive. *)
Theorem C7_step_hands_the_clamped_ratio_to_update {Easing : Type}
    (a : ActionInterval.t Easing) (dt : Q) (fuel : nat) :
  ActionInterval.times_gt_1 a
    && ActionInterval.isDone (ActionInterval.tick dt a) = false ->
  let a1 := ActionInterval.tick dt a in
  ActionInterval.step (S fuel) dt a
    = Ok (ActionInterval.update (ActionInterval.normalized a1) a1)
  /\ ActionInterval._elapsed a1
     = (if ActionInterval._firstTick a then 0
        else ActionInterval._elapsed a + dt)%Q
  /\ ActionInterval._firstTick a1 = false
  /\ (ActionInterval.normalized a1
      == StepSpec.clamped_ratio (ActionInterval._elapsed a1)
                                (ActionInterval._duration a))%Q
  /\ (0 < Qmax (ActionInterval._duration a) FLT_EPSILON)%Q
  /\ forall (easing : Easing -> Q -> Q) (l : list Easing) (x : Q),
       ActionInterval._computeEaseTime easing
         (ActionInterval.set_easing l a) x
       = fold_left (fun x e => easing e x) l x.
Proof.
  intros Hrep a1. split; [|split; [|split; [|split; [|split]]]].
  - cbn [ActionInterval.step]. fold a1.
    change (ActionInterval.times_gt_1 (ActionInterval.update _ a1))
      with (ActionInterval.times_gt_1 a).
    change (ActionInterval.isDone (ActionInterval.update _ a1))
      with (ActionInterval.isDone a1).
    unfold a1. by rewrite Hrep.
  - reflexivity.
  - reflexivity.
  - apply (normalized_clamped a1).
  - rewrite <- divisor_max. apply divisor_pos.
  - intros easing l x. unfold ActionInterval._computeEaseTime. cbn.
    by destruct l.
Qed.

Lemma C7_step_hands_the_clamped_ratio_to_update_witness :
  let a1 := ActionInterval.tick 1 StepSpec.eased_action in
  ActionInterval.step 1 1 StepSpec.eased_action
    = Ok (ActionInterval.update (ActionInterval.normalized a1) a1)
  /\ ActionInterval._elapsed a1
     = (if ActionInterval._firstTick StepSpec.eased_action then 0
        else ActionInterval._elapsed StepSpec.eased_action + 1)%Q
  /\ ActionInterval._firstTick a1 = false
  /\ (ActionInterval.normalized a1
      == StepSpec.clamped_ratio (ActionInterval._elapsed a1)
                                (ActionInterval._duration StepSpec.eased_action))%Q
  /\ (0 < Qmax (ActionInterval._duration StepSpec.eased_action) FLT_EPSILON)%Q
  /\ forall (easing : EaseIn.t -> Q -> Q) (l : list EaseIn.t) (x : Q),
       ActionInterval._computeEaseTime easing
         (ActionInterval.set_easing l StepSpec.eased_action) x
       = fold_left (fun x e => easing e x) l x.
Proof.
  apply (C7_step_hands_the_clamped_ratio_to_update StepSpec.eased_action 1 0).
  reflexivity.
Defined.

(** what [step] adds to the calls of [update]: first the clamped ratio,
    then, when a cycle of a repeated action ended, the calls of the steps
    that follow the restart *)
Lemma step_appends_updates {Easing : Type} (fuel : nat) :
  forall (dt : Q) (a a' : ActionInterval.t Easing),
    ActionInterval.step fuel dt a = Ok a' ->
    exists rest,
      ActionInterval.updates a'
      = ActionInterval.updates a
        ++ ActionInterval.normalized (ActionInterval.tick dt a) :: rest.
Proof.
  induction fuel as [|fuel IH]; intros dt a a' H; [discriminate|].
  cbn [ActionInterval.step] in H.
  set (a1 := ActionInterval.tick dt a) in *.
  set (a2 := ActionInterval.update (ActionInterval.normalized a1) a1) in *.
  destruct (ActionInterval.times_gt_1 a2 && ActionInterval.isDone a2).
  - apply IH in H as [rest H]. eexists. rewrite H.
    destruct (negb (ActionInterval._forever a2)); cbn;
      rewrite <- app_assoc; reflexivity.
  - injection H as <-. exists []. reflexivity.
Qed.

(** C7 as stated fails.  (1) An action of duration 2 with the easing
    [easeIn(2)], stepped twice, the second time with [dt = 1]: [update]
    receives 1/2; the clamped ratio passed through the easing is 1/4.
    (2) An action of duration 1 with [times] set to 2, stepped with 0 and
    then with 3/2: the second step ends a cycle and restarts the action, and
    [$elapsed] is 0 after it, not 0 + 3/2. *)
Lemma C7_step_hands_uneased_ratio :
  (exists a1 a2,
      ActionInterval.step 1 (1 # 2) StepSpec.eased_action = Ok a1
      /\ ActionInterval.step 1 1 a1 = Ok a2
      /\ ActionInterval.updates a2 = [0%Q; 1 # 2]
      /\ StepSpec.eased_ratio EaseIn.easing a2 = 1 # 4
      /\ ~ (1 # 2 == 1 # 4)%Q)
  /\ (exists a1 a2,
        ActionInterval.step 1 0 StepSpec.repeated_action = Ok a1
        /\ ActionInterval._firstTick a1 = false
        /\ ActionInterval._elapsed a1 = 0%Q
        /\ ActionInterval.step 2 (3 # 2) a1 = Ok a2
        /\ ActionInterval._elapsed a2 = 0%Q
        /\ ActionInterval.updates a2 = [0%Q; 1%Q; 0%Q]
        /\ ~ (0 == 0 + (3 # 2))%Q).
Proof.
  split.
  - eexists _, _. split; [vm_compute; reflexivity|].
    split; [vm_compute; reflexivity|].
    split; [vm_compute; reflexivity|].
    split; [vm_compute; reflexivity|]. intros H. discriminate H.
  - eexists _, _. split; [vm_compute; reflexivity|].
    split; [reflexivity|]. split; [reflexivity|].
    split; [vm_compute; reflexivity|].
    split; [reflexivity|]. split; [reflexivity|]. intros H. discriminate H.
Qed.

(** ** Properties of [reverse()] on the leaf actions *)

Section leaf_reverse.
Context {Easing : Type} (ease_reverse : Easing -> Easing).

Lemma Vec3_opp_opp v : Vec3.opp (Vec3.opp v) = v.
Proof.
  destruct v as [[a ?] [b ?] [c ?]]. unfold Vec3.opp, Qopp. cbn.
  by rewrite !Z.opp_involutive.
Qed.

(** the base fields of a reversed action *)
Lemma decorate_times (this action : Leaf.t Easing) :
  ActionInterval._times (Leaf.base (Leaf.decorate ease_reverse this action))
  = ActionInterval._times (Leaf.base this).
Proof.
  unfold Leaf.decorate, ActionInterval._reverseEaseList. cbn.
  by destruct (ActionInterval._easeList (Leaf.base this)).
Qed.

Lemma decorate_duration (this action : Leaf.t Easing) :
  ActionInterval._duration (Leaf.base (Leaf.decorate ease_reverse this action))
  = ActionInterval._duration (Leaf.base action).
Proof.
  unfold Leaf.decorate, ActionInterval._reverseEaseList. cbn.
  by destruct (ActionInterval._easeList (Leaf.base this)).
Qed.

Lemma decorate_own (this action : Leaf.t Easing) :
  Leaf.own (Leaf.decorate ease_reverse this action) = Leaf.own action.
Proof. reflexivity. Qed.

Lemma new_duration (d : Q) :
  ~ (d == 0)%Q ->
  ActionInterval._duration (@ActionInterval.new Easing d) = d.
Proof.
  intros Hd. cbn. destruct (Qeq_bool d 0) eqn:E; [|done].
  by apply Qeq_bool_eq in E.
Qed.

Lemma plain_duration (b : ActionInterval.t Easing) :
  ActionInterval._times b = None ->
  (ActionInterval.duration b == ActionInterval._duration b)%Q.
Proof.
  intros Ht. unfold ActionInterval.duration, ActionInterval.times.
  rewrite Ht. ring.
Qed.

(** one reversal of a "-by" action that carries no repetition *)
Lemma reverse_plain_by (a : Leaf.t Easing) (v : Vec3.t) :
  Leaf.by_delta a = Some v ->
  ActionInterval._times (Leaf.base a) = None ->
  ~ (ActionInterval._duration (Leaf.base a) == 0)%Q ->
  exists r, Leaf.reverse ease_reverse a = Ok (Some r, [])
            /\ Leaf.by_delta r = Some (Vec3.opp v)
            /\ ActionInterval._times (Leaf.base r) = None
            /\ (ActionInterval._duration (Leaf.base r)
                == ActionInterval._duration (Leaf.base a))%Q.
Proof.
  intros Hv Ht Hd. destruct a as [b o]. cbn in Ht, Hd.
  assert (Hdur : ~ (ActionInterval.duration b == 0)%Q)
    by (by rewrite plain_duration).
  destruct o; cbn in Hv; try discriminate; injection Hv as ->;
    (eexists; split; [reflexivity|]; split; [reflexivity|]; split;
     [by rewrite decorate_times
     |rewrite decorate_duration; cbn [Leaf.base Leaf.new_MoveBy Leaf.new_RotateBy];
      rewrite new_duration by done; by apply plain_duration]).
Qed.

(** [reverse().reverse()] of a "-by" action that carries no repetition
    has the delta and the duration of the action *)
Lemma reverse_twice_plain_by (a : Leaf.t Easing) (v : Vec3.t) :
  Leaf.by_delta a = Some v ->
  ActionInterval._times (Leaf.base a) = None ->
  ~ (ActionInterval._duration (Leaf.base a) == 0)%Q ->
  exists rr, Leaf.reverse_twice ease_reverse a = Ok (Some rr, [])
             /\ Leaf.by_delta rr = Some v
             /\ (Leaf.duration rr == Leaf.duration a)%Q.
Proof.
  intros Hv Ht Hd.
  destruct (reverse_plain_by a v Hv Ht Hd) as (r & Hr & Hrv & Hrt & Hrd).
  assert (Hd' : ~ (ActionInterval._duration (Leaf.base r) == 0)%Q)
    by (by rewrite Hrd).
  destruct (reverse_plain_by r _ Hrv Hrt Hd') as (rr & Hrr & Hrrv & Hrrt & Hrrd).
  exists rr. unfold Leaf.reverse_twice. rewrite Hr. cbn. split; [done|].
  split; [by rewrite Hrrv, Vec3_opp_opp|].
  unfold Leaf.duration. rewrite !plain_duration by done.
  by rewrite Hrrd, Hrd.
Qed.

(** C8 (fails on the code).  [RotateTo] and [ScaleTo] inherit
    [ActionInterval.reverse()], which logs an error and returns [null].
    [MoveTo] inherits [MoveBy.reverse()] and returns a [MoveBy];
    [BezierTo] inherits [BezierBy.reverse()], which reads the [$config]
    that a [BezierTo] has not assigned before it is started, and
    throws. *)
Theorem C8_MoveTo_reverse_returns_an_action :
  (forall d dst,
      Leaf.reverse ease_reverse (Leaf.new_RotateTo d dst)
      = Ok (None, [ReverseNotImplemented]))
  /\ (forall d sx sy,
        Leaf.reverse ease_reverse (Leaf.new_ScaleTo d sx sy)
        = Ok (None, [ReverseNotImplemented]))
  /\ Leaf.reverse ease_reverse (Leaf.new_MoveTo 1 (Vec3.mk 1 2 3))
     = Ok (Some (Leaf.new_MoveBy 1 (Vec3.opp Vec3.zero)), [])
  /\ (forall d points,
        Leaf.reverse ease_reverse (Leaf.new_BezierTo d points)
        = Throw TypeError).
Proof. repeat split. Qed.

(** C9 (fails on the code).  A [MoveBy] of duration 1 by (1, 2, 3) with
    [times] set to 2 has duration 2.  Each [reverse()] gives the new
    action the duration of the old one, [$times] included, and copies
    [$times] as well: reversed twice the action has the same delta and
    duration 8. *)
Theorem C9_reverse_twice_of_repeated_MoveBy :
  let a := Leaf.set_times 2 (Leaf.new_MoveBy 1 (Vec3.mk 1 2 3)) in
  exists rr : Leaf.t Easing,
    Leaf.reverse_twice ease_reverse a = Ok (Some rr, [])
    /\ Leaf.by_delta rr = Some (Vec3.mk 1 2 3)
    /\ Leaf.duration a = 2%Q
    /\ Leaf.duration rr = 8%Q.
Proof. eexists. split; [reflexivity|]. by vm_compute. Qed.
End leaf_reverse.

(** ** Properties of [Sequence.update] *)

Section sequence_props.
Context {Easing : Type} (easing : Easing -> Q -> Q).
Context {Child : Type}.
Context (c_start : option Node -> Child -> Child)
        (c_update : Q -> Child -> Child)
        (c_stop : Child -> Child)
        (c_isDone : Child -> bool)
        (c_times : Child -> Q).

#[local] Abbreviation seq := (Sequence.t Easing Child).
#[local] Abbreviation update := (Sequence.update easing c_start c_update c_stop c_isDone c_times).
#[local] Abbreviation update_found := (Sequence.update_found c_start c_update c_isDone c_times).
#[local] Abbreviation run := (Sequence.run easing c_start c_update c_stop c_isDone c_times).
#[local] Abbreviation eased := (Sequence.eased easing).
#[local] Abbreviation fce := Sequence.first_child_events.

Lemma fce_call i e f (s : seq) :
  fce (Sequence.call i e f s) = fce s ++ (if i =? 0 then [e] else []).
Proof.
  unfold Sequence.first_child_events, Sequence.call. cbn.
  rewrite omap_app. cbn. by destruct (i =? 0).
Qed.

Lemma update_found_frame found new_t locLast (s : seq) :
  Sequence.base (update_found found new_t locLast s) = Sequence.base s
  /\ Sequence._split (update_found found new_t locLast s) = Sequence._split s.
Proof.
  unfold Sequence.update_found.
  destruct ((locLast =? found) && _); [done|].
  by destruct (negb (locLast =? found)).
Qed.

Lemma update_frame x (s : seq) :
  Sequence.base (update x s) = Sequence.base s
  /\ Sequence._split (update x s) = Sequence._split s.
Proof.
  unfold Sequence.update, Sequence.update_eased.
  destruct (Qltb _ _).
  - destruct (Sequence._last s =? 1);
      split; (etrans; [apply update_found_frame|done]).
  - destruct (Sequence._last s =? -1), (Sequence._last s =? 0);
      split; (etrans; [apply update_found_frame|done]).
Qed.

Lemma eased_update x y (s : seq) : eased (update x s) y = eased s y.
Proof. unfold Sequence.eased. by rewrite (proj1 (update_frame x s)). Qed.

Lemma fce_set_last found (s : seq) :
  fce (Sequence.set_last found s) = fce s.
Proof. reflexivity. Qed.

Lemma last_call i e f (s : seq) :
  Sequence._last (Sequence.call i e f s) = Sequence._last s.
Proof. reflexivity. Qed.

Lemma base_call i e f (s : seq) :
  Sequence.base (Sequence.call i e f s) = Sequence.base s.
Proof. reflexivity. Qed.

Ltac seq_step Hlast Hcmp :=
  unfold Sequence.update, Sequence.update_eased;
  unfold Sequence.eased in Hcmp; rewrite Hcmp, Hlast;
  cbn [Z.eqb negb andb Pos.eqb];
  unfold Sequence.update_found, Sequence.call_start, Sequence.call_update,
    Sequence.call_stop;
  cbn [Z.eqb negb andb Pos.eqb].

Lemma update_pre_first x (s : seq) :
  Sequence._last s = -1 ->
  Qltb (eased s x) (Sequence._split s) = true ->
  exists v,
    fce (update x s)
    = fce s ++ [Sequence.Start (ActionInterval.target (Sequence.base s));
                Sequence.Update v]
    /\ Sequence._last (update x s) = 0.
Proof.
  intros Hlast Hcmp. seq_step Hlast Hcmp.
  eexists. split; [|reflexivity].
  rewrite fce_set_last, !fce_call. cbn [Z.eqb]. rewrite <- app_assoc.
  reflexivity.
Qed.

Lemma update_pre_next x (s : seq) :
  Sequence._last s = 0 ->
  Qltb (eased s x) (Sequence._split s) = true ->
  exists ups,
    fce (update x s) = fce s ++ (Sequence.Update <$> ups)
    /\ Sequence._last (update x s) = 0.
Proof.
  intros Hlast Hcmp. seq_step Hlast Hcmp.
  destruct (c_isDone _).
  - exists []. cbn. by rewrite app_nil_r.
  - eexists [_]. split; [|reflexivity].
    rewrite fce_set_last, !fce_call. reflexivity.
Qed.

Lemma update_cross_skipped x (s : seq) :
  Sequence._last s = -1 ->
  Qltb (eased s x) (Sequence._split s) = false ->
  fce (update x s)
  = fce s ++ [Sequence.Start (ActionInterval.target (Sequence.base s));
              Sequence.Update 1; Sequence.Stop]
  /\ Sequence._last (update x s) = 1.
Proof.
  intros Hlast Hcmp. seq_step Hlast Hcmp.
  split; [|reflexivity].
  rewrite fce_set_last, !fce_call. cbn [Z.eqb Pos.eqb].
  rewrite !app_nil_r, <- !app_assoc. reflexivity.
Qed.

Lemma update_cross x (s : seq) :
  Sequence._last s = 0 ->
  Qltb (eased s x) (Sequence._split s) = false ->
  fce (update x s) = fce s ++ [Sequence.Update 1; Sequence.Stop]
  /\ Sequence._last (update x s) = 1.
Proof.
  intros Hlast Hcmp. seq_step Hlast Hcmp.
  split; [|reflexivity].
  rewrite fce_set_last, !fce_call. cbn [Z.eqb Pos.eqb].
  rewrite !app_nil_r, <- !app_assoc. reflexivity.
Qed.

Lemma update_post x (s : seq) :
  Sequence._last s = 1 ->
  Qltb (eased s x) (Sequence._split s) = false ->
  fce (update x s) = fce s /\ Sequence._last (update x s) = 1.
Proof.
  intros Hlast Hcmp. seq_step Hlast Hcmp.
  destruct (c_isDone _); [done|].
  split; [|reflexivity].
  rewrite fce_set_last, !fce_call. cbn [Z.eqb Pos.eqb].
  by rewrite !app_nil_r.
Qed.

Lemma run_cons x xs (s : seq) : run (x :: xs) s = run xs (update x s).
Proof. reflexivity. Qed.

Lemma run_app xs ys (s : seq) : run (xs ++ ys) s = run ys (run xs s).
Proof. apply fold_left_app. Qed.

Lemma run_pre_next (b : ActionInterval.t Easing) (sp : Q) pre : forall s : seq,
  Sequence.base s = b -> Sequence._split s = sp ->
  Sequence._last s = 0 ->
  Forall (fun x => (ActionInterval._computeEaseTime easing b x < sp)%Q) pre ->
  exists ups,
    fce (run pre s) = fce s ++ (Sequence.Update <$> ups)
    /\ Sequence._last (run pre s) = 0
    /\ Sequence.base (run pre s) = b
    /\ Sequence._split (run pre s) = sp.
Proof.
  induction pre as [|x pre IH]; intros s Hb Hsp Hlast Hpre.
  - exists []. cbn. by rewrite app_nil_r.
  - apply Forall_cons in Hpre as [Hx Hpre].
    destruct (update_pre_next x s Hlast) as (u1 & Hu1 & Hl1).
    { apply Qltb_true. unfold Sequence.eased. by rewrite Hb, Hsp. }
    destruct (update_frame x s)
      as [Hb1 Hsp1].
    destruct (IH (update x s)) as (u2 & Hu2 & Hl2 & Hb2 & Hsp2);
      [congruence|congruence|done|done|].
    exists (u1 ++ u2). rewrite run_cons.
    rewrite Hu2, Hu1, fmap_app, <- app_assoc. done.
Qed.

Lemma run_post (b : ActionInterval.t Easing) (sp : Q) post : forall s : seq,
  Sequence.base s = b -> Sequence._split s = sp ->
  Sequence._last s = 1 ->
  Forall (fun x => (sp <= ActionInterval._computeEaseTime easing b x)%Q) post ->
  fce (run post s) = fce s.
Proof.
  induction post as [|x post IH]; intros s Hb Hsp Hlast Hpost; [done|].
  apply Forall_cons in Hpost as [Hx Hpost].
  destruct (update_post x s Hlast) as (Hu1 & Hl1).
  { apply Qltb_false. unfold Sequence.eased. by rewrite Hb, Hsp. }
  destruct (update_frame x s)
    as [Hb1 Hsp1].
  rewrite run_cons.
  rewrite IH; [done|congruence|congruence|done|done].
Qed.

End sequence_props.


(** ** Properties of the action manager *)

Section list_facts.
Lemma index_of_lookup (l : list ActionManager.ref) k r :
  NoDup l -> l !! k = Some r -> ActionManager.index_of r l = Some k.
Proof.
  revert k. induction l as [|x l IH]; intros k Hnd Hk; [done|].
  apply NoDup_cons in Hnd as [Hx Hnd]. cbn.
  destruct k as [|k]; cbn in Hk.
  - injection Hk as ->. by rewrite decide_True.
  - rewrite decide_False.
    + by rewrite (IH k).
    + intros ->. apply Hx. by eapply list_elem_of_lookup_2.
Qed.

Lemma index_of_None (l : list ActionManager.ref) r :
  r ∉ l -> ActionManager.index_of r l = None.
Proof.
  induction l as [|x l IH]; intros Hr; [done|]. cbn.
  apply not_elem_of_cons in Hr as [Hx Hr].
  rewrite decide_False by done. by rewrite IH.
Qed.

Lemma drop_delete_at {X} (l : list X) k :
  (k < length l)%nat -> drop k (delete k l) = drop (S k) l.
Proof.
  revert k. induction l as [|x l IH]; intros k Hk; [cbn in Hk; lia|].
  destruct k as [|k]; [done|]. cbn. apply IH. cbn in Hk. lia.
Qed.

Lemma elem_of_delete_at {X} (l : list X) k x : x ∈ delete k l -> x ∈ l.
Proof. intros H. eapply elem_of_sublist; [done|apply sublist_delete]. Qed.

Lemma NoDup_delete_at {X} (l : list X) k : NoDup l -> NoDup (delete k l).
Proof. intros H. eapply sublist_NoDup; [done|apply sublist_delete]. Qed.

Lemma not_elem_of_deleted {X} (l : list X) k x :
  NoDup l -> l !! k = Some x -> x ∉ delete k l.
Proof.
  revert k. induction l as [|y l IH]; intros k Hnd Hk; [done|].
  apply NoDup_cons in Hnd as [Hy Hnd]. destruct k as [|k]; cbn in *.
  - by injection Hk as ->.
  - apply not_elem_of_cons. split.
    + intros ->. apply Hy. by eapply list_elem_of_lookup_2.
    + by apply IH.
Qed.
End list_facts.

Section manager_props.
Context {A : Type} (M : ActionManager.Methods A).
Hypothesis calls_self : forall r dt a,
  (ActionManager.act_step M r dt a).2 = [] \/ (ActionManager.act_step M r dt a).2 = [ActionManager.CallRemoveAction r].
Hypothesis step_orig : forall r dt a,
  ActionManager.act_originalTarget M (ActionManager.act_step M r dt a).1 = ActionManager.act_originalTarget M a.
Hypothesis stop_orig : forall a,
  ActionManager.act_originalTarget M (ActionManager.act_stop M a) = ActionManager.act_originalTarget M a.

#[local] Abbreviation bound := (Records.bound M).
#[local] Abbreviation record_inv := (Records.record_inv M).
#[local] Abbreviation after_step := (Records.after_step M).

Lemma removeAction_spec w r a tg e el :
  ActionManager.objects w !! r = Some a ->
  ActionManager.act_originalTarget M a = Some tg ->
  ActionManager._elementsMap w !! tg = Some e ->
  ActionManager.elements w !! e = Some el ->
  ActionManager.removeAction M (Some r) w
  = Ok (match ActionManager.index_of r (ActionManager.actions el) with
        | Some i => ActionManager.set_element e (ActionManager.spliced i el) w
        | None => w
        end).
Proof.
  intros Ha Ho Hm He. unfold ActionManager.removeAction, ActionManager.get_object, ActionManager.get_element.
  rewrite Ha. cbn. rewrite Ho, Hm, He. cbn. by destruct (ActionManager.index_of _ _).
Qed.

(** the state of the world after [step] of the action at [r] *)
Lemma step_object_spec w r a dt tg e el k :
  record_inv w e tg el ->
  ActionManager.actions el !! k = Some r ->
  ActionManager.objects w !! r = Some a ->
  exists w1 el1 a1,
    ActionManager.step_object M r dt w = Ok w1
    /\ ActionManager.stepped w1 = ActionManager.stepped w ++ [(r, dt)]
    /\ ActionManager.objects w1 = <[r := a1]> (ActionManager.objects w)
    /\ ActionManager.act_originalTarget M a1 = Some tg
    /\ ActionManager._elementsMap w1 = ActionManager._elementsMap w
    /\ ActionManager._elementsArr w1 = ActionManager._elementsArr w
    /\ ActionManager.elements w1 = <[e := el1]> (ActionManager.elements w)
    /\ (el1 = el \/ el1 = ActionManager.spliced k el).
Proof using calls_self step_orig.
  intros Hinv Hk Ha. destruct Hinv as [He Htg Hm Hnd Hb].
  destruct (Hb r) as (a' & Ha' & Ho); [by eapply list_elem_of_lookup_2|].
  assert (a' = a) by congruence. subst a'.
  unfold ActionManager.step_object, ActionManager.get_object. rewrite Ha. cbn.
  pose proof (calls_self r dt a) as Hc.
  pose proof (step_orig r dt a) as Hso.
  destruct (ActionManager.act_step M r dt a) as [a1 cs]. cbn in Hc, Hso.
  destruct Hc as [-> | ->]; cbn [ActionManager.calls ActionManager.call mbind result_bind].
  - eexists _, el, a1. split; [reflexivity|]. cbn.
    repeat split; try done; [congruence| |by left].
    by rewrite insert_id.
  - rewrite (removeAction_spec _ r a1 tg e el);
      [|apply lookup_insert_eq|congruence|done|done].
    rewrite (index_of_lookup _ k) by done.
    eexists _, _, a1. split; [reflexivity|]. cbn.
    repeat split; try done; [congruence|by right].
Qed.

Lemma at_index_nat {X} (l : list X) (k : nat) :
  ActionManager.at_index (Z.of_nat k) l = l !! k.
Proof.
  unfold ActionManager.at_index. destruct (Z.of_nat k <? 0) eqn:E.
  - apply Z.ltb_lt in E. lia.
  - by rewrite Nat2Z.id.
Qed.

Ltac am_simpl :=
  repeat (cbn [ActionManager.elements ActionManager.objects ActionManager._elementsMap ActionManager._elementsArr
               ActionManager._pool ActionManager._current ActionManager.stepped ActionManager.set_element ActionManager.set_object
               ActionManager.get_element ActionManager.get_object ActionManager.modify_element
               mbind result_bind ActionManager.actions ActionManager.target ActionManager.actionIndex
               ActionManager.currentAction ActionManager.paused ActionManager.lock ActionManager.set_currentAction
               ActionManager.set_actionIndex ActionManager.set_lock ActionManager.spliced]
          || rewrite lookup_insert_eq || rewrite insert_insert_eq).

Lemma get_element_ok (w : ActionManager.t A) e el :
  ActionManager.elements w !! e = Some el -> ActionManager.get_element e w = Ok el.
Proof. intros H. unfold ActionManager.get_element. by rewrite H. Qed.

Lemma modify_element_ok (w : ActionManager.t A) e el f :
  ActionManager.elements w !! e = Some el ->
  ActionManager.modify_element e f w = Ok (ActionManager.set_element e (f el) w).
Proof. intros H. unfold ActionManager.modify_element. by rewrite (get_element_ok w e el). Qed.

Lemma get_object_ok (w : ActionManager.t A) r a :
  ActionManager.objects w !! r = Some a -> ActionManager.get_object r w = Ok a.
Proof. intros H. unfold ActionManager.get_object. by rewrite H. Qed.

Lemma spliced_at k el :
  ActionManager.actionIndex el = Z.of_nat k ->
  ActionManager.actionIndex (ActionManager.spliced k el) = Z.of_nat k - 1.
Proof.
  intros H. unfold ActionManager.spliced. cbn. rewrite H.
  destruct (Z.of_nat k <=? Z.of_nat k) eqn:E; [done|].
  apply Z.leb_gt in E. lia.
Qed.

Lemma step_and_remove w e tg el k r dt :
  record_inv w e tg el ->
  ActionManager.actionIndex el = Z.of_nat k ->
  ActionManager.actions el !! k = Some r ->
  exists w2 el2 x,
    ActionManager.update_action M dt e w = Ok w2
    /\ after_step w w2 e tg el el2 r k x.
Proof using calls_self step_orig stop_orig.
  intros Hinv Hidx Hk.
  pose proof Hinv as [He Htg Hm Hnd Hb].
  destruct (Hb r) as (a & Ha & Ho); [by eapply list_elem_of_lookup_2|].
  unfold ActionManager.update_action. rewrite (get_element_ok w e el He).
  cbn [mbind result_bind]. rewrite Hidx, at_index_nat, Hk.
  set (el_a := ActionManager.set_currentAction (Some r) el).
  set (w_a := ActionManager.set_element e el_a w).
  assert (Hinv_a : record_inv w_a e tg el_a).
  { constructor; try done. apply lookup_insert_eq. }
  rewrite (get_object_ok w_a r a Ha). cbn [mbind result_bind].
  destruct (step_object_spec w_a r a (dt * ActionManager.act_speed M a)%Q tg e el_a k
              Hinv_a Hk Ha)
    as (w1 & el1 & a1 & Hstep & Hst1 & Hobj1 & Ho1 & Hm1 & Harr1 & Hel1 & Hcase).
  rewrite Hstep. cbn [mbind result_bind].
  assert (He1 : ActionManager.elements w1 !! e = Some el1)
    by (by rewrite Hel1, lookup_insert_eq).
  assert (Ha1 : ActionManager.objects w1 !! r = Some a1)
    by (by rewrite Hobj1, lookup_insert_eq).
  rewrite (get_element_ok w1 e el1 He1). cbn [mbind result_bind].
  assert (Hcur : ActionManager.currentAction el1 = Some r) by (by destruct Hcase as [-> | ->]).
  rewrite Hcur, (get_object_ok w1 r a1 Ha1). cbn [mbind result_bind].
  unfold w_a in *. cbn [ActionManager.set_element ActionManager.elements ActionManager.objects ActionManager._elementsMap
                        ActionManager._elementsArr ActionManager.stepped] in Hst1, Hobj1, Hm1, Harr1, Hel1.
  rewrite insert_insert_eq in Hel1.
  destruct (ActionManager.act_isDone M a1) eqn:Hdone.
  - (* done: stopped, then removed unless the step removed it already *)
    unfold ActionManager.modify_element.
    rewrite (get_element_ok _ e el1) by done. cbn [mbind result_bind].
    set (el_n := ActionManager.set_currentAction None el1).
    rewrite (removeAction_spec _ r (ActionManager.act_stop M a1) tg e el_n);
      [|apply lookup_insert_eq|by rewrite stop_orig
       |by cbn; rewrite Hm1|apply lookup_insert_eq].
    destruct Hcase as [-> | ->].
    + (* still in the list *)
      change (ActionManager.actions el_n) with (ActionManager.actions el).
      rewrite (index_of_lookup _ k) by done. cbn [mbind result_bind].
      rewrite get_element_ok with (el := ActionManager.spliced k el_n)
        by apply lookup_insert_eq.
      cbn [mbind result_bind].
      eexists _, _, _. split; [reflexivity|].
      unfold Records.after_step.
      cbn [ActionManager.set_element ActionManager.set_object ActionManager.elements ActionManager.objects
           ActionManager._elementsMap ActionManager._elementsArr ActionManager.stepped].
      rewrite !insert_insert_eq, Hst1, Hel1, Hobj1, !insert_insert_eq, Hm1, Harr1.
      split; [done|]. split; [done|].
      split; [eexists; split; [done|by rewrite stop_orig]|].
      repeat (split; [done|]). right. split; [done|].
      cbn. rewrite Hidx.
      destruct (Z.of_nat k <=? Z.of_nat k) eqn:E; [done|].
      apply Z.leb_gt in E. lia.
    + (* removed by the step *)
      change (ActionManager.actions el_n) with (delete k (ActionManager.actions el)).
      rewrite index_of_None by (by apply not_elem_of_deleted).
      cbn [mbind result_bind].
      rewrite get_element_ok with (el := el_n) by apply lookup_insert_eq.
      cbn [mbind result_bind].
      eexists _, _, _. split; [reflexivity|].
      unfold Records.after_step.
      cbn [ActionManager.set_element ActionManager.set_object ActionManager.elements ActionManager.objects
           ActionManager._elementsMap ActionManager._elementsArr ActionManager.stepped].
      rewrite !insert_insert_eq, Hst1, Hel1, Hobj1, !insert_insert_eq, Hm1, Harr1.
      split; [done|]. split; [done|].
      split; [eexists; split; [done|by rewrite stop_orig]|].
      repeat (split; [done|]). right. split; [done|].
      cbn. rewrite Hidx.
      destruct (Z.of_nat k <=? Z.of_nat k) eqn:E; [done|].
      apply Z.leb_gt in E. lia.
  - (* not done *)
    cbn [mbind result_bind]. unfold ActionManager.modify_element.
    rewrite (get_element_ok _ e el1) by done. cbn [mbind result_bind].
    eexists _, _, _. split; [reflexivity|].
    unfold Records.after_step.
    cbn [ActionManager.set_element ActionManager.set_object ActionManager.elements ActionManager.objects
         ActionManager._elementsMap ActionManager._elementsArr ActionManager.stepped].
    rewrite Hst1, Hel1, Hobj1, !insert_insert_eq, Hm1, Harr1.
    split; [done|]. split; [done|].
    split; [eexists; split; [done|done]|].
    split; [done|]. split; [done|].
    destruct Hcase as [-> | ->].
    + repeat (split; [done|]). left. done.
    + repeat (split; [done|]). right. split; [done|].
      cbn. rewrite Hidx.
      destruct (Z.of_nat k <=? Z.of_nat k) eqn:E; [done|].
      apply Z.leb_gt in E. lia.
Qed.


Lemma drop_cons_inv {X} (l : list X) k x rest :
  drop k l = x :: rest -> l !! k = Some x /\ drop (S k) l = rest.
Proof.
  revert l. induction k as [|k IH]; intros [|y l] H; cbn in H; try done.
  - by injection H as -> ->.
  - by apply IH.
Qed.

Lemma update_actions_spec e tg dt rest : forall w el k fuel,
  record_inv w e tg el ->
  ActionManager.actionIndex el = Z.of_nat k ->
  drop k (ActionManager.actions el) = rest ->
  (length rest < fuel)%nat ->
  exists w' el',
    ActionManager.update_actions M fuel dt e w = Ok w'
    /\ (ActionManager.stepped w').*1 = (ActionManager.stepped w).*1 ++ rest
    /\ ActionManager.elements w' = <[e := el']> (ActionManager.elements w)
    /\ ActionManager.target el' = Some tg
    /\ ActionManager.paused el' = ActionManager.paused el
    /\ ActionManager.lock el' = ActionManager.lock el
    /\ ActionManager._elementsMap w' = ActionManager._elementsMap w
    /\ ActionManager._elementsArr w' = ActionManager._elementsArr w
    /\ (forall r, r ∉ ActionManager.actions el -> ActionManager.objects w' !! r = ActionManager.objects w !! r).
Proof using calls_self step_orig stop_orig.
  induction rest as [|r rest IH]; intros w el k fuel Hinv Hidx Hdrop Hfuel.
  - destruct fuel as [|fuel]; [lia|]. cbn [ActionManager.update_actions].
    pose proof Hinv as [He Htg Hm Hnd Hb].
    rewrite (get_element_ok w e el He). cbn [mbind result_bind].
    apply (f_equal length) in Hdrop. rewrite length_drop in Hdrop.
    cbn in Hdrop.
    destruct (ActionManager.actionIndex el <? Z.of_nat (length (ActionManager.actions el))) eqn:E.
    { apply Z.ltb_lt in E. lia. }
    exists w, el. rewrite app_nil_r, insert_id by done. done.
  - destruct fuel as [|fuel]; [cbn in Hfuel; lia|]. cbn [ActionManager.update_actions].
    pose proof Hinv as [He Htg Hm Hnd Hb].
    rewrite (get_element_ok w e el He). cbn [mbind result_bind].
    apply drop_cons_inv in Hdrop as [Hk Hdrop].
    assert (Hlt : (k < length (ActionManager.actions el))%nat) by (by eapply lookup_lt_Some).
    destruct (ActionManager.actionIndex el <? Z.of_nat (length (ActionManager.actions el))) eqn:E;
      [|apply Z.ltb_ge in E; lia].
    destruct (step_and_remove w e tg el k r dt Hinv Hidx Hk)
      as (w2 & el2 & x & Hupd & Hst & Hel & (a2 & Hobj & Ho2) & Hm2 & Harr2
          & Htg2 & Hp2 & Hl2 & Hcase).
    rewrite Hupd. cbn [mbind result_bind]. unfold ActionManager.modify_element.
    rewrite (get_element_ok w2 e el2) by (by rewrite Hel, lookup_insert_eq).
    cbn [mbind result_bind].
    set (el3 := ActionManager.set_actionIndex (ActionManager.actionIndex el2 + 1) el2).
    set (w3 := ActionManager.set_element e el3 w2).
    assert (Hsub : forall r', r' ∈ ActionManager.actions el3 -> r' ∈ ActionManager.actions el).
    { intros r' Hr'. change (ActionManager.actions el3) with (ActionManager.actions el2) in Hr'.
      destruct Hcase as [[Hl _] | [Hl _]]; rewrite Hl in Hr'; [done|].
      by eapply elem_of_delete_at. }
    assert (Hinv3 : record_inv w3 e tg el3).
    { constructor.
      - apply lookup_insert_eq.
      - cbn. congruence.
      - cbn. by rewrite Hm2.
      - change (ActionManager.actions el3) with (ActionManager.actions el2).
        destruct Hcase as [[Hl _] | [Hl _]]; rewrite Hl; [done|].
        by apply NoDup_delete_at.
      - intros r' Hr'. unfold Records.bound. cbn. rewrite Hobj.
        destruct (decide (r' = r)) as [-> | Hne].
        + exists a2. by rewrite lookup_insert_eq.
        + rewrite lookup_insert_ne by done. by apply Hb, Hsub. }
    assert (Hk3 : exists k3, ActionManager.actionIndex el3 = Z.of_nat k3
                             /\ drop k3 (ActionManager.actions el3) = rest).
    { change (ActionManager.actions el3) with (ActionManager.actions el2).
      change (ActionManager.actionIndex el3) with (ActionManager.actionIndex el2 + 1).
      destruct Hcase as [[Hl Hi] | [Hl Hi]]; rewrite Hl, Hi.
      - exists (S k). split; [lia|done].
      - exists k. split; [lia|]. by rewrite drop_delete_at. }
    destruct Hk3 as (k3 & Hidx3 & Hdrop3).
    destruct (IH w3 el3 k3 fuel Hinv3 Hidx3 Hdrop3) as
      (w' & el' & Hrun & Hst' & Hel' & Htg' & Hp' & Hl' & Hm' & Harr' & Hobj');
      [cbn in Hfuel; lia|].
    exists w', el'. split; [done|].
    split.
    { rewrite Hst'. change (ActionManager.stepped w3) with (ActionManager.stepped w2).
      rewrite Hst, fmap_app, <- app_assoc. done. }
    split.
    { rewrite Hel'. cbn. by rewrite Hel, !insert_insert_eq. }
    split; [done|]. split; [by rewrite Hp'; cbn|].
    split; [by rewrite Hl'; cbn|].
    split; [by rewrite Hm'; cbn|]. split; [by rewrite Harr'; cbn|].
    intros r' Hr'. rewrite Hobj'; [|by intros ?%Hsub].
    change (ActionManager.objects w3) with (ActionManager.objects w2). rewrite Hobj.
    apply lookup_insert_ne. intros ->. apply Hr'.
    by eapply list_elem_of_lookup_2.
Qed.

Lemma deleteHashElement_spec (w : ActionManager.t A) e el tg i :
  ActionManager.elements w !! e = Some el ->
  ActionManager.lock el = false ->
  ActionManager.target el = Some tg ->
  ActionManager._elementsMap w !! tg = Some e ->
  NoDup (ActionManager._elementsArr w) ->
  ActionManager._elementsArr w !! i = Some e ->
  exists w',
    ActionManager._deleteHashElement e w = Ok (w', true)
    /\ ActionManager._elementsArr w' = delete i (ActionManager._elementsArr w)
    /\ ActionManager._elementsMap w' = delete tg (ActionManager._elementsMap w)
    /\ (forall e', e' <> e -> ActionManager.elements w' !! e' = ActionManager.elements w !! e')
    /\ ActionManager.objects w' = ActionManager.objects w
    /\ ActionManager.stepped w' = ActionManager.stepped w.
Proof.
  intros He Hl Htg Hm Hnd Hi.
  unfold ActionManager._deleteHashElement. rewrite (get_element_ok w e el He).
  cbn [mbind result_bind]. rewrite Hl, Htg, Hm.
  rewrite (index_of_lookup _ i) by done.
  unfold ActionManager._putElement, ActionManager.get_element. cbn. rewrite He. cbn.
  eexists. split; [reflexivity|]. cbn. repeat split; try done.
  intros e' Hne. by rewrite lookup_insert_ne.
Qed.

Lemma update_element_spec w i e el tg fuel dt :
  NoDup (ActionManager._elementsArr w) ->
  ActionManager._elementsArr w !! i = Some e ->
  record_inv w e tg el ->
  ActionManager.lock el = false ->
  (length (ActionManager.actions el) < fuel)%nat ->
  exists w' i',
    ActionManager.update_element M fuel dt (Z.of_nat i) w = Ok (w', Z.of_nat i')
    /\ (ActionManager.stepped w').*1
       = (ActionManager.stepped w).*1 ++ (if ActionManager.paused el then [] else ActionManager.actions el)
    /\ NoDup (ActionManager._elementsArr w')
    /\ drop i' (ActionManager._elementsArr w') = drop (S i) (ActionManager._elementsArr w)
    /\ (forall e', e' <> e -> ActionManager.elements w' !! e' = ActionManager.elements w !! e')
    /\ (forall r, r ∉ ActionManager.actions el -> ActionManager.objects w' !! r = ActionManager.objects w !! r)
    /\ (forall tg', tg' <> tg ->
           ActionManager._elementsMap w' !! tg' = ActionManager._elementsMap w !! tg').
Proof using calls_self step_orig stop_orig.
  intros Hnd Hi Hinv Hlock Hfuel.
  pose proof Hinv as [He Htg Hm Hnda Hb].
  assert (Hlen : (i < length (ActionManager._elementsArr w))%nat) by (by eapply lookup_lt_Some).
  unfold ActionManager.update_element. rewrite at_index_nat, Hi.
  set (w_c := ActionManager.mk _ _ _ (Some e) _ _ _).
  rewrite (get_element_ok w_c e el He). cbn [mbind result_bind].
  (* the loop over the actions, when the record is not paused *)
  assert (Hloop : exists w4 el4,
    (if negb (ActionManager.paused el)
     then
       w0 ← ActionManager.modify_element e (ActionManager.set_lock true) w_c;
       w1 ← ActionManager.modify_element e (ActionManager.set_actionIndex 0) w0;
       w2 ← ActionManager.update_actions M fuel dt e w1;
       ActionManager.modify_element e (ActionManager.set_lock false) w2
     else Ok w_c) = Ok w4
    /\ (ActionManager.stepped w4).*1
       = (ActionManager.stepped w).*1 ++ (if ActionManager.paused el then [] else ActionManager.actions el)
    /\ ActionManager.elements w4 = <[e := el4]> (ActionManager.elements w)
    /\ ActionManager.target el4 = Some tg /\ ActionManager.lock el4 = false
    /\ ActionManager._elementsMap w4 = ActionManager._elementsMap w
    /\ ActionManager._elementsArr w4 = ActionManager._elementsArr w
    /\ (forall r, r ∉ ActionManager.actions el -> ActionManager.objects w4 !! r = ActionManager.objects w !! r)).
  { destruct (ActionManager.paused el) eqn:Hp; cbn [negb].
    - exists w_c, el. split; [done|]. cbn. rewrite app_nil_r, insert_id by done.
      done.
    - rewrite (modify_element_ok w_c e el _ He). cbn [mbind result_bind].
      rewrite modify_element_ok with (el := ActionManager.set_lock true el)
        by apply lookup_insert_eq.
      cbn [mbind result_bind].
      set (el2 := ActionManager.set_actionIndex 0 (ActionManager.set_lock true el)).
      set (w2 := ActionManager.set_element e el2 _).
      assert (Hinv2 : record_inv w2 e tg el2).
      { constructor; try done. apply lookup_insert_eq. }
      destruct (update_actions_spec e tg dt (ActionManager.actions el) w2 el2 0 fuel
                  Hinv2 eq_refl eq_refl Hfuel)
        as (w3 & el3 & Hrun & Hst3 & Hel3 & Htg3 & Hp3 & Hl3 & Hm3 & Harr3 & Hobj3).
      rewrite Hrun. cbn [mbind result_bind].
      rewrite (modify_element_ok w3 e el3)
        by (by rewrite Hel3, lookup_insert_eq).
      eexists _, (ActionManager.set_lock false el3). split; [reflexivity|].
      cbn. rewrite Hel3. cbn. rewrite !insert_insert_eq.
      repeat split; done. }
  destruct Hloop as (w4 & el4 & -> & Hst4 & Hel4 & Htg4 & Hl4 & Hm4 & Harr4 & Hobj4).
  cbn [mbind result_bind].
  assert (He4 : ActionManager.elements w4 !! e = Some el4)
    by (by rewrite Hel4, lookup_insert_eq).
  rewrite (get_element_ok w4 e el4 He4). cbn [mbind result_bind].
  destruct (length (ActionManager.actions el4) =? 0)%nat.
  - destruct (deleteHashElement_spec w4 e el4 tg i He4 Hl4 Htg4)
      as (w5 & Hdel & Harr5 & Hm5 & Hel5 & Hobj5 & Hst5);
      [by rewrite Hm4|by rewrite Harr4|by rewrite Harr4|].
    rewrite Hdel. cbn [mbind result_bind].
    exists w5, i. replace (Z.of_nat i - 1 + 1) with (Z.of_nat i) by lia.
    split; [done|]. split; [by rewrite Hst5|].
    split; [rewrite Harr5, Harr4; by apply NoDup_delete_at|].
    split; [rewrite Harr5, Harr4; by apply drop_delete_at|].
    split.
    { intros e' Hne. rewrite Hel5, Hel4 by done. by apply lookup_insert_ne. }
    split; [intros r Hr; rewrite Hobj5; by apply Hobj4|].
    intros tg' Hne. rewrite Hm5, Hm4. by apply lookup_delete_ne.
  - exists w4, (S i). replace (Z.of_nat i + 1) with (Z.of_nat (S i)) by lia.
    split; [done|]. split; [done|].
    split; [by rewrite Harr4|]. split; [by rewrite Harr4|].
    split.
    { intros e' Hne. rewrite Hel4. by apply lookup_insert_ne. }
    split; [done|]. intros tg' Hne. by rewrite Hm4.
Qed.

Lemma not_elem_of_drop {X} (l : list X) i x :
  NoDup l -> l !! i = Some x -> x ∉ drop (S i) l.
Proof.
  revert i. induction l as [|y l IH]; intros i Hnd Hi; [done|].
  apply NoDup_cons in Hnd as [Hy Hnd]. destruct i as [|i]; cbn in *.
  - injection Hi as ->. by rewrite drop_0.
  - by apply IH.
Qed.

Lemma actions_of_cons (w : ActionManager.t A) e es :
  Records.actions_of w (e :: es)
  = match ActionManager.elements w !! e with
    | Some el => ActionManager.actions el
    | None => []
    end ++ Records.actions_of w es.
Proof. reflexivity. Qed.

Lemma running_of_cons (w : ActionManager.t A) e es :
  Records.running_of w (e :: es)
  = match ActionManager.elements w !! e with
    | Some el => if ActionManager.paused el then [] else ActionManager.actions el
    | None => []
    end ++ Records.running_of w es.
Proof. reflexivity. Qed.

Lemma actions_of_ext (w w' : ActionManager.t A) es :
  (forall e, e ∈ es -> ActionManager.elements w' !! e = ActionManager.elements w !! e) ->
  Records.actions_of w' es = Records.actions_of w es
  /\ Records.running_of w' es = Records.running_of w es.
Proof.
  induction es as [|e es IH]; intros H; [done|].
  destruct IH as [IH1 IH2].
  { intros e' He'. apply H. by right. }
  rewrite !actions_of_cons, !running_of_cons, IH1, IH2, (H e) by left.
  done.
Qed.

Lemma elem_of_actions_of (w : ActionManager.t A) es e el r :
  e ∈ es -> ActionManager.elements w !! e = Some el -> r ∈ ActionManager.actions el ->
  r ∈ Records.actions_of w es.
Proof.
  intros He Hel Hr. induction es as [|e' es IH]; [by apply elem_of_nil in He|].
  rewrite actions_of_cons. apply elem_of_app.
  apply elem_of_cons in He as [<- | He].
  - left. by rewrite Hel.
  - right. by apply IH.
Qed.

Lemma running_sublist (w : ActionManager.t A) es :
  Records.running_of w es `sublist_of` Records.actions_of w es.
Proof.
  induction es as [|e es IH]; [done|].
  rewrite actions_of_cons, running_of_cons.
  apply sublist_app; [|done].
  destruct (ActionManager.elements w !! e) as [el|]; [|done].
  destruct (ActionManager.paused el); [apply sublist_nil_l|done].
Qed.

Lemma update_elements_spec dt rest : forall w i fuel,
  NoDup (ActionManager._elementsArr w) ->
  drop i (ActionManager._elementsArr w) = rest ->
  Forall (Records.record_ok M w) rest ->
  NoDup (Records.actions_of w rest) ->
  (length rest + length (Records.actions_of w rest) < fuel)%nat ->
  exists w',
    ActionManager.update_elements M fuel dt (Z.of_nat i) w = Ok w'
    /\ (ActionManager.stepped w').*1 = (ActionManager.stepped w).*1 ++ Records.running_of w rest.
Proof using calls_self step_orig stop_orig.
  induction rest as [|e rest IH]; intros w i fuel Hnd Hdrop Hok Hnda Hfuel.
  - destruct fuel as [|fuel]; [lia|]. cbn [ActionManager.update_elements].
    apply (f_equal length) in Hdrop. rewrite length_drop in Hdrop.
    cbn in Hdrop.
    destruct (Z.of_nat i <? Z.of_nat (length (ActionManager._elementsArr w))) eqn:E.
    { apply Z.ltb_lt in E. lia. }
    exists w. by rewrite app_nil_r.
  - destruct fuel as [|fuel]; [lia|]. cbn [ActionManager.update_elements].
    apply drop_cons_inv in Hdrop as [Hi Hdrop].
    assert (Hlt : (i < length (ActionManager._elementsArr w))%nat) by (by eapply lookup_lt_Some).
    destruct (Z.of_nat i <? Z.of_nat (length (ActionManager._elementsArr w))) eqn:E;
      [|apply Z.ltb_ge in E; lia].
    apply Forall_cons in Hok as [(el & tg & He & Htg & Hlock & Hm & Hbound) Hok].
    assert (Hact : Records.actions_of w (e :: rest)
                   = ActionManager.actions el ++ Records.actions_of w rest).
    { by rewrite actions_of_cons, He. }
    assert (Hrunning : Records.running_of w (e :: rest)
                   = (if ActionManager.paused el then [] else ActionManager.actions el)
                     ++ Records.running_of w rest).
    { by rewrite running_of_cons, He. }
    rewrite Hact in Hnda, Hfuel. rewrite length_app in Hfuel. cbn in Hfuel.
    apply NoDup_app in Hnda as (Hnd1 & Hdisj & Hnd2).
    assert (Hinv : record_inv w e tg el).
    { constructor; try done. intros r Hr.
      rewrite Forall_forall in Hbound. by apply Hbound. }
    destruct (update_element_spec w i e el tg fuel dt Hnd Hi Hinv Hlock)
      as (w' & i' & Hupd & Hst & Hnd' & Hdrop' & Hel' & Hobj' & Hm'); [lia|].
    rewrite Hupd. cbn [mbind result_bind].
    assert (Hne : forall e', e' ∈ rest -> e' <> e).
    { intros e' He' ->. rewrite <- Hdrop in He'.
      by eapply not_elem_of_drop in He'. }
    destruct (actions_of_ext w w' rest) as [Hact' Hrun'].
    { intros e' He'. by apply Hel', Hne. }
    destruct (IH w' i' fuel) as (w'' & Hrun & Hst'').
    + done.
    + by rewrite Hdrop'.
    + rewrite Forall_forall in Hok. apply Forall_forall. intros e' He'.
      destruct (Hok e' He') as (el' & tg' & He1 & Htg1 & Hl1 & Hm1 & Hb1).
      exists el', tg'. split; [by rewrite Hel' by (by apply Hne)|].
      split; [done|]. split; [done|]. split.
      { rewrite Hm'; [done|]. intros ->. apply (Hne e' He'). congruence. }
      rewrite Forall_forall in Hb1. apply Forall_forall. intros r Hr.
      destruct (Hb1 r Hr) as (a & Ha & Ho). exists a. split; [|done].
      rewrite Hobj'; [done|]. intros Hin. apply (Hdisj r Hin).
      by eapply elem_of_actions_of.
    + by rewrite Hact'.
    + rewrite Hact'. lia.
    + exists w''. split; [done|].
      rewrite Hst'', Hst, Hrun', Hrunning, <- app_assoc. done.
Qed.

(** C3.  A manager between two operations, and actions whose [step]
    asks nothing of the manager or calls [removeAction] on the action
    being stepped (as the function of a [CallFunc] can), [step] and
    [stop] leaving [originalTarget] alone.  Then [update(dt)] returns,
    and the actions it steps are the actions of the records that are not
    paused, record after record in the order of the lists, each one
    once. *)
Theorem C3_update_steps_every_action_once (w : ActionManager.t A) (dt : Q) :
  Records.well_formed M w ->
  exists fuel w',
    ActionManager.update M fuel dt w = Ok w'
    /\ (ActionManager.stepped w').*1
       = (ActionManager.stepped w).*1 ++ Records.running_of w (ActionManager._elementsArr w)
    /\ NoDup (Records.running_of w (ActionManager._elementsArr w)).
Proof using calls_self step_orig stop_orig.
  intros (Hnd & Hok & Hnda).
  destruct (update_elements_spec dt (ActionManager._elementsArr w) w 0
              (S (length (ActionManager._elementsArr w)
                  + length (Records.actions_of w (ActionManager._elementsArr w))))
              Hnd (drop_0 _) Hok Hnda) as (w' & Hrun & Hst); [lia|].
  eexists _, w'. split; [exact Hrun|]. split; [done|].
  eapply sublist_NoDup; [exact Hnda|apply running_sublist].
Qed.
End manager_props.

Lemma C3_update_steps_every_action_once_witness :
  exists fuel w',
    ActionManager.update Plain.methods fuel (1 # 2) Plain.example = Ok w'
    /\ (ActionManager.stepped w').*1
       = (ActionManager.stepped Plain.example).*1
         ++ Records.running_of Plain.example
              (ActionManager._elementsArr Plain.example)
    /\ NoDup (Records.running_of Plain.example
                (ActionManager._elementsArr Plain.example)).
Proof.
  apply (C3_update_steps_every_action_once Plain.methods).
  - intros r dt a. cbn. destruct (Plain.removes_itself a); auto.
  - reflexivity.
  - reflexivity.
  - split; [|split].
    + by apply (bool_decide_unpack _).
    + repeat constructor.
      * eexists _, 7. split; [reflexivity|]. split; [reflexivity|].
        split; [reflexivity|]. split; [reflexivity|].
        repeat constructor; eexists; split; reflexivity.
      * eexists _, 8. split; [reflexivity|]. split; [reflexivity|].
        split; [reflexivity|]. split; [reflexivity|].
        repeat constructor; eexists; split; reflexivity.
    + by apply (bool_decide_unpack _).
Defined.

(** C4 (fails on the code).  [addAction(a, t)] on an empty manager, then
    [removeAction(a)]: the record of [t] is not locked, its list is empty,
    and it stays in the map and in the array, not in the pool.
    [removeActionByTag], through [$removeActionAtIndex], deletes the record
    in the same situation. *)
Theorem C4_removeAction_leaves_an_empty_record :
  let w0 := ActionManager.new {[ 0%nat := Plain.new 2 false ]} in
  (exists w e el,
      (w ← ActionManager.addAction Plain.methods (Some 0%nat) (Some 7) false w0;
       ActionManager.removeAction Plain.methods (Some 0%nat) w) = Ok w
      /\ ActionManager._elementsMap w !! 7 = Some e
      /\ ActionManager._elementsArr w = [e]
      /\ ActionManager.elements w !! e = Some el
      /\ ActionManager.actions el = []
      /\ ActionManager.lock el = false
      /\ ActionManager._pool w = []
      /\ ~ Records.no_empty_record w 7)
  /\ (exists w,
        (w ← ActionManager.addAction Plain.methods (Some 0%nat) (Some 7) false w0;
         ActionManager.removeActionByTag Plain.methods (-1) 7 w) = Ok w
        /\ ActionManager._elementsMap w !! 7 = None
        /\ ActionManager._elementsArr w = []
        /\ ActionManager._pool w = [0%nat]).
Proof.
  split.
  - eexists _, 0%nat, _. split; [vm_compute; reflexivity|].
    split; [reflexivity|]. split; [reflexivity|]. split; [reflexivity|].
    split; [reflexivity|]. split; [reflexivity|]. split; [reflexivity|].
    intros H. by eapply H.
  - eexists. split; [vm_compute; reflexivity|]. done.
Qed.

(** ** The order of the heap *)

Section heap_correct.
Context {T C : Type} (K : Container T C).
Context (lt : T -> T -> bool) (R : C -> list T -> Prop).
Hypothesis lt_sw : HeapOrder.strict_weak lt.
Hypothesis R_size : forall c l, R c l -> size K c = Z.of_nat (length l).
Hypothesis R_less : forall c l i j x y,
  R c l -> l !! i = Some x -> l !! j = Some y ->
  less K (Z.of_nat i) (Z.of_nat j) c = Ok (lt x y).
Hypothesis R_swap : forall c l i j x y,
  R c l -> l !! i = Some x -> l !! j = Some y ->
  exists c', swap K (Z.of_nat i) (Z.of_nat j) c = Ok c'
             /\ R c' (<[j := x]> (<[i := y]> l)).
Hypothesis R_pushBack : forall c l x, R c l -> R (pushBack K x c) (l ++ [x]).
Hypothesis R_popBack : forall c l x,
  R c (l ++ [x]) -> exists c', popBack K c = (c', Some x) /\ R c' l.

#[local] Abbreviation child := HeapOrder.child.
#[local] Abbreviation heap_upto := (HeapOrder.heap_upto lt).
#[local] Abbreviation heap_ordered := (HeapOrder.heap_ordered lt).

Lemma lt_asym x y : lt x y = true -> lt y x = false.
Proof using lt_sw. apply lt_sw. Qed.

Lemma le_trans x y z : lt y x = false -> lt z y = false -> lt z x = false.
Proof using lt_sw. apply lt_sw. Qed.

Lemma lt_irrefl x : lt x x = false.
Proof using lt_sw.
  destruct (lt x x) eqn:E; [|done]. by rewrite (lt_asym _ _ E) in E.
Qed.

Lemma lookup_swap (l : list T) i j x y k :
  l !! i = Some x -> l !! j = Some y ->
  <[j := x]> (<[i := y]> l) !! k
  = if decide (k = j) then Some x
    else if decide (k = i) then Some y else l !! k.
Proof.
  intros Hi Hj. apply lookup_lt_Some in Hi as Hi', Hj as Hj'.
  destruct (decide (k = j)) as [->|];
    [by rewrite list_lookup_insert_eq by (rewrite length_insert; lia)|].
  rewrite list_lookup_insert_ne by done.
  destruct (decide (k = i)) as [->|]; [by rewrite list_lookup_insert_eq|].
  by rewrite list_lookup_insert_ne.
Qed.

Lemma swap_Permutation (l : list T) i j x y :
  l !! i = Some x -> l !! j = Some y -> <[j := x]> (<[i := y]> l) ≡ₚ l.
Proof.
  intros Hi Hj. apply Permutation_inj. split; [by rewrite !length_insert|].
  exists (fun k => if decide (k = j) then i
                   else if decide (k = i) then j else k). split.
  - intros a b. repeat case_decide; lia.
  - intros k. rewrite (lookup_swap _ _ _ _ _ _ Hi Hj).
    repeat case_decide; subst; congruence.
Qed.

(** the parent [_up] computes *)
Lemma up_parent (j : nat) :
  (if 0 <=? Z.of_nat j - 1 then Z.shiftr (Z.of_nat j - 1) 1 else 0)
  = Z.of_nat ((j - 1) / 2).
Proof.
  destruct j as [|j]; [reflexivity|].
  replace (Z.of_nat (S j) - 1) with (Z.of_nat j) by lia.
  replace (S j - 1)%nat with j by lia.
  destruct (0 <=? Z.of_nat j) eqn:E; [|apply Z.leb_gt in E; lia].
  rewrite Z.shiftr_div_pow2 by lia. by rewrite Nat2Z.inj_div.
Qed.

Lemma parent_child (j : nat) : (0 < j)%nat -> child ((j - 1) / 2) j.
Proof.
  intros Hj. unfold HeapOrder.child.
  pose proof (Nat.div_mod_eq (j - 1) 2).
  pose proof (Nat.mod_upper_bound (j - 1) 2). lia.
Qed.

Lemma child_inj p q k : child p k -> child q k -> p = q.
Proof. unfold HeapOrder.child. lia. Qed.

Lemma child_lt p k : child p k -> (p < k)%nat.
Proof. unfold HeapOrder.child. lia. Qed.

Lemma _up_loop_spec (fuel : nat) : forall j n c l,
  (j < fuel)%nat -> R c l -> (j < n)%nat -> (n <= length l)%nat ->
  (forall p k x y, child p k -> (k < n)%nat -> k <> j ->
                   l !! p = Some x -> l !! k = Some y -> lt y x = false) ->
  (forall p k x y, child p j -> child j k -> (k < n)%nat ->
                   l !! p = Some x -> l !! k = Some y -> lt y x = false) ->
  exists c' l',
    Heap._up_loop K fuel (Z.of_nat j) c = Ok c' /\ R c' l' /\ l' ≡ₚ l
    /\ (forall k, (j < k)%nat -> l' !! k = l !! k)
    /\ heap_upto n l'.
Proof using lt_sw R_less R_swap.
  induction fuel as [|fuel IH]; intros j n c l Hf HR Hjn Hn Ha Hb; [lia|].
  cbn [Heap._up_loop]. rewrite up_parent.
  destruct (decide (j = 0)%nat) as [->|Hj0].
  { cbn. exists c, l. repeat split; try done.
    intros p k x y Hc Hk. apply Ha; try done.
    apply child_lt in Hc. lia. }
  pose proof (parent_child j ltac:(lia)) as Hpj.
  remember ((j - 1) / 2)%nat as p eqn:Hp. clear Hp.
  pose proof (child_lt _ _ Hpj) as Hplt.
  destruct (Z.of_nat p =? Z.of_nat j) eqn:E; [apply Z.eqb_eq in E; lia|].
  destruct (lookup_lt_is_Some_2 l j ltac:(lia)) as [y Hy].
  destruct (lookup_lt_is_Some_2 l p ltac:(lia)) as [x Hx].
  rewrite (R_less _ _ _ _ _ _ HR Hy Hx). cbn.
  destruct (lt y x) eqn:Hlt; cbn.
  2:{ exists c, l. repeat split; try done.
      intros p' k x' y' Hc Hk Hx' Hy'.
      destruct (decide (k = j)) as [->|]; [|by eapply Ha].
      rewrite (child_inj _ _ _ Hc Hpj) in Hx'. congruence. }
  destruct (R_swap _ _ _ _ _ _ HR Hx Hy) as (c1 & -> & HR1). cbn.
  set (l1 := <[j := x]> (<[p := y]> l)) in *.
  assert (Hl1 : forall k, l1 !! k = if decide (k = j) then Some x
                 else if decide (k = p) then Some y else l !! k)
    by (intros; by apply lookup_swap).
  destruct (IH p n c1 l1) as (c' & l' & Hup & HR' & Hperm & Hagree & Hheap);
    try done; try lia.
  - unfold l1. rewrite !length_insert. lia.
  - intros p' k x' y' Hc Hk Hkp. rewrite !Hl1.
    pose proof (child_lt _ _ Hc).
    destruct (decide (k = j)) as [->|Hkj].
    + rewrite (child_inj _ _ _ Hc Hpj).
      destruct (decide (p = j)); [lia|]. rewrite decide_True by done.
      intros [= <-] [= <-]. by apply lt_asym.
    + rewrite (decide_False (P := k = p)) by done.
      destruct (decide (p' = j)) as [->|Hpj'].
      * intros [= <-] Hk'. eapply (Hb p k); try done.
      * destruct (decide (p' = p)) as [->|].
        -- intros [= <-] Hk'.
           eapply le_trans; [|eapply (Ha p k x y'); done].
           by apply lt_asym.
        -- intros. by eapply (Ha p' k).
  - intros p' k x' y' Hc1 Hc2 Hk. rewrite !Hl1.
    pose proof (child_lt _ _ Hc1). pose proof (child_lt _ _ Hc2).
    rewrite (decide_False (P := p' = j)) by lia.
    rewrite (decide_False (P := p' = p)) by lia.
    destruct (decide (k = j)) as [->|Hkj].
    + intros Hx' [= <-]. eapply (Ha p' p); try done; lia.
    + rewrite (decide_False (P := k = p)) by lia.
      intros Hx' Hy'.
      eapply le_trans; [eapply (Ha p' p x' x); try done; lia|].
      eapply (Ha p k); try done; lia.
  - exists c', l'. repeat split; try done.
    + rewrite Hperm. by apply swap_Permutation.
    + intros k Hk. rewrite Hagree by lia. rewrite Hl1.
      rewrite decide_False by lia. by rewrite decide_False by lia.
Qed.

Lemma _down_loop_spec (fuel : nat) : forall i n lo c l,
  (n - i < fuel)%nat -> R c l -> (n <= length l)%nat -> (lo <= i)%nat ->
  (forall p k x y, child p k -> (k < n)%nat -> (lo <= p)%nat ->
                   p <> i -> k <> i ->
                   l !! p = Some x -> l !! k = Some y -> lt y x = false) ->
  (forall p k x y, child p i -> (lo <= p)%nat -> child i k -> (k < n)%nat ->
                   l !! p = Some x -> l !! k = Some y -> lt y x = false) ->
  exists c' l' i',
    Heap._down_loop K fuel (Z.of_nat i) (Z.of_nat n) c = Ok (c', Z.of_nat i')
    /\ R c' l' /\ l' ≡ₚ l /\ (i <= i')%nat
    /\ (forall k, (k < i \/ n <= k)%nat -> l' !! k = l !! k)
    /\ (forall p k x y, child p k -> (k < n)%nat -> (lo <= p)%nat -> k <> i ->
                        l' !! p = Some x -> l' !! k = Some y ->
                        lt y x = false)
    /\ ((i < i')%nat ->
        forall p k x y, child p k -> (k < n)%nat -> (lo <= p)%nat ->
                        l' !! p = Some x -> l' !! k = Some y ->
                        lt y x = false)
    /\ (i' = i -> l' = l /\ c' = c).
Proof using lt_sw R_less R_swap.
  induction fuel as [|fuel IH]; intros i n lo c l Hf HR Hn Hlo Ha Hb; [lia|].
  cbn [Heap._down_loop].
  replace (2 * Z.of_nat i + 1) with (Z.of_nat (2 * i + 1)) by lia.
  replace (Z.of_nat (2 * i + 1) + 1) with (Z.of_nat (2 * i + 2)) by lia.
  destruct (Z.of_nat (2 * i + 1) <? 0) eqn:E0; [apply Z.ltb_lt in E0; lia|].
  rewrite orb_false_r.
  destruct (Z.of_nat n <=? Z.of_nat (2 * i + 1)) eqn:E1.
  { apply Z.leb_le in E1. exists c, l, i. repeat split; try done.
    - intros p k x y Hc Hk Hp Hki.
      destruct (decide (p = i)) as [->|];
        [unfold HeapOrder.child in Hc; lia|by eapply Ha].
    - lia. }
  apply Z.leb_gt in E1.
  assert (Hrest : forall j yj,
    child i j -> (j < n)%nat -> l !! j = Some yj ->
    (forall k y', child i k -> (k < n)%nat -> l !! k = Some y' ->
                  lt y' yj = false) ->
    exists c' l' i',
      (b' ← less K (Z.of_nat j) (Z.of_nat i) c;
       if negb b' then Ok (c, Z.of_nat i)
       else c0 ← swap K (Z.of_nat i) (Z.of_nat j) c;
            Heap._down_loop K fuel (Z.of_nat j) (Z.of_nat n) c0)
      = Ok (c', Z.of_nat i')
      /\ R c' l' /\ l' ≡ₚ l /\ (i <= i')%nat
      /\ (forall k, (k < i \/ n <= k)%nat -> l' !! k = l !! k)
      /\ (forall p k x y, child p k -> (k < n)%nat -> (lo <= p)%nat ->
                          k <> i ->
                          l' !! p = Some x -> l' !! k = Some y ->
                          lt y x = false)
      /\ ((i < i')%nat ->
          forall p k x y, child p k -> (k < n)%nat -> (lo <= p)%nat ->
                          l' !! p = Some x -> l' !! k = Some y ->
                          lt y x = false)
      /\ (i' = i -> l' = l /\ c' = c)).
  { intros j yj Hcj Hjn Hyj Hmin.
    pose proof (child_lt _ _ Hcj) as Hij.
    destruct (lookup_lt_is_Some_2 l i ltac:(lia)) as [x Hx].
    rewrite (R_less _ _ _ _ _ _ HR Hyj Hx). cbn.
    destruct (lt yj x) eqn:Hlt; cbn.
    2:{ exists c, l, i. repeat split; try done; [|lia].
        intros p k x' y' Hc Hk Hp Hki Hx' Hy'.
        destruct (decide (p = i)) as [->|]; [|by eapply Ha].
        assert (x' = x) as -> by congruence.
        eapply le_trans; [exact Hlt|]. by eapply Hmin. }
    destruct (R_swap _ _ _ _ _ _ HR Hx Hyj) as (c1 & -> & HR1). cbn.
    remember (<[j := x]> (<[i := yj]> l)) as l1 eqn:El1.
    assert (Hl1 : forall k, l1 !! k = if decide (k = j) then Some x
                   else if decide (k = i) then Some yj else l !! k)
      by (intros; subst l1; by apply lookup_swap).
    assert (Hlen1 : length l1 = length l)
      by (subst l1; by rewrite !length_insert).
    assert (Hperm1 : l1 ≡ₚ l) by (subst l1; by apply swap_Permutation).
    clear El1.
    destruct (IH j n lo c1 l1)
      as (c' & l' & i' & Hd & HR' & Hperm & Hle & Hagree & HP1 & HP2 & HP3);
      try done; try lia.
    - (* (a) for [l1] at [j] *)
      intros p k x' y' Hc Hk Hp Hpj Hkj. rewrite !Hl1.
      pose proof (child_lt _ _ Hc).
      rewrite (decide_False (P := p = j)) by done.
      rewrite (decide_False (P := k = j)) by done.
      destruct (decide (k = i)) as [->|Hki].
      + rewrite (decide_False (P := p = i)) by lia.
        intros Hx' [= <-]. eapply (Hb p j); try done.
      + destruct (decide (p = i)) as [->|Hpi].
        * intros [= <-] Hy'. by eapply Hmin.
        * intros. by eapply (Ha p k).
    - (* (b) for [l1] at [j] *)
      intros p k x' y' Hc1 Hp Hc2 Hk. rewrite !Hl1.
      pose proof (child_lt _ _ Hc2).
      rewrite (child_inj _ _ _ Hc1 Hcj).
      rewrite (decide_False (P := i = j)) by lia.
      rewrite (decide_True (P := i = i)) by done.
      rewrite (decide_False (P := k = j)) by lia.
      rewrite (decide_False (P := k = i)) by lia.
      intros [= <-] Hy'. eapply (Ha j k); try done; lia.
    - exists c', l', i'. repeat split; try done.
      + by rewrite Hperm.
      + lia.
      + intros k Hk. rewrite Hagree by lia. rewrite Hl1.
        rewrite decide_False by lia. by rewrite decide_False by lia.
      + intros p k x' y' Hc Hk Hp Hki.
        destruct (decide (k = j)) as [->|Hkj]; [|by eapply HP1].
        destruct (decide (j = i')) as [<-|Hji]; [|eapply HP2; try done; lia].
        destruct (HP3 eq_refl) as [-> _]. rewrite !Hl1.
        rewrite (child_inj _ _ _ Hc Hcj).
        rewrite (decide_False (P := i = j)) by lia.
        rewrite (decide_True (P := i = i)) by done.
        rewrite (decide_True (P := j = j)) by done.
        intros [= <-] [= <-]. by apply lt_asym.
      + intros _ p k x' y' Hc Hk Hp.
        destruct (decide (k = j)) as [->|Hkj]; [|by eapply HP1].
        destruct (decide (j = i')) as [<-|Hji]; [|eapply HP2; try done; lia].
        destruct (HP3 eq_refl) as [-> _]. rewrite !Hl1.
        rewrite (child_inj _ _ _ Hc Hcj).
        rewrite (decide_False (P := i = j)) by lia.
        rewrite (decide_True (P := i = i)) by done.
        rewrite (decide_True (P := j = j)) by done.
        intros [= <-] [= <-]. by apply lt_asym.
      + lia.
      + lia. }
  destruct (lookup_lt_is_Some_2 l (2 * i + 1) ltac:(lia)) as [y1 Hy1].
  destruct (Z.of_nat (2 * i + 2) <? Z.of_nat n) eqn:E2.
  - apply Z.ltb_lt in E2.
    destruct (lookup_lt_is_Some_2 l (2 * i + 2) ltac:(lia)) as [y2 Hy2].
    rewrite (R_less _ _ _ _ _ _ HR Hy2 Hy1). cbn.
    destruct (lt y2 y1) eqn:H21.
    + apply (Hrest (2 * i + 2)%nat y2); try done;
        [by right|lia|].
      intros k y' [->| ->] Hk Hy'.
      * assert (y' = y1) as -> by congruence. by apply lt_asym.
      * assert (y' = y2) as -> by congruence. apply lt_irrefl.
    + apply (Hrest (2 * i + 1)%nat y1); try done;
        [by left|lia|].
      intros k y' [->| ->] Hk Hy'.
      * assert (y' = y1) as -> by congruence. apply lt_irrefl.
      * assert (y' = y2) as -> by congruence. done.
  - apply Z.ltb_ge in E2. cbn.
    apply (Hrest (2 * i + 1)%nat y1); try done; [by left|lia|].
    intros k y' [->| ->] Hk Hy'; [|lia].
    assert (y' = y1) as -> by congruence. apply lt_irrefl.
Qed.

Lemma heap_upto_take n (l : list T) :
  heap_upto n l -> heap_ordered (take n l).
Proof.
  intros Hh p k x y Hc Hk Hx Hy.
  pose proof (child_lt _ _ Hc).
  apply lookup_lt_Some in Hy as Hk'. rewrite length_take in Hk'.
  rewrite lookup_take_lt in Hx by lia. rewrite lookup_take_lt in Hy by lia.
  eapply Hh; try done; lia.
Qed.

Lemma snoc_last (l : list T) n x :
  length l = S n -> l !! n = Some x -> l = take n l ++ [x].
Proof.
  intros Hlen Hx. rewrite <- (take_drop n l) at 1. f_equal.
  apply list_eq. intros [|k].
  - by rewrite lookup_drop, Nat.add_0_r.
  - rewrite lookup_drop. cbn. apply lookup_ge_None_2. lia.
Qed.

(** the root of a heap is a least element *)
Lemma root_min (l : list T) x0 :
  heap_ordered l -> l !! 0%nat = Some x0 ->
  forall k y, l !! k = Some y -> lt y x0 = false.
Proof using lt_sw.
  intros Hh H0 k. induction (lt_wf k) as [k _ IH]. intros y Hy.
  destruct (decide (k = 0)%nat) as [->|Hk].
  - assert (y = x0) as -> by congruence. apply lt_irrefl.
  - pose proof (parent_child k ltac:(lia)) as Hc.
    pose proof (child_lt _ _ Hc) as Hlt.
    apply lookup_lt_Some in Hy as Hk'.
    destruct (lookup_lt_is_Some_2 l ((k - 1) / 2) ltac:(lia)) as [x Hx].
    eapply le_trans; [by eapply IH|]. by eapply (Hh _ k).
Qed.

(** one element of a heap replaced: what the two sifts start from *)
Lemma replaced_pre (l0 l : list T) n i :
  heap_upto n l0 -> (i < n)%nat -> (n <= length l0)%nat ->
  (forall k, (k < n)%nat -> k <> i -> l !! k = l0 !! k) ->
  (forall p k x y, child p k -> (k < n)%nat -> p <> i -> k <> i ->
                   l !! p = Some x -> l !! k = Some y -> lt y x = false)
  /\ (forall p k x y, child p i -> child i k -> (k < n)%nat ->
                      l !! p = Some x -> l !! k = Some y -> lt y x = false).
Proof using lt_sw.
  intros Hh Hi Hn Hag. split.
  - intros p k x y Hc Hk Hp Hki. pose proof (child_lt _ _ Hc).
    rewrite !Hag by lia. by eapply Hh.
  - intros p k x y Hc1 Hc2 Hk.
    pose proof (child_lt _ _ Hc1). pose proof (child_lt _ _ Hc2).
    rewrite !Hag by lia. intros Hx Hy.
    destruct (lookup_lt_is_Some_2 l0 i ltac:(lia)) as [z Hz].
    eapply le_trans; [eapply (Hh p i x z); try done; lia|].
    by eapply (Hh i k).
Qed.

(** [if (!this._down(i, n)) this._up(i)], as [remove] and [fix] run it *)
Lemma sift_spec c (l : list T) n i :
  R c l -> (i < n)%nat -> (n <= length l)%nat ->
  (forall p k x y, child p k -> (k < n)%nat -> p <> i -> k <> i ->
                   l !! p = Some x -> l !! k = Some y -> lt y x = false) ->
  (forall p k x y, child p i -> child i k -> (k < n)%nat ->
                   l !! p = Some x -> l !! k = Some y -> lt y x = false) ->
  exists c' l',
    ('(c1, moved) ← Heap._down K (Z.of_nat i) (Z.of_nat n) c;
     if negb (moved : bool) then Heap._up K (Z.of_nat i) c1 else Ok c1)
    = Ok c'
    /\ R c' l' /\ l' ≡ₚ l
    /\ (forall k, (n <= k)%nat -> l' !! k = l !! k)
    /\ heap_upto n l'.
Proof using lt_sw R_less R_swap.
  intros HR Hi Hn Ha Hb. unfold Heap._down, Heap._down_fuel.
  destruct (_down_loop_spec (S (Z.to_nat (Z.of_nat n))) i n 0%nat c l)
    as (c1 & l1 & i' & -> & HR1 & Hperm1 & Hle & Hag1 & HP1 & HP2 & HP3);
    try done; try lia.
  { intros. by eapply Ha. }
  { intros. by eapply Hb. }
  cbn -[Heap._up]. destruct (Z.of_nat i <? Z.of_nat i') eqn:E; cbn -[Heap._up].
  - apply Z.ltb_lt in E. exists c1, l1. repeat split; try done.
    + intros k Hk. apply Hag1. lia.
    + intros p k x y Hc Hk. eapply HP2; try done; lia.
  - apply Z.ltb_ge in E. assert (i' = i) as -> by lia.
    destruct (HP3 eq_refl) as [-> ->].
    unfold Heap._up, Heap._up_fuel.
    destruct (_up_loop_spec (S (S (Z.to_nat (Z.of_nat i)))) i n c l)
      as (c2 & l2 & -> & HR2 & Hperm2 & Hag2 & Hh2); try done; try lia.
    { intros p k x y Hc Hk Hki. eapply HP1; try done; lia. }
    exists c2, l2. repeat split; try done.
    intros k Hk. apply Hag2. lia.
Qed.

(** [push(x)] *)
Lemma push_spec c (l : list T) x :
  R c l -> heap_ordered l ->
  exists c' l', Heap.push K x c = Ok c' /\ R c' l'
                /\ l' ≡ₚ x :: l /\ heap_ordered l'.
Proof using lt_sw R_size R_less R_swap R_pushBack.
  intros HR Hh. unfold Heap.push.
  pose proof (R_pushBack _ _ x HR) as HR1.
  rewrite (R_size _ _ HR1). rewrite length_app. cbn [length].
  replace (Z.of_nat (length l + 1) - 1) with (Z.of_nat (length l)) by lia.
  unfold Heap._up, Heap._up_fuel.
  destruct (_up_loop_spec (S (S (Z.to_nat (Z.of_nat (length l)))))
              (length l) (S (length l)) (pushBack K x c) (l ++ [x]))
    as (c' & l' & -> & HR' & Hperm & _ & Hh'); try done; try lia.
  - rewrite length_app. cbn. lia.
  - intros p k x' y' Hc Hk Hkl. pose proof (child_lt _ _ Hc).
    rewrite !lookup_app_l by lia. apply Hh; try done; lia.
  - intros p k x' y' _ Hc Hk. apply child_lt in Hc. lia.
  - exists c', l'. repeat split; try done.
    + rewrite Hperm. by rewrite Permutation_app_comm.
    + unfold HeapOrder.heap_ordered.
      rewrite (Permutation_length Hperm), length_app. cbn [length].
      by replace (length l + 1)%nat with (S (length l)) by lia.
Qed.

(** [pop()] on a heap that is not empty *)
Lemma pop_spec c x0 (l0 : list T) :
  R c (x0 :: l0) -> heap_ordered (x0 :: l0) ->
  exists c' l', Heap.pop K c = Ok (c', Some x0) /\ R c' l'
                /\ l' ≡ₚ l0 /\ heap_ordered l'
                /\ Forall (fun y => lt y x0 = false) l0.
Proof using lt_sw R_size R_less R_swap R_popBack.
  intros HR Hh. unfold Heap.pop. rewrite (R_size _ _ HR). cbn [length].
  replace (Z.of_nat (S (length l0)) - 1) with (Z.of_nat (length l0)) by lia.
  set (n := length l0). set (l := x0 :: l0) in *.
  destruct (lookup_lt_is_Some_2 l n ltac:(cbn; lia)) as [z Hz].
  assert (H0 : l !! 0%nat = Some x0) by done.
  destruct (R_swap _ _ _ _ _ _ HR H0 Hz) as (c1 & Hs & HR1).
  change (Z.of_nat 0) with 0 in Hs. rewrite Hs. cbn -[Heap._down].
  remember (<[n := x0]> (<[0%nat := z]> l)) as l1 eqn:El1.
  assert (Hl1 : forall k, l1 !! k = if decide (k = n) then Some x0
                 else if decide (k = 0%nat) then Some z else l !! k)
    by (intros; subst l1; by apply lookup_swap).
  assert (Hlen1 : length l1 = S n)
    by (subst l1; by rewrite !length_insert).
  assert (Hperm1 : l1 ≡ₚ l) by (subst l1; by apply swap_Permutation).
  clear El1.
  unfold Heap._down, Heap._down_fuel.
  destruct (_down_loop_spec (S (Z.to_nat (Z.of_nat n))) 0%nat n 0%nat c1 l1)
    as (c2 & l2 & i' & Hd & HR2 & Hperm2 & _ & Hag2 & HP1 & _ & _);
    try done; try lia.
  { intros p k x y Hc Hk _ Hp Hki. pose proof (child_lt _ _ Hc).
    rewrite !Hl1. rewrite !(decide_False (P := _ = n)) by lia.
    rewrite !(decide_False (P := _ = 0%nat)) by lia.
    apply Hh; try done. cbn. lia. }
  { intros p k x y Hc. apply child_lt in Hc. lia. }
  change (Z.of_nat 0) with 0 in Hd. rewrite Hd. cbn.
  assert (Hlen2 : length l2 = S n)
    by (by rewrite (Permutation_length Hperm2)).
  assert (Hx2 : l2 !! n = Some x0).
  { rewrite Hag2 by lia. rewrite Hl1. by rewrite decide_True. }
  pose proof (snoc_last _ _ _ Hlen2 Hx2) as Esnoc.
  rewrite Esnoc in HR2.
  destruct (R_popBack _ _ _ HR2) as (c3 & -> & HR3).
  exists c3, (take n l2). repeat split; try done.
  - apply (Permutation_cons_inv (a := x0)).
    rewrite Permutation_cons_append, <- Esnoc. by rewrite Hperm2.
  - apply heap_upto_take. intros p k x y Hc Hk.
    apply HP1; try done; try lia. apply child_lt in Hc. lia.
  - apply Forall_lookup. intros k y Hk.
    by apply (root_min l x0 Hh H0 (S k)).
Qed.

Lemma init_loop_spec (k : nat) : forall c (l : list T),
  R c l ->
  (forall p k' x y, child p k' -> (k' < length l)%nat -> (k <= p)%nat ->
                    l !! p = Some x -> l !! k' = Some y -> lt y x = false) ->
  exists c' l',
    Heap.init_loop K k (Z.of_nat (length l)) c = Ok c'
    /\ R c' l' /\ l' ≡ₚ l /\ heap_ordered l'.
Proof using lt_sw R_less R_swap.
  induction k as [|k IH]; intros c l HR Hk.
  - exists c, l. repeat split; try done.
    intros p k' x y Hc Hk'. apply Hk; try done. lia.
  - cbn [Heap.init_loop]. unfold Heap._down, Heap._down_fuel.
    destruct (_down_loop_spec (S (Z.to_nat (Z.of_nat (length l))))
                k (length l) k c l)
      as (c1 & l1 & i' & -> & HR1 & Hperm1 & _ & _ & HP1 & _ & _);
      try done; try lia.
    { intros p k' x y Hc Hk' Hp Hpk _. apply Hk; try done. lia. }
    { intros p k' x y Hc Hp. apply child_lt in Hc. lia. }
    cbn. rewrite <- (Permutation_length Hperm1).
    destruct (IH c1 l1 HR1) as (c' & l' & -> & HR' & Hperm & Hh').
    { intros p k' x y Hc Hk' Hp.
      apply HP1; try done; [by rewrite <- (Permutation_length Hperm1)|].
      apply child_lt in Hc. lia. }
    exists c', l'. repeat split; try done. by rewrite Hperm.
Qed.

(** [init()] *)
Lemma init_spec c (l : list T) :
  R c l ->
  exists c' l', Heap.init K c = Ok c' /\ R c' l'
                /\ l' ≡ₚ l /\ heap_ordered l'.
Proof using lt_sw R_size R_less R_swap.
  intros HR. unfold Heap.init. rewrite (R_size _ _ HR).
  apply init_loop_spec; [done|].
  intros p k x y Hc Hk Hp. exfalso.
  rewrite Z.shiftr_div_pow2 in Hp by lia. change (2 ^ 1) with 2 in Hp.
  assert (Z.of_nat (length l) / 2 <= Z.of_nat p) by lia.
  pose proof (Z.div_mod (Z.of_nat (length l)) 2 ltac:(lia)).
  pose proof (Z.mod_pos_bound (Z.of_nat (length l)) 2 ltac:(lia)).
  unfold HeapOrder.child in Hc. lia.
Qed.

(** [remove(i)] for an index in range *)
Lemma remove_spec c (l : list T) i x :
  R c l -> heap_ordered l -> l !! i = Some x ->
  exists c' l', Heap.remove K (Z.of_nat i) c = Ok (c', Some x) /\ R c' l'
                /\ x :: l' ≡ₚ l /\ heap_ordered l'.
Proof using lt_sw R_size R_less R_swap R_popBack.
  intros HR Hh Hx. unfold Heap.remove. rewrite (R_size _ _ HR).
  apply lookup_lt_Some in Hx as Hi.
  set (n := (length l - 1)%nat).
  replace (Z.of_nat (length l) - 1) with (Z.of_nat n) by lia.
  assert (Hfin : forall c2 l2,
    R c2 l2 -> l2 ≡ₚ l -> l2 !! n = Some x -> heap_upto n l2 ->
    exists c' l', Ok (popBack K c2) = Ok (c', Some x) /\ R c' l'
                  /\ x :: l' ≡ₚ l /\ heap_ordered l').
  { intros c2 l2 HR2 Hperm2 Hx2 Hh2.
    assert (Hlen2 : length l2 = S n)
      by (rewrite (Permutation_length Hperm2); lia).
    pose proof (snoc_last _ _ _ Hlen2 Hx2) as Esnoc.
    rewrite Esnoc in HR2.
    destruct (R_popBack _ _ _ HR2) as (c3 & -> & HR3).
    exists c3, (take n l2). repeat split; try done.
    - by rewrite Permutation_cons_append, <- Esnoc.
    - by apply heap_upto_take. }
  destruct (Z.of_nat n =? Z.of_nat i) eqn:E; cbn -[Heap._down Heap._up].
  - apply Z.eqb_eq in E. assert (i = n) as -> by lia.
    apply (Hfin c l); try done.
    intros p k x' y' Hc Hk. apply Hh; try done. lia.
  - apply Z.eqb_neq in E.
    destruct (lookup_lt_is_Some_2 l n ltac:(lia)) as [z Hz].
    destruct (R_swap _ _ _ _ _ _ HR Hx Hz) as (c1 & -> & HR1).
    cbn -[Heap._down Heap._up].
    remember (<[n := x]> (<[i := z]> l)) as l1 eqn:El1.
    assert (Hl1 : forall k, l1 !! k = if decide (k = n) then Some x
                   else if decide (k = i) then Some z else l !! k)
      by (intros; subst l1; by apply lookup_swap).
    assert (Hlen1 : length l1 = length l)
      by (subst l1; by rewrite !length_insert).
    assert (Hperm1 : l1 ≡ₚ l) by (subst l1; by apply swap_Permutation).
    clear El1.
    destruct (replaced_pre l l1 n i) as [Ha Hb]; try done; try lia.
    { intros p k x' y' Hc Hk. apply Hh; try done. lia. }
    { intros k Hk Hki. rewrite Hl1.
      rewrite decide_False by lia. by rewrite decide_False. }
    destruct (sift_spec c1 l1 n i) as (c2 & l2 & Hs & HR2 & Hperm2 & Hag2 & Hh2);
      try done; try lia.
    rewrite Hs. cbn.
    apply (Hfin c2 l2); try done.
    + by rewrite Hperm2.
    + rewrite Hag2 by lia. rewrite Hl1. by rewrite decide_True.
Qed.

(** [fix(i)] after the element at [i] of a heap was replaced *)
Lemma fix_spec c (l0 l : list T) i :
  R c l -> heap_ordered l0 -> (i < length l0)%nat ->
  length l = length l0 ->
  (forall k, k <> i -> l !! k = l0 !! k) ->
  exists c' l', Heap.fix_ K (Z.of_nat i) c = Ok c' /\ R c' l'
                /\ l' ≡ₚ l /\ heap_ordered l'.
Proof using lt_sw R_size R_less R_swap.
  intros HR Hh Hi Hlen Hag. unfold Heap.fix_. rewrite (R_size _ _ HR).
  destruct (replaced_pre l0 l (length l0) i) as [Ha Hb]; try done.
  { intros k _ Hk. by apply Hag. }
  rewrite Hlen.
  destruct (sift_spec c l (length l0) i)
    as (c2 & l2 & Hs & HR2 & Hperm2 & _ & Hh2); try done; try lia.
  exists c2, l2. repeat split; try done.
  unfold HeapOrder.heap_ordered.
  by rewrite (Permutation_length Hperm2), Hlen.
Qed.
End heap_correct.

(** *** The [Array] container *)

Section array_holds.
Context {T : Type} (js_lt : option T -> option T -> bool).
Context (lt : T -> T -> bool).

#[local] Abbreviation holds := (HeapOrder.holds js_lt lt).
#[local] Abbreviation KA := (Array.container js_lt).

Lemma dense_get (l : list T) (p : gmap Z (option T)) i x :
  l !! i = Some x -> JsArray.get (Z.of_nat i) (JsArray.mk (Some <$> l) p) = Some x.
Proof.
  intros Hx. unfold JsArray.get. cbn [JsArray.items].
  destruct (Z.of_nat i <? 0) eqn:E; [apply Z.ltb_lt in E; lia|].
  by rewrite Nat2Z.id, list_lookup_fmap, Hx.
Qed.

Lemma dense_set (l : list T) (p : gmap Z (option T)) i x :
  (i < length l)%nat ->
  JsArray.set (Z.of_nat i) (Some x) (JsArray.mk (Some <$> l) p)
  = JsArray.mk (Some <$> <[i := x]> l) p.
Proof.
  intros Hi. unfold JsArray.set, JsArray.length. cbn [JsArray.items JsArray.props].
  destruct (Z.of_nat i <? 0) eqn:E; [apply Z.ltb_lt in E; lia|].
  rewrite length_fmap.
  destruct (Z.of_nat i <? Z.of_nat (length l)) eqn:E2;
    [|apply Z.ltb_ge in E2; lia].
  by rewrite Nat2Z.id, list_fmap_insert.
Qed.

Lemma dense_pop (l : list T) (p : gmap Z (option T)) x :
  JsArray.pop (JsArray.mk (Some <$> (l ++ [x])) p)
  = (JsArray.mk (Some <$> l) p, Some x).
Proof.
  unfold JsArray.pop. cbn [JsArray.items JsArray.props].
  rewrite fmap_app. cbn [fmap list_fmap].
  destruct ((Some <$> l) ++ [Some x]) eqn:E;
    [by destruct (Some <$> l)|].
  rewrite <- E. by rewrite removelast_last, last_snoc.
Qed.

Lemma holds_size a l : holds a l -> size KA a = Z.of_nat (length l).
Proof.
  intros [Hi _]. cbn. unfold Array.size, JsArray.length.
  by rewrite Hi, length_fmap.
Qed.

Lemma holds_less a l i j x y :
  holds a l -> l !! i = Some x -> l !! j = Some y ->
  less KA (Z.of_nat i) (Z.of_nat j) a = Ok (lt x y).
Proof.
  intros [Hi Hc] Hx Hy. cbn. unfold Array.less.
  destruct a as [[items p] f]. cbn in *. subst items.
  rewrite (dense_get _ _ _ _ Hx), (dense_get _ _ _ _ Hy). apply Hc.
Qed.

Lemma holds_swap a l i j x y :
  holds a l -> l !! i = Some x -> l !! j = Some y ->
  exists a', swap KA (Z.of_nat i) (Z.of_nat j) a = Ok a'
             /\ holds a' (<[j := x]> (<[i := y]> l)).
Proof.
  intros [Hi Hc] Hx Hy. eexists. split; [reflexivity|].
  destruct a as [[items p] f]. cbn in *. subst items. split; [|done].
  unfold Array.swap. cbn [Array.elems].
  rewrite (dense_get _ _ _ _ Hx), (dense_get _ _ _ _ Hy).
  rewrite dense_set by (by eapply lookup_lt_Some).
  rewrite dense_set; [done|].
  rewrite length_insert. by eapply lookup_lt_Some.
Qed.

Lemma holds_pushBack a l x : holds a l -> holds (pushBack KA x a) (l ++ [x]).
Proof.
  intros [Hi Hc]. split; [|done]. cbn. by rewrite Hi, fmap_app.
Qed.

Lemma holds_popBack a l x :
  holds a (l ++ [x]) -> exists a', popBack KA a = (a', Some x) /\ holds a' l.
Proof.
  intros [Hi Hc]. destruct a as [[items p] f]. cbn in *. subst items.
  unfold Array.popBack. cbn [Array.elems Array.lessFn].
  rewrite dense_pop. eexists. split; [reflexivity|]. by split.
Qed.
End array_holds.

Lemma Zltb_strict_weak : HeapOrder.strict_weak Z.ltb.
Proof.
  split.
  - intros x y H. apply Z.ltb_lt in H. apply Z.ltb_ge. lia.
  - intros x y z H1 H2. apply Z.ltb_ge in H1, H2. apply Z.ltb_ge. lia.
Qed.

Lemma numbers_hold (l : list Z) :
  HeapOrder.holds HeapOrder.number_lt Z.ltb (Array.new (Some l) None) l.
Proof. by split. Qed.

(** settles [heap_upto] on a list that is given *)
Ltac heap_check :=
  intros i k x y [->| ->] Hk Hx Hy;
  repeat (try done; try (cbn in Hk; lia);
          destruct i as [|i]; cbn in Hx, Hy; simplify_eq).



(** X2.  [pop()] on a heap over the [Array] container that is in heap
    order and not empty returns the element at the root, which no other
    element is less than; the container then holds the other elements, in
    heap order. *)
Theorem Array_heap_pop_returns_least {T : Type}
    (js_lt : option T -> option T -> bool) (lt : T -> T -> bool)
    (a : Array.t T) (x0 : T) (l0 : list T) :
  HeapOrder.strict_weak lt ->
  HeapOrder.holds js_lt lt a (x0 :: l0) ->
  HeapOrder.heap_ordered lt (x0 :: l0) ->
  exists a' l',
    Heap.pop (Array.container js_lt) a = Ok (a', Some x0)
    /\ HeapOrder.holds js_lt lt a' l'
    /\ l' ≡ₚ l0
    /\ HeapOrder.heap_ordered lt l'
    /\ Forall (fun y => lt y x0 = false) l0.
Proof.
  intros Hsw Hh Ho.
  by apply (pop_spec (Array.container js_lt) lt (HeapOrder.holds js_lt lt)
             Hsw (holds_size js_lt lt) (holds_less js_lt lt)
             (holds_swap js_lt lt) (holds_popBack js_lt lt)).
Qed.

Lemma Array_heap_pop_returns_least_witness :
  exists a' l',
    Heap.pop (Array.container HeapOrder.number_lt) HeapOrder.numbers_132
    = Ok (a', Some 1)
    /\ HeapOrder.holds HeapOrder.number_lt Z.ltb a' l'
    /\ l' ≡ₚ [3; 2]
    /\ HeapOrder.heap_ordered Z.ltb l'
    /\ Forall (fun y => (y <? 1) = false) [3; 2].
Proof.
  apply (Array_heap_pop_returns_least HeapOrder.number_lt Z.ltb
           HeapOrder.numbers_132 1 [3; 2]).
  - apply Zltb_strict_weak.
  - apply numbers_hold.
  - heap_check.
Defined.







(** *** The timers of the [Director]

    Here the write to [Timer.id] in [Map.swap] is ignored (code that is
    not strict): the timers are then moved as the [Array] container moves
    its elements. *)

Section timers_hold.
#[local] Abbreviation holds_timers := HeapOrder.holds_timers.
#[local] Abbreviation KT := (Director.K false).

Lemma timer_lt_strict_weak : HeapOrder.strict_weak HeapOrder.timer_lt.
Proof.
  unfold HeapOrder.timer_lt. split.
  - intros x y H. apply Qltb_true in H. apply Qltb_false.
    by apply Qlt_le_weak.
  - intros x y z H1 H2. apply Qltb_false in H1, H2. apply Qltb_false.
    by eapply Qle_trans.
Qed.

Lemma timers_size m l : holds_timers m l -> size KT m = Z.of_nat (length l).
Proof.
  intros [Hi _]. cbn. unfold Map.size, Array.size, JsArray.length. cbn.
  by rewrite Hi, length_fmap.
Qed.

Lemma timers_get m l i x :
  holds_timers m l -> l !! i = Some x -> get KT (Z.of_nat i) m = Some x.
Proof.
  intros [Hi _] Hx. destruct m as [[items p] f ix]. cbn in *. subst items.
  unfold Map.get, Array.get. cbn. by apply dense_get.
Qed.

Lemma timers_less m l i j x y :
  holds_timers m l -> l !! i = Some x -> l !! j = Some y ->
  less KT (Z.of_nat i) (Z.of_nat j) m = Ok (HeapOrder.timer_lt x y).
Proof.
  intros [Hi Hf] Hx Hy. destruct m as [[items p] f ix]. cbn in *. subst.
  unfold Map.less, Array.less. cbn.
  by rewrite (dense_get _ _ _ _ Hx), (dense_get _ _ _ _ Hy).
Qed.

Lemma assign_id_ignored (l : list Timer.t) p i x :
  l !! i = Some x ->
  @Map.assign_id _ (Timer.identifiable false) (Z.of_nat i)
    (JsArray.mk (Some <$> l) p)
  = Ok (JsArray.mk (Some <$> l) p).
Proof.
  intros Hx. unfold Map.assign_id. rewrite (dense_get _ _ _ _ Hx). cbn.
  rewrite dense_set by (by eapply lookup_lt_Some).
  by rewrite list_insert_id.
Qed.

Lemma timers_swap m l i j x y :
  holds_timers m l -> l !! i = Some x -> l !! j = Some y ->
  exists m', swap KT (Z.of_nat i) (Z.of_nat j) m = Ok m'
             /\ holds_timers m' (<[j := x]> (<[i := y]> l)).
Proof.
  intros [Hi Hf] Hx Hy. destruct m as [[items p] f ix]. cbn in *. subst.
  unfold Map.swap. cbn [Map.elems Map.lessFn Map.indices].
  rewrite (dense_get _ _ _ _ Hx), (dense_get _ _ _ _ Hy).
  rewrite dense_set by (by eapply lookup_lt_Some).
  rewrite dense_set by (rewrite length_insert; by eapply lookup_lt_Some).
  set (l2 := <[j := x]> (<[i := y]> l)).
  destruct (lookup_lt_is_Some_2 l2 i) as [xi Hxi].
  { unfold l2. rewrite !length_insert. by eapply lookup_lt_Some. }
  destruct (lookup_lt_is_Some_2 l2 j) as [xj Hxj].
  { unfold l2. rewrite !length_insert. by eapply lookup_lt_Some. }
  rewrite (assign_id_ignored _ _ _ _ Hxi). cbn.
  rewrite (assign_id_ignored _ _ _ _ Hxj). cbn.
  eexists. split; [reflexivity|]. by split.
Qed.

Lemma timers_pushBack m l x :
  holds_timers m l -> holds_timers (pushBack KT x m) (l ++ [x]).
Proof.
  intros [Hi Hf]. split; [|done]. cbn. by rewrite Hi, fmap_app.
Qed.

Lemma timers_popBack m l x :
  holds_timers m (l ++ [x]) ->
  exists m', popBack KT m = (m', Some x) /\ holds_timers m' l.
Proof.
  intros [Hi Hf]. destruct m as [[items p] f ix]. cbn in *. subst.
  unfold Map.popBack. cbn [Map.elems Map.lessFn Map.indices].
  rewrite dense_pop. eexists. split; [reflexivity|]. by split.
Qed.
End timers_hold.

Lemma sorted_cons_perm {T : Type} (lt : T -> T -> bool) x (l l' : list T) :
  Forall (fun y => lt y x = false) l -> l' ⊆ l ->
  Forall (fun y => lt y x = false) l'.
Proof.
  rewrite !Forall_forall. intros H Hsub y Hy. apply H. by apply Hsub.
Qed.

(** a pass over one-shot timers, for any fuel above their number *)
Lemma timeouts_pass (now : Q) (n : nat) : forall (d : Director.t) l fuel,
  length l = n -> (n < fuel)%nat ->
  HeapOrder.holds_timers (Director.timers d) l ->
  HeapOrder.heap_ordered HeapOrder.timer_lt l ->
  Forall (fun tm => Timer.once tm = true) l ->
  exists d' fired rest,
    Director.scheduleTimers false fuel now d = Ok d'
    /\ Director.calls d' = Director.calls d ++ (Timer.handler <$> fired)
    /\ Director.nextId d' = Director.nextId d
    /\ HeapOrder.holds_timers (Director.timers d') rest
    /\ HeapOrder.heap_ordered HeapOrder.timer_lt rest
    /\ fired ++ rest ≡ₚ l
    /\ HeapOrder.sorted HeapOrder.timer_lt fired
    /\ Forall (fun tm => (Timer.next tm <= now)%Q) fired
    /\ Forall (fun tm => (now < Timer.next tm)%Q) rest.
Proof.
  induction n as [|n IH]; intros d l fuel Hlen Hfuel Hh Ho Honce;
    (destruct fuel as [|fuel]; [lia|]); cbn [Director.scheduleTimers];
    unfold Director.scheduleTimers_round;
    rewrite (timers_size _ _ Hh), Hlen.
  - cbn. destruct l; [|done]. exists d, [], [].
    split; [done|]. split; [by rewrite app_nil_r|].
    repeat (split; [done|]). done.
  - destruct l as [|x0 l0]; [done|]. cbn in Hlen.
    replace (0 <? Z.of_nat (S n)) with true by (symmetry; apply Z.ltb_lt; lia).
    change 0 with (Z.of_nat 0) at 1.
    rewrite (timers_get _ _ 0 x0 Hh eq_refl).
    destruct (Qltb now (Timer.next x0)) eqn:Edue.
    + cbn. apply Qltb_true in Edue.
      exists d, [], (x0 :: l0).
      split; [done|]. split; [by rewrite app_nil_r|].
      repeat (split; [done|]).
      apply Forall_lookup. intros k y Hy.
      pose proof (root_min HeapOrder.timer_lt timer_lt_strict_weak
                    (x0 :: l0) x0 Ho eq_refl k y Hy) as Hmin.
      apply Qltb_false in Hmin. by eapply Qlt_le_trans.
    + apply Qltb_false in Edue.
      destruct (pop_spec (Director.K false) HeapOrder.timer_lt
                  HeapOrder.holds_timers timer_lt_strict_weak
                  timers_size timers_less timers_swap timers_popBack
                  (Director.timers d) x0 l0 Hh Ho)
        as (c' & l' & -> & Hh' & Hperm & Ho' & Hmin).
      cbn -[Director.scheduleTimers].
      apply Forall_cons in Honce as [Hx0 Honce]. rewrite Hx0.
      cbn -[Director.scheduleTimers].
      destruct (IH (Director.mk c' (Director.nextId d)
                      (Handler.call (Timer.handler x0) (Director.calls d)))
                  l' fuel)
        as (d' & fired & rest & -> & Hcalls & Hid & Hhr & Hor & Hp & Hs
            & Hf & Hr); try done; try lia.
      { rewrite (Permutation_length Hperm). lia. }
      { by rewrite Hperm. }
      exists d', (x0 :: fired), rest.
      split; [done|]. split.
      { rewrite Hcalls. cbn. unfold Handler.call. by rewrite <- app_assoc. }
      split; [done|]. split; [done|]. split; [done|]. split.
      { cbn. by rewrite Hp, Hperm. }
      split; [|split; [by apply Forall_cons|done]].
      split; [|done].
      eapply sorted_cons_perm; [exact Hmin|].
      intros y Hy. rewrite <- Hperm, <- Hp. apply elem_of_app. by left.
Qed.







(** ** Properties of the reader *)

Section reader_props.
Import Reader.

Lemma le_value_bounds (bs : list Byte.byte) :
  0 <= DataView.le_value bs < 256 ^ Z.of_nat (length bs).
Proof.
  induction bs as [|b bs IH]; [cbn; lia|].
  cbn [DataView.le_value length].
  pose proof (Byte.to_N_bounded b) as Hb.
  rewrite Nat2Z.inj_succ, Z.pow_succ_r by lia. lia.
Qed.

Lemma unsigned_bounds little (bs : list Byte.byte) :
  0 <= DataView.unsigned little bs < 256 ^ Z.of_nat (length bs).
Proof.
  unfold DataView.unsigned. destruct little; [apply le_value_bounds|].
  rewrite <- length_rev. apply le_value_bounds.
Qed.

Lemma bytes_at_length v off n bs :
  DataView.bytes_at v off n = Some bs -> (length bs <= n)%nat.
Proof.
  unfold DataView.bytes_at. case_match; [done|]. intros [= <-].
  rewrite length_take. lia.
Qed.

(** the bytes are there exactly when the place is inside the view *)
Lemma bytes_at_is_Some v off n :
  is_Some (DataView.bytes_at v off n)
  <-> 0 <= off /\ off + Z.of_nat n <= DataView.byteLength v.
Proof.
  unfold DataView.bytes_at.
  destruct (off <? 0) eqn:E1; cbn.
  - apply Z.ltb_lt in E1. split; [by intros [? ?]|lia].
  - apply Z.ltb_ge in E1.
    destruct (DataView.byteLength v <? off + Z.of_nat n) eqn:E2.
    + apply Z.ltb_lt in E2. split; [by intros [? ?]|lia].
    + apply Z.ltb_ge in E2. split; [lia|by eexists].
Qed.

Lemma bits_width bits :
  width bits <> 0 -> bits = 8 \/ bits = 16 \/ bits = 32 \/ bits = 64.
Proof.
  unfold width.
  destruct (bits =? 8) eqn:E8; [apply Z.eqb_eq in E8; lia|].
  destruct (bits =? 16) eqn:E16; [apply Z.eqb_eq in E16; lia|].
  destruct (bits =? 32) eqn:E32; [apply Z.eqb_eq in E32; lia|].
  destruct (bits =? 64) eqn:E64; [apply Z.eqb_eq in E64; lia|].
  cbn. lia.
Qed.

Lemma one_peek unsigned bits r :
  width bits <> 0 ->
  one unsigned bits r
  = match peek unsigned bits r with
    | Some v => Normal (Some v) (advance (width bits) r)
    | None => RangeError tt r
    end.
Proof.
  intros Hw. destruct (bits_width _ Hw) as [->|[->|[->| ->]]];
    destruct unsigned; cbn;
    unfold readInt8, readInt16, readInt32, readInt64, readUint8,
      readUint16, readUint32, readUint64, reading, getUint64, getInt64;
    case_match; reflexivity.
Qed.

Lemma peek_is_Some unsigned bits r :
  width bits <> 0 ->
  is_Some (peek unsigned bits r)
  <-> 0 <= _offset r
      /\ _offset r + width bits <= DataView.byteLength (_view r).
Proof.
  intros Hw.
  assert (Hg : forall n little,
    is_Some (DataView.getInt n (_view r) (_offset r) little)
    <-> is_Some (DataView.bytes_at (_view r) (_offset r) n)).
  { intros. unfold DataView.getInt, DataView.getUint.
    by rewrite !fmap_is_Some. }
  assert (Hu : forall n little,
    is_Some (DataView.getUint n (_view r) (_offset r) little)
    <-> is_Some (DataView.bytes_at (_view r) (_offset r) n)).
  { intros. unfold DataView.getUint. by rewrite !fmap_is_Some. }
  destruct (bits_width _ Hw) as [->|[->|[->| ->]]];
    destruct unsigned; cbn;
    unfold getInt8, getInt16, getInt32, getInt64, getUint8, getUint16,
      getUint32, getUint64;
    rewrite ?Hg, ?Hu, bytes_at_is_Some; reflexivity.
Qed.

Lemma one_no_case unsigned bits r :
  width bits = 0 -> one unsigned bits r = Normal None r.
Proof.
  unfold width, one, readInt, readUint.
  destruct (bits =? 8) eqn:E8;
    [apply Z.eqb_eq in E8; subst; intros H; by vm_compute in H|].
  destruct (bits =? 16) eqn:E16;
    [apply Z.eqb_eq in E16; subst; intros H; by vm_compute in H|].
  destruct (bits =? 32) eqn:E32;
    [apply Z.eqb_eq in E32; subst; intros H; by vm_compute in H|].
  destruct (bits =? 64) eqn:E64;
    [apply Z.eqb_eq in E64; subst; intros H; by vm_compute in H|].
  by destruct unsigned.
Qed.

Lemma filling_app {V : Type} (f : t -> completion V unit) (n m : nat) :
  forall dst r,
    filling f (n + m) dst r
    = match filling f n dst r with
      | Normal d r' => filling f m d r'
      | RangeError d r' => RangeError d r'
      end.
Proof.
  induction n as [|n IH]; intros dst r; [done|].
  cbn [Nat.add filling]. destruct (f r); [apply IH|done].
Qed.

Lemma advance_advance j k r : advance k (advance j r) = advance (j + k) r.
Proof. unfold advance. cbn. f_equal. lia. Qed.

Lemma advance_0 r : advance 0 r = r.
Proof. destruct r. unfold advance. cbn. f_equal. lia. Qed.

(** the loop, when the [n] values are all inside the view *)
Lemma filling_enough unsigned bits (n : nat) : forall dst r,
  width bits <> 0 -> 0 <= _offset r ->
  _offset r + Z.of_nat n * width bits <= DataView.byteLength (_view r) ->
  exists vs,
    filling (one unsigned bits) n dst r
    = Normal (dst ++ (Some <$> vs)) (advance (Z.of_nat n * width bits) r)
    /\ length vs = n
    /\ forall k, (k < n)%nat ->
         peek unsigned bits (advance (Z.of_nat k * width bits) r) = vs !! k.
Proof.
  assert (Hpos : width bits <> 0 -> 0 < width bits).
  { intros Hw. destruct (bits_width _ Hw) as [->|[->|[->| ->]]]; by cbn. }
  induction n as [|n IH]; intros dst r Hw Ho Hb.
  - exists []. cbn. rewrite app_nil_r, advance_0.
    split; [done|]. split; [done|]. lia.
  - specialize (Hpos Hw). cbn [filling]. rewrite one_peek by done.
    destruct (peek unsigned bits r) as [v|] eqn:Ep.
    2:{ exfalso. destruct (proj2 (peek_is_Some unsigned bits r Hw));
          [nia|congruence]. }
    destruct (IH (dst ++ [Some v]) (advance (width bits) r))
      as (vs & -> & Hlen & Hk); try done; cbn; try nia.
    exists (v :: vs). rewrite advance_advance, <- app_assoc. cbn.
    split; [do 2 f_equal; lia|]. split; [by rewrite Hlen|].
    intros [|k] Hlt.
    + cbn. by rewrite advance_0.
    + change ((v :: vs) !! S k) with (vs !! k).
      rewrite <- (Hk k) by lia. rewrite advance_advance. do 2 f_equal.
      lia.
Qed.

(** the loop, when only [fit] of the values are inside the view *)
Lemma filling_short unsigned bits (n fit : nat) dst r :
  width bits <> 0 -> 0 <= _offset r ->
  (fit < n)%nat ->
  _offset r + Z.of_nat fit * width bits <= DataView.byteLength (_view r) ->
  DataView.byteLength (_view r)
  < _offset r + Z.of_nat fit * width bits + width bits ->
  exists vs,
    filling (one unsigned bits) n dst r
    = RangeError (dst ++ (Some <$> vs))
                 (advance (Z.of_nat fit * width bits) r)
    /\ length vs = fit.
Proof.
  intros Hw Ho Hfit Hle Hlt.
  replace n with (fit + S (n - fit - 1))%nat by lia.
  rewrite filling_app.
  destruct (filling_enough unsigned bits fit dst r)
    as (vs & -> & Hlen & _); try done.
  exists vs. split; [|done]. cbn [filling]. rewrite one_peek by done.
  destruct (peek unsigned bits _) as [v|] eqn:Ep; [|done].
  exfalso.
  destruct (proj1 (peek_is_Some unsigned bits
                     (advance (Z.of_nat fit * width bits) r) Hw)) as [_ H];
    [by eexists|]. cbn in H. lia.
Qed.

Lemma filling_no_case unsigned bits (n : nat) : forall dst r,
  width bits = 0 ->
  filling (one unsigned bits) n dst r = Normal (dst ++ replicate n None) r.
Proof.
  induction n as [|n IH]; intros dst r Hw; cbn [filling replicate].
  - by rewrite app_nil_r.
  - rewrite one_no_case by done. rewrite IH by done.
    by rewrite <- app_assoc.
Qed.

Lemma same_ahead_advance k r1 r2 :
  0 <= k -> same_ahead r1 r2 -> same_ahead (advance k r1) (advance k r2).
Proof.
  intros Hk [He Hb]. split; [done|]. intros off n Hoff. cbn.
  rewrite <- !Z.add_assoc. apply Hb. lia.
Qed.

Lemma same_ahead_peek unsigned bits r1 r2 :
  same_ahead r1 r2 -> peek unsigned bits r1 = peek unsigned bits r2.
Proof.
  intros [He Hb].
  assert (H0 : forall n,
    DataView.bytes_at (_view r1) (_offset r1) n
    = DataView.bytes_at (_view r2) (_offset r2) n).
  { intros n. specialize (Hb 0 n). rewrite !Z.add_0_r in Hb. by apply Hb. }
  unfold peek, getInt8, getInt16, getInt32, getInt64, getUint8, getUint16,
    getUint32, getUint64, DataView.getInt, DataView.getUint.
  by rewrite !H0, He.
Qed.

Lemma same_ahead_filling unsigned bits (n : nat) : forall dst r1 r2,
  same_ahead r1 r2 ->
  values (filling (one unsigned bits) n dst r1)
  = values (filling (one unsigned bits) n dst r2).
Proof.
  induction n as [|n IH]; intros dst r1 r2 Hs; [done|].
  cbn [filling].
  destruct (decide (width bits = 0)) as [Hw|Hw].
  - rewrite !one_no_case by done. by apply IH.
  - rewrite !one_peek by done. rewrite (same_ahead_peek _ _ _ _ Hs).
    destruct (peek unsigned bits r2); [|done].
    apply IH, same_ahead_advance; [|done].
    destruct (bits_width _ Hw) as [->|[->|[->| ->]]]; by cbn.
Qed.

(** X9.  When the [n] values of [bits] bits that [readFixedInts] is asked
    for lie inside the view, it returns [dst] with the [n] values
    appended, the [k]-th being the value at [k] widths after the place of
    the reader, and the reader has advanced by [n] widths. *)
Theorem readFixedInts_reads_n_values
    (n bits : Z) (unsigned : option bool) (dst : option (list (option Z)))
    (r : Reader.t) :
  width bits <> 0 ->
  0 <= n ->
  0 <= _offset r ->
  _offset r + n * width bits <= DataView.byteLength (_view r) ->
  exists vs,
    readFixedInts n bits unsigned dst r
    = Normal (default [] dst ++ (Some <$> vs)) (advance (n * width bits) r)
    /\ Z.of_nat (length vs) = n
    /\ forall k, (k < length vs)%nat ->
         peek (default false unsigned) bits
              (advance (Z.of_nat k * width bits) r) = vs !! k.
Proof.
  intros Hw Hn Ho Hb. unfold readFixedInts.
  destruct (filling_enough (default false unsigned) bits (Z.to_nat n)
              (default [] dst) r) as (vs & Hf & Hlen & Hk); try done.
  { by rewrite Z2Nat.id. }
  exists vs. rewrite Hf, Z2Nat.id by done.
  split; [done|]. split; [lia|]. intros k Hlt. apply Hk. lia.
Qed.

Lemma readFixedInts_reads_n_values_witness :
  exists vs,
    readFixedInts 3 16 (Some true) None Reader.six
    = Normal (default [] None ++ (Some <$> vs))
             (advance (3 * width 16) Reader.six)
    /\ Z.of_nat (length vs) = 3
    /\ forall k, (k < length vs)%nat ->
         peek (default false (Some true)) 16
              (advance (Z.of_nat k * width 16) Reader.six) = vs !! k.
Proof.
  apply (readFixedInts_reads_n_values 3 16 (Some true) None Reader.six);
    by vm_compute.
Defined.

(** X10.  When only [fit] of the [n] values [readFixedInts] is asked
    for lie inside the view, it throws the [RangeError] after it has
    appended those [fit] values to [dst] and advanced the reader past
    them. *)
Theorem readFixedInts_throws_after_the_values_that_fit
    (n bits : Z) (unsigned : option bool) (dst : option (list (option Z)))
    (r : Reader.t) :
  width bits <> 0 ->
  0 <= _offset r <= DataView.byteLength (_view r) ->
  (DataView.byteLength (_view r) - _offset r) / width bits < n ->
  exists vs,
    readFixedInts n bits unsigned dst r
    = RangeError
        (default [] dst ++ (Some <$> vs))
        (advance ((DataView.byteLength (_view r) - _offset r) / width bits
                  * width bits) r)
    /\ Z.of_nat (length vs)
       = (DataView.byteLength (_view r) - _offset r) / width bits.
Proof.
  intros Hw Ho Hfit. unfold readFixedInts.
  assert (Hpos : 0 < width bits).
  { destruct (bits_width _ Hw) as [->|[->|[->| ->]]]; by cbn. }
  set (rest := DataView.byteLength (_view r) - _offset r) in *.
  pose proof (Z.div_mod rest (width bits) Hw) as Hdm.
  pose proof (Z.mod_pos_bound rest (width bits) Hpos) as Hmod.
  assert (Hq : 0 <= rest / width bits) by (apply Z.div_pos; lia).
  destruct (filling_short (default false unsigned) bits (Z.to_nat n)
              (Z.to_nat (rest / width bits)) (default [] dst) r)
    as (vs & Hf & Hlen); try done; try lia.
  exists vs. rewrite Hf, Z2Nat.id by done. split; [done|]. lia.
Qed.

Lemma readFixedInts_throws_after_the_values_that_fit_witness :
  exists vs,
    readFixedInts 2 32 None None Reader.six
    = RangeError
        (default [] None ++ (Some <$> vs))
        (advance ((DataView.byteLength (_view Reader.six)
                   - _offset Reader.six) / width 32 * width 32) Reader.six)
    /\ Z.of_nat (length vs)
       = (DataView.byteLength (_view Reader.six) - _offset Reader.six)
         / width 32.
Proof.
  apply (readFixedInts_throws_after_the_values_that_fit 2 32 None None
           Reader.six); by vm_compute.
Defined.

(** X11.  Reading [n + m] values with [readFixedInts] or
    [readFixedObjects] is reading [n] and then [m] into the same array:
    the same values, the same reader afterwards, and the same throw if
    there is one. *)
Theorem readFixedInts_in_two_calls {T : Type}
    (unmarshal : Reader.t -> completion T unit)
    (n m bits : Z) (unsigned : option bool)
    (dst : option (list (option Z))) (objs : option (list T))
    (r : Reader.t) :
  0 <= n -> 0 <= m ->
  readFixedInts (n + m) bits unsigned dst r
  = match readFixedInts n bits unsigned dst r with
    | Normal d r' => readFixedInts m bits unsigned (Some d) r'
    | RangeError d r' => RangeError d r'
    end
  /\ readFixedObjects unmarshal (n + m) objs r
     = match readFixedObjects unmarshal n objs r with
       | Normal d r' => readFixedObjects unmarshal m (Some d) r'
       | RangeError d r' => RangeError d r'
       end.
Proof.
  intros Hn Hm. unfold readFixedInts, readFixedObjects.
  rewrite Z2Nat.inj_add by done. by rewrite !filling_app.
Qed.

Lemma readFixedInts_in_two_calls_witness :
  readFixedInts (1 + 2) 16 None None Reader.six
  = match readFixedInts 1 16 None None Reader.six with
    | Normal d r' => readFixedInts 2 16 None (Some d) r'
    | RangeError d r' => RangeError d r'
    end
  /\ readFixedObjects readInt8 (1 + 2) None Reader.six
     = match readFixedObjects readInt8 1 None Reader.six with
       | Normal d r' => readFixedObjects readInt8 2 (Some d) r'
       | RangeError d r' => RangeError d r'
       end.
Proof.
  apply (readFixedInts_in_two_calls readInt8 1 2 16 None None None
           Reader.six); lia.
Defined.

(** X12.  For a number of bits other than 8, 16, 32 and 64
    [readFixedInts] does not read: it appends [n] times [undefined] to
    [dst], never throws, and leaves the reader where it was. *)
Theorem readFixedInts_without_case_appends_undefined
    (n bits : Z) (unsigned : option bool) (dst : option (list (option Z)))
    (r : Reader.t) :
  bits <> 8 -> bits <> 16 -> bits <> 32 -> bits <> 64 ->
  readFixedInts n bits unsigned dst r
  = Normal (default [] dst ++ replicate (Z.to_nat n) None) r.
Proof.
  intros H8 H16 H32 H64. unfold readFixedInts.
  apply filling_no_case. unfold width.
  apply Z.eqb_neq in H8, H16, H32, H64. by rewrite H8, H16, H32, H64.
Qed.

Lemma readFixedInts_without_case_appends_undefined_witness :
  readFixedInts 2 24 None None Reader.six
  = Normal (default [] None ++ replicate (Z.to_nat 2) None) Reader.six.
Proof.
  apply (readFixedInts_without_case_appends_undefined 2 24 None None
           Reader.six); lia.
Defined.

(** X13.  [getUint64] and [readUint64] decode the eight bytes as a signed
    number: the result lies between -2^63 and 2^63 - 1, and eight bytes
    [0xff] give -1. *)
Theorem readUint64_is_signed (r : Reader.t) :
  (forall v, getUint64 r = Some v -> - 2 ^ 63 <= v < 2 ^ 63)
  /\ (forall v r', readUint64 r = Normal v r' ->
                   - 2 ^ 63 <= v < 2 ^ 63 /\ r' = advance 8 r)
  /\ (DataView.bytes_at (_view r) (_offset r) 8
      = Some (replicate 8 Byte.xff) ->
      readUint64 r = Normal (-1) (advance 8 r)).
Proof.
  assert (Hg : forall v, getInt64 r = Some v -> - 2 ^ 63 <= v < 2 ^ 63).
  { unfold getInt64, DataView.getInt, DataView.getUint. intros v Hv.
    destruct (DataView.bytes_at _ _ _) as [bs|] eqn:Eb; [|done].
    cbn in Hv. injection Hv as <-.
    pose proof (unsigned_bounds (_littleEndian r) bs) as Hu.
    pose proof (bytes_at_length _ _ _ _ Eb) as Hlen.
    assert (256 ^ Z.of_nat (length bs) <= 256 ^ 8)
      by (apply Z.pow_le_mono_r; lia).
    unfold DataView.signed. change (8 * Z.of_nat 8 - 1) with 63.
    change (8 * Z.of_nat 8) with 64.
    change (256 ^ 8) with (2 ^ 64) in *.
    destruct (_ <? 2 ^ 63) eqn:E;
      [apply Z.ltb_lt in E|apply Z.ltb_ge in E]; lia. }
  split; [exact Hg|]. split.
  - unfold readUint64, reading. intros v r' Hr.
    destruct (getInt64 r) as [x|] eqn:Ex; [|done].
    injection Hr as <- <-. split; [by apply Hg|done].
  - intros Hb. unfold readUint64, reading, getInt64, DataView.getInt,
      DataView.getUint. rewrite Hb. by destruct (_littleEndian r).
Qed.

(** X14.  For a reader on a view of a whole buffer, [view()] is a view
    of the bytes not yet read: a new reader on it, with the same byte
    order, reads with [readFixedInts] the values the reader itself
    would. *)
Theorem view_covers_the_unread_bytes
    (n bits : Z) (unsigned : option bool) (dst : option (list (option Z)))
    (r : Reader.t) :
  DataView.byteOffset (_view r) = 0 ->
  DataView.byteLength (_view r)
  = Z.of_nat (length (DataView.buffer (_view r))) ->
  0 <= _offset r <= DataView.byteLength (_view r) ->
  exists v,
    view r = Some v
    /\ DataView.byteLength v = DataView.byteLength (_view r) - _offset r
    /\ values (readFixedInts n bits unsigned dst
                 (Reader.new v (Some (_littleEndian r)) None))
       = values (readFixedInts n bits unsigned dst r).
Proof.
  intros H0 Hlen Ho. destruct r as [[buf bo bl] little off].
  cbn in *. subst bo bl. unfold view, DataView.of_buffer_from. cbn.
  destruct (off <? 0) eqn:E1; [apply Z.ltb_lt in E1; lia|].
  destruct (Z.of_nat (length buf) <? off) eqn:E2;
    [apply Z.ltb_lt in E2; lia|].
  cbn. eexists. split; [reflexivity|]. split; [reflexivity|].
  unfold readFixedInts. apply same_ahead_filling. split; [done|].
  intros o k Hk. unfold DataView.bytes_at. cbn. rewrite !Z.add_0_l.
  destruct (o <? 0) eqn:E3; [apply Z.ltb_lt in E3; lia|].
  destruct (off + o <? 0) eqn:E4; [apply Z.ltb_lt in E4; lia|].
  cbn.
  destruct (Z.of_nat (length buf) - off <? o + Z.of_nat k) eqn:E5;
    destruct (Z.of_nat (length buf) <? off + o + Z.of_nat k) eqn:E6;
    try apply Z.ltb_lt in E5; try apply Z.ltb_lt in E6;
    try apply Z.ltb_ge in E5; try apply Z.ltb_ge in E6; try lia; done.
Qed.

Lemma view_covers_the_unread_bytes_witness :
  exists v,
    view (advance 2 Reader.six) = Some v
    /\ DataView.byteLength v
       = DataView.byteLength (_view (advance 2 Reader.six))
         - _offset (advance 2 Reader.six)
    /\ values (readFixedInts 2 16 None None
                 (Reader.new v (Some (_littleEndian (advance 2 Reader.six)))
                             None))
       = values (readFixedInts 2 16 None None (advance 2 Reader.six)).
Proof.
  apply (view_covers_the_unread_bytes 2 16 None None
           (advance 2 Reader.six)); by vm_compute.
Defined.
End reader_props.

(** ** Properties of [mask] and of the scenes *)

(** X15.  [mask(s)] has the length of [s].  Of a string longer than 3 it
    keeps the first and the last [⌊n / 3⌋] code units and puts ["*"] at
    every place between; of a shorter string it puts ["*"] at every
    place.  At least a third of the places are hidden.  For an argument
    that is not a string the result is the empty string. *)
Theorem mask_hides_the_middle {U : Type} (star : U) (s : list U) :
  let n := length s in
  let h := Util.kept n in
  length (Util.mask star (Some s)) = n
  /\ (forall i, (h <= i < n - h)%nat ->
                Util.mask star (Some s) !! i = Some star)
  /\ (forall i, (i < h \/ n - h <= i)%nat ->
                Util.mask star (Some s) !! i = s !! i)
  /\ (n <= 3 * (n - 2 * h))%nat
  /\ Util.mask star None = [].
Proof.
  cbv zeta. remember (length s) as n eqn:Hn.
  unfold Util.mask, Util.kept. rewrite <- Hn.
  destruct (Z.of_nat n =? 0) eqn:E0.
  { apply Z.eqb_eq in E0. assert (n = 0)%nat as -> by lia. cbn.
    split; [done|]. split; [intros; lia|]. split; [done|]. split; [lia|done]. }
  apply Z.eqb_neq in E0.
  destruct (3 <? Z.of_nat n) eqn:E3.
  - apply Z.ltb_lt in E3.
    replace (3 <? n)%nat with true by (symmetry; apply Nat.ltb_lt; lia).
    pose proof (Nat.div_mod_eq n 3) as Hdm.
    pose proof (Nat.mod_upper_bound n 3 ltac:(lia)) as Hmod.
    assert (HqZ : Z.of_nat n / 3 = Z.of_nat (n / 3))
      by (by rewrite Nat2Z.inj_div).
    remember (n / 3)%nat as h eqn:Eh. clear Eh.
    unfold Util.substr, Util.stars. rewrite !HqZ.
    replace (Z.to_nat (Z.of_nat n - Z.of_nat h - Z.of_nat h))
      with (n - h - h)%nat by lia.
    replace (Z.to_nat (Z.of_nat h + (Z.of_nat n - Z.of_nat h - Z.of_nat h)))
      with (n - h)%nat by lia.
    rewrite Nat2Z.id. change (Z.to_nat 0) with 0%nat. rewrite drop_0.
    assert (Hlt : length (take h s) = h) by (rewrite length_take; lia).
    split; [|split; [|split; [|split]]].
    + rewrite !length_app, Hlt, length_replicate, length_drop. lia.
    + intros i Hi. rewrite lookup_app_r by lia. rewrite Hlt.
      rewrite lookup_app_l by (rewrite length_replicate; lia).
      apply lookup_replicate_2. lia.
    + intros i [Hi|Hi].
      * rewrite lookup_app_l by lia. by rewrite lookup_take_lt.
      * rewrite lookup_app_r by lia. rewrite Hlt.
        rewrite lookup_app_r by (rewrite length_replicate; lia).
        rewrite length_replicate, lookup_drop. f_equal. lia.
    + lia.
    + done.
  - apply Z.ltb_ge in E3.
    replace (3 <? n)%nat with false by (symmetry; apply Nat.ltb_ge; lia).
    unfold Util.stars. rewrite Nat2Z.id.
    split; [by rewrite length_replicate|]. split.
    { intros i Hi. apply lookup_replicate_2. lia. }
    split; [intros i [Hi|Hi]; [lia|]|split; [lia|done]].
    rewrite (lookup_ge_None_2 s i) by lia.
    apply lookup_replicate_None. lia.
Qed.

(** X16.  [runScene(scene)] replaces the running scene: after it
    [getRunningScene()] is [scene] and the stack of scenes has not
    grown, unless it was empty; starting without scenes, any calls of
    [runScene] leave exactly the scene of the last call. *)
Theorem runScene_replaces_the_running_scene {Scene : Type}
    (scene : Scene) (scenes : list Scene) :
  Scenes.getRunningScene (Scenes.runScene scene scenes) = Some scene
  /\ length (Scenes.runScene scene scenes) = Nat.max 1 (length scenes)
  /\ forall before,
       fold_left (fun st x => Scenes.runScene x st) (before ++ [scene]) []
       = [scene].
Proof.
  assert (Hlast : forall (l : list Scene),
    (0 < length l)%nat -> length (removelast l) = (length l - 1)%nat).
  { intros l Hl. destruct (decide (l = [])) as [->|Hne]; [cbn in Hl; lia|].
    destruct (exists_last Hne) as (l' & x & ->).
    rewrite removelast_last, length_app. cbn. lia. }
  split; [|split].
  - unfold Scenes.getRunningScene, Scenes.runScene. apply last_snoc.
  - unfold Scenes.runScene. rewrite length_app. cbn [length].
    destruct (0 <? length scenes)%nat eqn:E.
    + apply Nat.ltb_lt in E. rewrite Hlast by done. lia.
    + apply Nat.ltb_ge in E. lia.
  - assert (Hone : forall l : list Scene,
      (length (fold_left (fun st x => Scenes.runScene x st) l []) <= 1)%nat).
    { intros l. induction l as [|x l IH] using rev_ind; [cbn; lia|].
      rewrite fold_left_app. cbn [fold_left]. unfold Scenes.runScene at 1.
      rewrite length_app. cbn [length].
      destruct (0 <? _)%nat eqn:E;
        [apply Nat.ltb_lt in E; rewrite Hlast by done|apply Nat.ltb_ge in E];
        lia. }
    intros before. rewrite fold_left_app. cbn [fold_left].
    specialize (Hone before).
    destruct (fold_left _ before []) as [|y [|z l]]; cbn in *; try done; lia.
Qed.

(** ** Cycles of a repeated interval action *)

Section cycle_props.
Context {Easing : Type}.
Import ActionInterval.

Lemma normalized_at_0 (a : ActionInterval.t Easing) :
  _elapsed a = 0%Q -> normalized a = 0%Q.
Proof.
  intros He. unfold normalized. rewrite He.
  pose proof (divisor_pos a) as Hd.
  assert (Hz : (0 / divisor a == 0)%Q) by (unfold Qdiv; ring).
  destruct (Qltb (0 / divisor a) 1) eqn:E1.
  - destruct (Qltb 0 (0 / divisor a)) eqn:E2; [|done].
    apply Qltb_true in E2. rewrite Hz in E2. by apply Qlt_irrefl in E2.
  - apply Qltb_false in E1. rewrite Hz in E1. exfalso.
    by apply (Qle_not_lt _ _ E1).
Qed.

Lemma normalized_at_end (a : ActionInterval.t Easing) :
  (FLT_EPSILON <= _duration a)%Q -> isDone a = true -> normalized a = 1%Q.
Proof.
  intros Hd Hdone. unfold isDone in Hdone. apply Qle_bool_iff in Hdone.
  unfold normalized. pose proof (divisor_pos a) as Hp.
  assert (Hle : (divisor a <= _elapsed a)%Q).
  { unfold divisor in *. destruct (Qltb FLT_EPSILON (_duration a)) eqn:E;
      [done|]. by eapply Qle_trans. }
  assert (H1 : (1 <= _elapsed a / divisor a)%Q).
  { apply Qle_shift_div_l; [done|]. by rewrite Qmult_1_l. }
  destruct (Qltb (_elapsed a / divisor a) 1) eqn:E1.
  - apply Qltb_true in E1. exfalso. by apply (Qle_not_lt _ _ H1).
  - done.
Qed.

(** [step] on an action of positive duration: at most one restart *)
Lemma step_cycle (a : ActionInterval.t Easing) (dt : Q) (fuel : nat) :
  (0 < _duration a)%Q ->
  let a1 := tick dt a in
  let a2 := update (normalized a1) a1 in
  step (S (S fuel)) dt a
  = Ok (if times_gt_1 a && isDone a1
        then update 0
               (tick 0
                  (startWithTarget (target a)
                     (if negb (_forever a) then decrement_times a2 else a2)))
        else a2).
Proof.
  intros Hd a1 a2. cbn [step]. fold a1. fold a2.
  change (times_gt_1 a2) with (times_gt_1 a).
  change (isDone a2) with (isDone a1).
  destruct (times_gt_1 a && isDone a1) eqn:E; [|done].
  change (_forever a2) with (_forever a).
  assert (Hnd : Qle_bool (_duration a) 0 = false).
  { destruct (Qle_bool (_duration a) 0) eqn:Ed; [|done].
    apply Qle_bool_iff in Ed. exfalso. by apply (Qlt_not_le _ _ Hd). }
  destruct (negb (_forever a)).
  - set (a3 := startWithTarget _ _).
    change (_elapsed a3 - _duration a3)%Q with (0 - _duration a)%Q.
    cbn [step]. set (a4 := tick _ a3).
    rewrite (normalized_at_0 a4 eq_refl).
    change (isDone (update 0 a4)) with (Qle_bool (_duration a) 0).
    by rewrite Hnd, andb_false_r.
  - set (a3 := startWithTarget _ _).
    change (_elapsed a3 - _duration a3)%Q with (0 - _duration a)%Q.
    cbn [step]. set (a4 := tick _ a3).
    rewrite (normalized_at_0 a4 eq_refl).
    change (isDone (update 0 a4)) with (Qle_bool (_duration a) 0).
    by rewrite Hnd, andb_false_r.
Qed.

Lemma times_gt_1_iff (a : ActionInterval.t Easing) (n : Z) :
  (times a == inject_Z n)%Q -> 1 <= n ->
  times_gt_1 a = true <-> 1 < n.
Proof.
  unfold times, times_gt_1. intros Ht Hn.
  destruct (_times a) as [q|].
  - destruct (Qeq_bool q 0) eqn:E0.
    + apply Qeq_bool_iff in E0.
      assert (n = 1) as -> by (unfold Qeq in Ht; cbn in Ht; lia).
      split; [|lia]. intros H. apply Qltb_true in H. rewrite E0 in H.
      by vm_compute in H.
    + rewrite Qltb_true, Ht. change 1%Q with (inject_Z 1).
      by rewrite <- Zlt_Qlt.
  - split; [done|]. intros H.
    assert (n = 1); [|lia].
    unfold Qeq in Ht. cbn in Ht. lia.
Qed.

#[local] Abbreviation between_cycles := Cycles.between_cycles.

Lemma duration_pos (a : ActionInterval.t Easing) :
  (FLT_EPSILON <= _duration a)%Q -> (0 < _duration a)%Q.
Proof. intros H. eapply Qlt_le_trans; [apply FLT_EPSILON_pos|done]. Qed.

Lemma full_step_done (a : ActionInterval.t Easing) (dt : Q) :
  _firstTick a = false -> _elapsed a = 0%Q -> (_duration a <= dt)%Q ->
  isDone (tick dt a) = true.
Proof.
  intros Hf He Hdt. unfold isDone, tick. cbn. rewrite Hf, He.
  apply Qle_bool_iff. by rewrite Qplus_0_l.
Qed.

Lemma cycle_step_more (a : ActionInterval.t Easing) (n : Z) (dt : Q) :
  between_cycles a n -> 1 < n -> (_duration a <= dt)%Q ->
  exists a',
    step 2 dt a = Ok a'
    /\ between_cycles a' (n - 1)
    /\ _duration a' = _duration a
    /\ updates a' = updates a ++ [1%Q; 0%Q].
Proof.
  intros (Hd & Hfor & Hft & He & Ht & Hn) Hn1 Hdt.
  pose proof (duration_pos a Hd) as Hpos.
  pose proof (full_step_done a dt Hft He Hdt) as Hdone.
  rewrite (step_cycle a dt 0 Hpos).
  rewrite (proj2 (times_gt_1_iff a n Ht Hn) Hn1), Hdone, Hfor. cbn [andb negb].
  eexists. split; [reflexivity|].
  rewrite (normalized_at_end (tick dt a)) by done.
  split; [|split; [done|]].
  - split; [done|]. split; [done|]. split; [done|]. split; [done|].
    split; [|lia].
    unfold times, times_gt_1 in *. cbn.
    destruct (_times a) as [q|] eqn:Eq; cbn.
    + destruct (Qeq_bool q 0) eqn:E0.
      { exfalso. unfold Qeq in Ht. cbn in Ht. lia. }
      assert (Hq : (q - 1 == inject_Z (n - 1))%Q).
      { rewrite Ht. unfold Zminus. rewrite inject_Z_plus.
        change (inject_Z (- (1))) with (- (1))%Q. ring. }
      destruct (Qeq_bool (q - 1) 0) eqn:E1; [|done].
      apply Qeq_bool_iff in E1. rewrite E1 in Hq.
      exfalso. unfold Qeq in Hq. cbn in Hq. lia.
    + exfalso. unfold Qeq in Ht. cbn in Ht. lia.
  - cbn. by rewrite <- app_assoc.
Qed.

Lemma cycle_step_last (a : ActionInterval.t Easing) (dt : Q) :
  between_cycles a 1 -> (_duration a <= dt)%Q ->
  exists a',
    step 2 dt a = Ok a'
    /\ isDone a' = true
    /\ (times a' == 1)%Q
    /\ updates a' = updates a ++ [1%Q].
Proof.
  intros (Hd & Hfor & Hft & He & Ht & Hn) Hdt.
  pose proof (duration_pos a Hd) as Hpos.
  pose proof (full_step_done a dt Hft He Hdt) as Hdone.
  rewrite (step_cycle a dt 0 Hpos).
  assert (times_gt_1 a = false) as ->.
  { destruct (times_gt_1 a) eqn:E; [|done].
    apply (times_gt_1_iff a 1 Ht Hn) in E. lia. }
  cbn [andb]. eexists. split; [reflexivity|].
  rewrite (normalized_at_end (tick dt a)) by done.
  split; [done|]. split; [done|]. done.
Qed.

Lemma cycle_updates_S (k : nat) :
  Cycles.cycle_updates (S k) = [1%Q; 0%Q] ++ Cycles.cycle_updates k.
Proof. reflexivity. Qed.

(** [k] steps, each of a whole cycle, with [n] cycles to go *)
Lemma cycles_run (dts : list Q) : forall (a : ActionInterval.t Easing) n,
  between_cycles a n ->
  Forall (fun dt => (_duration a <= dt)%Q) dts ->
  Z.of_nat (length dts) <= n ->
  exists a',
    Cycles.steps 2 dts a = Ok a'
    /\ isDone a' = bool_decide (Z.of_nat (length dts) = n)
    /\ (times a' == inject_Z (n - Z.of_nat (length dts))
        \/ Z.of_nat (length dts) = n /\ times a' == 1)%Q
    /\ updates a'
       = updates a
         ++ (if bool_decide (Z.of_nat (length dts) = n)
             then Cycles.cycle_updates (length dts - 1) ++ [1%Q]
             else Cycles.cycle_updates (length dts)).
Proof.
  induction dts as [|dt dts IH]; intros a n Hb Hall Hlen.
  - exists a. destruct Hb as (Hd & Hfor & Hft & He & Ht & Hn).
    split; [done|]. cbn [length]. rewrite bool_decide_false by lia.
    split; [|split].
    + unfold isDone. rewrite He.
      destruct (Qle_bool (_duration a) 0) eqn:E; [|done].
      apply Qle_bool_iff in E. exfalso.
      by apply (Qlt_not_le _ _ (duration_pos a Hd)).
    + left. by rewrite Z.sub_0_r.
    + by rewrite app_nil_r.
  - apply Forall_cons in Hall as [Hdt Hall]. cbn [length] in *.
    cbn [Cycles.steps].
    destruct (decide (n = 1)) as [->|Hn1].
    + destruct dts; [|cbn in Hlen; lia].
      destruct (cycle_step_last a dt Hb Hdt) as (a' & -> & Hdone & Ht & Hu).
      exists a'. cbn. split; [done|]. split; [done|].
      split; [by right|done].
    + assert (1 < n) by (destruct Hb as (_ & _ & _ & _ & _ & ?); lia).
      destruct (cycle_step_more a n dt Hb ltac:(done) Hdt)
        as (a1 & -> & Hb1 & Hd1 & Hu1).
      cbn [mbind result_bind].
      destruct (IH a1 (n - 1) Hb1) as (a' & -> & Hdone & Ht & Hu);
        [by rewrite Hd1|lia|].
      exists a'. split; [done|]. split; [|split].
      * rewrite Hdone. apply bool_decide_ext. lia.
      * destruct Ht as [Ht|[Hk Ht]]; [left|right; split; [lia|done]].
        rewrite Ht.
        by replace (n - Z.of_nat (S (length dts)))
          with (n - 1 - Z.of_nat (length dts)) by lia.
      * rewrite Hu, Hu1, <- app_assoc. f_equal.
        rewrite (bool_decide_ext (Z.of_nat (length dts) = n - 1)
                   (Z.of_nat (S (length dts)) = n)) by lia.
        destruct (bool_decide (Z.of_nat (S (length dts)) = n)) eqn:Hk.
        -- apply bool_decide_eq_true in Hk.
           replace (S (length dts) - 1)%nat with (S (length dts - 1))
             by lia.
           rewrite cycle_updates_S. by rewrite <- app_assoc.
        -- by rewrite cycle_updates_S.
Qed.
End cycle_props.

(** X17.  A step that finishes a cycle of a repeated action of positive
    duration restarts the action: [step] returns, [update] has been
    called with the clamped ratio and then with 0, the elapsed time is 0
    again (what the step overshot is dropped), [$times] is one less
    unless the action repeats for ever, and the action is not done. *)
Theorem step_restarts_a_finished_cycle {Easing : Type}
    (a : ActionInterval.t Easing) (dt : Q) :
  (0 < ActionInterval._duration a)%Q ->
  ActionInterval.times_gt_1 a
    && ActionInterval.isDone (ActionInterval.tick dt a) = true ->
  exists a',
    ActionInterval.step 2 dt a = Ok a'
    /\ ActionInterval._elapsed a' = 0%Q
    /\ ActionInterval._firstTick a' = false
    /\ ActionInterval.isDone a' = false
    /\ ActionInterval.updates a'
       = ActionInterval.updates a
         ++ [ActionInterval.normalized (ActionInterval.tick dt a); 0%Q]
    /\ ActionInterval._times a'
       = (if ActionInterval._forever a then ActionInterval._times a
          else (fun n => (n - 1)%Q) <$> ActionInterval._times a)
    /\ ActionInterval._duration a' = ActionInterval._duration a
    /\ ActionInterval._forever a' = ActionInterval._forever a
    /\ ActionInterval.target a' = ActionInterval.target a
    /\ ActionInterval.originalTarget a' = ActionInterval.target a.
Proof.
  intros Hd Hc. rewrite (step_cycle a dt 0 Hd), Hc.
  eexists. split; [reflexivity|].
  assert (Hnd : Qle_bool (ActionInterval._duration a) 0 = false).
  { destruct (Qle_bool (ActionInterval._duration a) 0) eqn:Ed; [|done].
    apply Qle_bool_iff in Ed. exfalso. by apply (Qlt_not_le _ _ Hd). }
  destruct (ActionInterval._forever a) eqn:Ef; cbn;
    unfold ActionInterval.isDone; cbn; rewrite Hnd, <- app_assoc;
    repeat split; done.
Qed.

Lemma step_restarts_a_finished_cycle_witness :
  exists a',
    ActionInterval.step 2 3 Cycles.thrice = Ok a'
    /\ ActionInterval._elapsed a' = 0%Q
    /\ ActionInterval._firstTick a' = false
    /\ ActionInterval.isDone a' = false
    /\ ActionInterval.updates a'
       = ActionInterval.updates Cycles.thrice
         ++ [ActionInterval.normalized (ActionInterval.tick 3 Cycles.thrice);
             0%Q]
    /\ ActionInterval._times a'
       = (if ActionInterval._forever Cycles.thrice
          then ActionInterval._times Cycles.thrice
          else (fun n => (n - 1)%Q) <$> ActionInterval._times Cycles.thrice)
    /\ ActionInterval._duration a' = ActionInterval._duration Cycles.thrice
    /\ ActionInterval._forever a' = ActionInterval._forever Cycles.thrice
    /\ ActionInterval.target a' = ActionInterval.target Cycles.thrice
    /\ ActionInterval.originalTarget a'
       = ActionInterval.target Cycles.thrice.
Proof.
  apply (step_restarts_a_finished_cycle Cycles.thrice 3); reflexivity.
Defined.

(** X18.  An action whose [times] is [n] is done after [n] cycles and not
    before: stepped [k <= n] times, each step at least as long as the
    duration, it has completed [k] cycles ([update(1)] called [k] times,
    each but the last followed by [update(0)] after the restart), and
    [isDone()] holds exactly when [k = n].  Here the action has had its
    first step, and its duration is at least [FLT_EPSILON]. *)
Theorem action_is_done_after_times_cycles {Easing : Type}
    (a : ActionInterval.t Easing) (n : Z) (dts : list Q) :
  (FLT_EPSILON <= ActionInterval._duration a)%Q ->
  ActionInterval._forever a = false ->
  ActionInterval._firstTick a = false ->
  ActionInterval._elapsed a = 0%Q ->
  (ActionInterval.times a == inject_Z n)%Q ->
  1 <= n ->
  Forall (fun dt => (ActionInterval._duration a <= dt)%Q) dts ->
  Z.of_nat (length dts) <= n ->
  exists a',
    Cycles.steps 2 dts a = Ok a'
    /\ ActionInterval.isDone a' = bool_decide (Z.of_nat (length dts) = n)
    /\ ActionInterval.updates a'
       = ActionInterval.updates a
         ++ (if bool_decide (Z.of_nat (length dts) = n)
             then Cycles.cycle_updates (length dts - 1) ++ [1%Q]
             else Cycles.cycle_updates (length dts)).
Proof.
  intros Hd Hfor Hft He Ht Hn Hall Hlen.
  destruct (cycles_run dts a n) as (a' & Hs & Hdone & _ & Hu); try done.
  by exists a'.
Qed.

Lemma action_is_done_after_times_cycles_witness :
  exists a',
    Cycles.steps 2 [2%Q; 5 # 2; 2%Q] Cycles.thrice = Ok a'
    /\ ActionInterval.isDone a'
       = bool_decide (Z.of_nat (length [2%Q; 5 # 2; 2%Q]) = 3)
    /\ ActionInterval.updates a'
       = ActionInterval.updates Cycles.thrice
         ++ (if bool_decide (Z.of_nat (length [2%Q; 5 # 2; 2%Q]) = 3)
             then Cycles.cycle_updates (length [2%Q; 5 # 2; 2%Q] - 1) ++ [1%Q]
             else Cycles.cycle_updates (length [2%Q; 5 # 2; 2%Q])).
Proof.
  apply (action_is_done_after_times_cycles Cycles.thrice 3 [2%Q; 5 # 2; 2%Q]);
    try reflexivity; try done.
  repeat constructor; by vm_compute.
Defined.

(** ** What the leaf actions do to their target *)

Section motion_props.
Context {Easing : Type} (easing : Easing -> Q -> Q).

#[local] Abbreviation same := Motion.same.
#[local] Abbreviation plus := Motion.plus.
#[local] Abbreviation times := Motion.times.

Ltac vec :=
  unfold Motion.same, Motion.plus, Motion.times, Vec3.sub, Vec3.opp,
    Vec3.zero in *; cbn [Vec3.x Vec3.y Vec3.z] in *.

Lemma same_refl v : same v v.
Proof. vec. by repeat split. Qed.

#[local] Abbreviation mover := Motion.mover.

(** one [update] of a [MoveBy] or [MoveTo] whose target was moved by [v]
    since the last one *)
Lemma mover_update tg (nodes : Motion.Nodes) (a : Leaf.t Easing) o
    delta start prev base v x :
  ActionInterval.target (Leaf.base a) = Some tg ->
  nodes !! tg = Some o ->
  mover a = Some (delta, start, prev) ->
  same prev (Object3D.position o) ->
  same start base ->
  exists a' o' start' prev',
    Motion.update easing x (Motion.moved v tg nodes) a
    = Ok (a', <[tg := o']> nodes)
    /\ Leaf.base a' = Leaf.base a
    /\ mover a' = Some (delta, start', prev')
    /\ same prev' (Object3D.position o')
    /\ same start' (plus base v)
    /\ same (Object3D.position o')
            (plus (plus base v) (times delta (Motion.eased easing a x)))
    /\ Object3D.rotation o' = Object3D.rotation o
    /\ Object3D.scale o' = Object3D.scale o.
Proof.
  intros Htg Ho Hm Hp Hs. unfold Motion.moved. rewrite Ho.
  unfold Motion.update. rewrite Htg.
  unfold Motion.mover in Hm.
  destruct (Leaf.own a) eqn:Eo; try done; injection Hm as -> -> ->;
    eexists _, _, _, _;
    (split; [rewrite lookup_insert_eq; cbn; rewrite insert_insert_eq;
             reflexivity|]);
    (split; [done|]);
    unfold Motion.mover; cbn [Leaf.own]; (split; [reflexivity|]);
    (split; [apply same_refl|]); cbn;
    repeat split; try done; vec;
    destruct Hp as (Hp1 & Hp2 & Hp3); destruct Hs as (Hs1 & Hs2 & Hs3);
    unfold Motion.eased; try (rewrite Hs1, Hp1; ring);
    try (rewrite Hs2, Hp2; ring); try (rewrite Hs3, Hp3; ring).
Qed.

Lemma total_snoc vs v : Motion.total (vs ++ [v]) = plus (Motion.total vs) v.
Proof. unfold Motion.total. by rewrite fold_left_app. Qed.

Lemma same_trans u v w : same u v -> same v w -> same u w.
Proof.
  vec. intros (H1 & H2 & H3) (H4 & H5 & H6).
  repeat split; etrans; eauto.
Qed.

Lemma same_plus u u' v : same u u' -> same (plus u v) (plus u' v).
Proof. vec. intros (H1 & H2 & H3). by rewrite H1, H2, H3. Qed.

(** calls of [update] on a [MoveBy] or [MoveTo], the target moved from
    outside in between *)
Lemma mover_updates tg delta p0 (l : list (Vec3.t * Q)) :
  forall (nodes : Motion.Nodes) (a : Leaf.t Easing) o start prev done_,
    ActionInterval.target (Leaf.base a) = Some tg ->
    nodes !! tg = Some o ->
    mover a = Some (delta, start, prev) ->
    same prev (Object3D.position o) ->
    same start (plus p0 (Motion.total done_)) ->
    exists a' o',
      Motion.updates easing tg l nodes a = Ok (a', <[tg := o']> nodes)
      /\ Leaf.base a' = Leaf.base a
      /\ (l = [] -> o' = o)
      /\ (forall v x, last l = Some (v, x) ->
            same (Object3D.position o')
                 (plus (plus p0 (Motion.total (done_ ++ l.*1)))
                       (times delta (Motion.eased easing a x))))
      /\ Object3D.rotation o' = Object3D.rotation o
      /\ Object3D.scale o' = Object3D.scale o.
Proof.
  induction l as [|[v x] l IH];
    intros nodes a o start prev done_ Htg Ho Hm Hp Hs.
  - exists a, o. cbn. rewrite insert_id by done. by repeat split.
  - cbn [Motion.updates].
    destruct (mover_update tg nodes a o delta start prev
                (plus p0 (Motion.total done_)) v x Htg Ho Hm Hp Hs)
      as (a1 & o1 & start1 & prev1 & -> & Hb1 & Hm1 & Hp1 & Hs1 & Hpos1
          & Hr1 & Hsc1).
    cbn [mbind result_bind].
    destruct (IH (<[tg := o1]> nodes) a1 o1 start1 prev1 (done_ ++ [v]))
      as (a' & o' & -> & Hb' & Hnil & Hlast & Hr' & Hsc'); try done.
    + by rewrite Hb1.
    + by rewrite lookup_insert_eq.
    + rewrite total_snoc. eapply same_trans; [exact Hs1|].
      vec. repeat split; ring.
    + exists a', o'. rewrite insert_insert_eq.
      split; [done|]. split; [by rewrite Hb', Hb1|]. split; [done|].
      split; [|by rewrite Hr', Hsc'].
      intros v' x' Hl. cbn [fmap list_fmap fst].
      destruct l as [|y l].
      * cbn in Hl. injection Hl as <- <-. rewrite (Hnil eq_refl).
        cbn [fmap list_fmap]. rewrite total_snoc. eapply same_trans; [exact Hpos1|].
        vec. repeat split; ring.
      * specialize (Hlast v' x' Hl).
        rewrite <- app_assoc in Hlast. cbn [app] in Hlast.
        unfold Motion.eased in *. by rewrite <- Hb1.
Qed.

Lemma eased_started (a : Leaf.t Easing) tg x :
  ActionInterval._computeEaseTime easing
    (ActionInterval.startWithTarget tg (Leaf.base a)) x
  = Motion.eased easing a x.
Proof. reflexivity. Qed.

Lemma update_RotateBy (a : Leaf.t Easing) tg (nodes : Motion.Nodes) o
    angle start x :
  ActionInterval.target (Leaf.base a) = Some tg ->
  nodes !! tg = Some o ->
  Leaf.own a = Leaf.RotateBy angle (Some start) ->
  Motion.update easing x nodes a
  = Ok (a, <[tg := Object3D.set_rotation
                     (plus start (times angle (Motion.eased easing a x))) o]>
             nodes).
Proof.
  intros Htg Ho Hown. unfold Motion.update. by rewrite Htg, Ho, Hown.
Qed.

Lemma update_MoveBy (a : Leaf.t Easing) tg (nodes : Motion.Nodes) o
    delta start prev x :
  ActionInterval.target (Leaf.base a) = Some tg ->
  nodes !! tg = Some o ->
  Leaf.own a = Leaf.MoveBy delta start prev ->
  Motion.update easing x nodes a
  = Ok (Leaf.mk (Leaf.base a)
          (Leaf.MoveBy delta
             (Motion.stacked (times delta (Motion.eased easing a x))
                start prev (Object3D.position o)).1.1
             (Motion.stacked (times delta (Motion.eased easing a x))
                start prev (Object3D.position o)).1.2),
        <[tg := Object3D.set_position
                  (Motion.stacked (times delta (Motion.eased easing a x))
                     start prev (Object3D.position o)).2 o]> nodes).
Proof.
  intros Htg Ho Hown. unfold Motion.update. by rewrite Htg, Ho, Hown.
Qed.

Lemma ease_one (b : ActionInterval.t Easing) :
  (forall e, easing e 1%Q = 1%Q) ->
  ActionInterval._computeEaseTime easing b 1 = 1%Q.
Proof.
  intros H1. unfold ActionInterval._computeEaseTime.
  destruct (ActionInterval._easeList b) as [l|]; [|done].
  destruct l as [|e l]; [done|].
  generalize (e :: l). clear e l. intros l.
  induction l as [|e l IH]; [done|]. cbn. by rewrite H1.
Qed.
End motion_props.













(** ** The other methods of [ActionManager] *)

Section targets_props.
Context {A : Type} (M : ActionManager.Methods A).

Lemma delete_middle {X} (kept : list X) x rest :
  delete (length kept) (kept ++ x :: rest) = kept ++ rest.
Proof.
  induction kept as [|y kept IH]; [done|].
  cbn [length app].
  exact (f_equal (cons y) IH).
Qed.

Lemma elem_of_odds {X} (l : list X) x : x ∈ Targets.odds l -> x ∈ l.
Proof.
  revert x.
  cut ((forall x, x ∈ Targets.odds l -> x ∈ l)
       /\ (forall a x, x ∈ Targets.odds (a :: l) -> x ∈ a :: l)); [tauto|].
  induction l as [|b l [IH1 IH2]].
  - split; [done|]. intros a x Hx. cbn in Hx. set_solver.
  - split; [by apply IH2|]. intros a x Hx. cbn [Targets.odds] in Hx.
    apply elem_of_cons in Hx as [->|Hx]; [set_solver|].
    do 2 (apply elem_of_cons; right). by apply IH1.
Qed.

Lemma linked_record (w : ActionManager.t A) e :
  Targets.linked w -> e ∈ ActionManager._elementsArr w ->
  exists el tg,
    ActionManager.elements w !! e = Some el
    /\ ActionManager.target el = Some tg
    /\ ActionManager.lock el = false
    /\ ActionManager._elementsMap w !! tg = Some e.
Proof.
  intros [_ Hall] He. rewrite Forall_forall in Hall. by apply Hall.
Qed.

Lemma remove_record (w : ActionManager.t A) kept e rest el :
  Targets.linked w ->
  ActionManager._elementsArr w = kept ++ e :: rest ->
  ActionManager.elements w !! e = Some el ->
  exists w',
    ActionManager.removeAllActionsFromTarget (ActionManager.target el) w = Ok w'
    /\ ActionManager._elementsArr w' = kept ++ rest
    /\ Targets.linked w'
    /\ ActionManager.objects w' = ActionManager.objects w
    /\ (forall e', e' <> e ->
          ActionManager.elements w' !! e' = ActionManager.elements w !! e').
Proof.
  intros Hl Harr He.
  assert (Hin : e ∈ ActionManager._elementsArr w).
  { rewrite Harr. set_solver. }
  destruct (linked_record w e Hl Hin) as (el0 & tg & He0 & Htg & Hlock & Hm).
  assert (el0 = el) as -> by congruence.
  destruct Hl as [Hnd Hall].
  unfold ActionManager.removeAllActionsFromTarget. rewrite Htg, Hm.
  rewrite (get_element_ok w e el He). cbn [mbind result_bind].
  set (w2 := ActionManager.set_element e _ w).
  destruct (deleteHashElement_spec w2 e
              (ActionManager.mkHashElement [] (Some tg)
                 (ActionManager.actionIndex el) (ActionManager.currentAction el)
                 (ActionManager.paused el) false) tg (length kept))
    as (w3 & Hd & Harr3 & Hmap3 & Hel3 & Hobj3 & _).
  - subst w2. cbn. by rewrite lookup_insert_eq, Hlock, Htg.
  - done.
  - done.
  - done.
  - done.
  - subst w2. cbn. rewrite Harr.
    rewrite lookup_app_r by lia. by rewrite Nat.sub_diag.
  - rewrite Hd. cbn [mbind result_bind].
    assert (Harr' : ActionManager._elementsArr w3 = kept ++ rest).
    { rewrite Harr3.
      change (ActionManager._elementsArr w2) with (ActionManager._elementsArr w).
      rewrite Harr. apply delete_middle. }
    assert (Hel' : forall e', e' <> e ->
              ActionManager.elements w3 !! e' = ActionManager.elements w !! e').
    { intros e' Hne. rewrite Hel3 by done. subst w2. cbn.
      by rewrite lookup_insert_ne. }
    exists w3. split; [done|]. split; [done|]. split; [|by split].
    rewrite Harr in Hnd, Hall.
    assert (Hne : forall e', e' ∈ kept ++ rest -> e' <> e).
    { intros e' He' Heq. subst e'. apply NoDup_app in Hnd as (_ & Hk & Hr).
      apply NoDup_cons in Hr as [Hr _].
      apply elem_of_app in He' as [He'|He']; [|done].
      apply (Hk e He'). set_solver. }
    split.
    + rewrite Harr'. apply NoDup_app in Hnd as (Hk & Hkr & Hr).
      apply NoDup_cons in Hr as [_ Hr]. apply NoDup_app. split; [done|].
      split; [|done]. intros x Hx Hx'. apply (Hkr x Hx). set_solver.
    + rewrite Harr'. apply Forall_forall. intros e' He'.
      rewrite Forall_forall in Hall.
      assert (He2 : e' ∈ kept ++ e :: rest).
      { apply elem_of_app. apply elem_of_app in He' as [?|?]; [by left|].
        right. by apply elem_of_cons; right. }
      destruct (Hall e' He2) as (el' & tg' & H1 & H2 & H3 & H4).
      exists el', tg'. rewrite Hel' by by apply Hne.
      split; [done|]. split; [done|]. split; [done|].
      rewrite Hmap3. subst w2. cbn. rewrite lookup_delete_ne; [done|].
      intros Heq. subst tg'. apply (Hne e' He'). congruence.
Qed.

Lemma removing_spec : forall fuel kept rest (w : ActionManager.t A),
  Targets.linked w ->
  ActionManager._elementsArr w = kept ++ rest ->
  (length rest < fuel)%nat ->
  exists w',
    Targets.removing fuel (Z.of_nat (length kept)) w = Ok w'
    /\ ActionManager._elementsArr w' = kept ++ Targets.odds rest
    /\ Targets.linked w'
    /\ ActionManager.objects w' = ActionManager.objects w
    /\ (forall e', e' ∈ kept ++ Targets.odds rest ->
          ActionManager.elements w' !! e' = ActionManager.elements w !! e').
Proof.
  induction fuel as [|fuel IH]; intros kept rest w Hl Harr Hf; [lia|].
  cbn [Targets.removing]. rewrite Harr, length_app.
  destruct rest as [|e rest].
  { cbn [length]. rewrite Nat.add_0_r.
    replace (Z.of_nat (length kept) <? Z.of_nat (length kept)) with false
      by (symmetry; apply Z.ltb_ge; lia).
    exists w. rewrite Harr. by cbn. }
  replace (Z.of_nat (length kept) <? Z.of_nat (length kept + length (e :: rest)))
    with true by (symmetry; apply Z.ltb_lt; cbn [length]; lia).
  rewrite at_index_nat, lookup_app_r, Nat.sub_diag by lia. cbn [lookup list_lookup].
  assert (Hin : e ∈ ActionManager._elementsArr w) by (rewrite Harr; set_solver).
  destruct (linked_record w e Hl Hin) as (el & tg & He & _).
  rewrite (get_element_ok w e el He). cbn [mbind result_bind].
  destruct (remove_record w kept e rest el Hl Harr He)
    as (w1 & -> & Harr1 & Hl1 & Hobj1 & Hel1).
  cbn [mbind result_bind].
  assert (Hnd : NoDup (kept ++ e :: rest)) by (rewrite <- Harr; apply Hl).
  assert (Hne : forall e', e' ∈ kept ++ rest -> e' <> e).
  { intros e' He' Heq. subst e'. apply NoDup_app in Hnd as (_ & Hk & Hr).
    apply NoDup_cons in Hr as [Hr _].
    apply elem_of_app in He' as [He'|He']; [|done].
    apply (Hk e He'). set_solver. }
  destruct rest as [|x rest].
  - destruct fuel as [|fuel]; [cbn in Hf; lia|]. cbn [Targets.removing].
    rewrite Harr1, app_nil_r.
    replace (Z.of_nat (length kept) + 1 <? Z.of_nat (length kept)) with false
      by (symmetry; apply Z.ltb_ge; lia).
    exists w1. cbn [Targets.odds]. rewrite app_nil_r.
    split; [done|]. split; [by rewrite Harr1, app_nil_r|].
    split; [done|]. split; [done|].
    intros e' He'. apply Hel1, Hne. by rewrite app_nil_r.
  - destruct (IH (kept ++ [x]) rest w1) as (w' & Hr & Harr' & Hl' & Hobj' & Hel').
    + done.
    + by rewrite Harr1, <- app_assoc.
    + cbn [length] in Hf. lia.
    + rewrite length_app in Hr. cbn [length] in Hr.
      replace (Z.of_nat (length kept) + 1) with (Z.of_nat (length kept + 1)) by lia.
      exists w'. cbn [Targets.odds]. rewrite <- app_assoc in Harr', Hel'.
      split; [done|]. split; [done|]. split; [done|].
      split; [congruence|].
      intros e' He'. rewrite Hel' by done. apply Hel1, Hne.
      apply elem_of_app in He' as [He'|He']; [set_solver|].
      apply elem_of_app. right. apply elem_of_cons in He' as [->|He']; [set_solver|].
      apply elem_of_cons. right.
      by apply elem_of_odds.
Qed.

(** X25.  [removeAllActions()]: on a manager whose records are
    linked to their targets, [removeAllActions] returns with the records
    that stood at the indices 1, 3, 5, ... still in [$elementsArr], each
    one unchanged and still the record of its target: it removes only
    every second record, because it walks the array that
    [$deleteHashElement] shortens. *)
Theorem removeAllActions_leaves_every_second_record (w : ActionManager.t A) :
  Targets.linked w ->
  exists w',
    Targets.removeAllActions w = Ok w'
    /\ ActionManager._elementsArr w' = Targets.odds (ActionManager._elementsArr w)
    /\ Targets.linked w'
    /\ ActionManager.objects w' = ActionManager.objects w
    /\ (forall e, e ∈ Targets.odds (ActionManager._elementsArr w) ->
          ActionManager.elements w' !! e = ActionManager.elements w !! e).
Proof.
  intros Hl. unfold Targets.removeAllActions.
  destruct (removing_spec (S (length (ActionManager._elementsArr w))) []
              (ActionManager._elementsArr w) w Hl eq_refl) as (w' & H); [lia|].
  by exists w'.
Qed.

Lemma with_elements_id (w : ActionManager.t A) :
  Targets.with_elements (ActionManager.elements w) w = w.
Proof. by destruct w. Qed.

Lemma set_paused_same b el :
  ActionManager.paused el = b -> Targets.set_paused b el = el.
Proof. destruct el. cbn. by intros ->. Qed.

Lemma running_targets_insert m e el es :
  e ∉ es ->
  Targets.running_targets (<[e := el]> m) es = Targets.running_targets m es.
Proof.
  intros He. unfold Targets.running_targets. f_equal.
  apply list_fmap_ext. intros i x Hx. rewrite lookup_insert_ne; [done|].
  intros ->. apply He. by eapply list_elem_of_lookup_2.
Qed.

Lemma pausing_spec (w : ActionManager.t A) : forall es ids m,
  NoDup es ->
  (forall e, e ∈ es -> is_Some (m !! e)) ->
  exists m',
    Targets.pausing es ids (Targets.with_elements m w)
    = Ok (Targets.with_elements m' w, ids ++ Targets.running_targets m es)
    /\ forall e, m' !! e = if bool_decide (e ∈ es)
                           then Targets.set_paused true <$> m !! e
                           else m !! e.
Proof.
  induction es as [|e es IH]; intros ids m Hnd Hes.
  { exists m. cbn. by rewrite app_nil_r. }
  apply NoDup_cons in Hnd as [He Hnd].
  destruct (Hes e) as [el Hel]; [set_solver|].
  cbn [Targets.pausing]. unfold ActionManager.get_element.
  cbn [ActionManager.elements Targets.with_elements]. rewrite Hel.
  cbn [mbind result_bind].
  unfold Targets.running_targets. cbn [fmap list_fmap mjoin list_join].
  fold (Targets.running_targets m es). rewrite Hel.
  destruct (ActionManager.paused el) eqn:Hp; cbn [negb].
  - destruct (IH ids m Hnd) as (m' & -> & Hm').
    { intros x Hx. apply Hes. set_solver. }
    exists m'. split; [done|]. intros x.
    rewrite Hm'. destruct (decide (x = e)) as [->|Hne].
    + rewrite (bool_decide_eq_false_2 _ He), bool_decide_eq_true_2 by set_solver.
      rewrite Hel. cbn. by rewrite set_paused_same.
    + apply (f_equal (fun b : bool => if b then _ else _)).
      apply bool_decide_ext. rewrite elem_of_cons.
      split; [by right|by intros [?|?]].
  - change (ActionManager.set_element e (Targets.set_paused true el)
              (Targets.with_elements m w))
      with (Targets.with_elements (<[e := Targets.set_paused true el]> m) w).
    destruct (IH (ids ++ [ActionManager.target el])
                 (<[e := Targets.set_paused true el]> m) Hnd)
      as (m' & -> & Hm').
    { intros x Hx. destruct (decide (x = e)) as [->|Hne].
      - by rewrite lookup_insert_eq.
      - rewrite lookup_insert_ne by done. apply Hes. set_solver. }
    exists m'. rewrite running_targets_insert by done.
    split; [by rewrite <- app_assoc|]. intros x.
    rewrite Hm'. destruct (decide (x = e)) as [->|Hne].
    + rewrite (bool_decide_eq_false_2 _ He), bool_decide_eq_true_2 by set_solver.
      by rewrite lookup_insert_eq, Hel.
    + rewrite lookup_insert_ne by done.
      apply (f_equal (fun b : bool => if b then _ else _)).
      apply bool_decide_ext. rewrite elem_of_cons.
      split; [by right|by intros [?|?]].
Qed.

Lemma resuming_spec (w : ActionManager.t A) : forall ts m,
  (forall tg e, Some tg ∈ ts -> ActionManager._elementsMap w !! tg = Some e ->
                is_Some (m !! e)) ->
  exists m',
    Targets.resuming ts (Targets.with_elements m w)
    = Ok (Targets.with_elements m' w)
    /\ forall e, m' !! e = if Targets.record_of_one w ts e
                           then Targets.set_paused false <$> m !! e
                           else m !! e.
Proof.
  induction ts as [|[tg|] ts IH]; intros m Hts.
  - by exists m.
  - cbn [Targets.resuming]. unfold Targets.resumeTarget.
    cbn [ActionManager._elementsMap Targets.with_elements].
    destruct (ActionManager._elementsMap w !! tg) as [e0|] eqn:Hm.
    + destruct (Hts tg e0) as [el Hel]; [set_solver|done|].
      unfold ActionManager.modify_element, ActionManager.get_element.
      cbn [ActionManager.elements Targets.with_elements]. rewrite Hel.
      cbn [mbind result_bind].
      change (ActionManager.set_element e0 (Targets.set_paused false el)
                (Targets.with_elements m w))
        with (Targets.with_elements (<[e0 := Targets.set_paused false el]> m) w).
      destruct (IH (<[e0 := Targets.set_paused false el]> m)) as (m' & -> & Hm').
      { intros tg' e Ht He. destruct (decide (e = e0)) as [->|Hne].
        - by rewrite lookup_insert_eq.
        - rewrite lookup_insert_ne by done. apply (Hts tg'); [set_solver|done]. }
      exists m'. split; [done|]. intros e. rewrite Hm'.
      cbn [Targets.record_of_one existsb].
      fold (Targets.record_of_one w ts e). rewrite Hm.
      destruct (decide (e = e0)) as [->|Hne].
      * rewrite bool_decide_eq_true_2 by done. cbn [orb].
        rewrite lookup_insert_eq, Hel. cbn.
        by destruct (Targets.record_of_one w ts e0).
      * rewrite bool_decide_eq_false_2 by congruence. cbn [orb].
        by rewrite lookup_insert_ne.
    + cbn [mbind result_bind].
      destruct (IH m) as (m' & -> & Hm').
      { intros tg' e Ht He. apply (Hts tg'); [set_solver|done]. }
      exists m'. split; [done|]. intros e. rewrite Hm'.
      cbn [Targets.record_of_one existsb].
      fold (Targets.record_of_one w ts e). rewrite Hm.
      by rewrite bool_decide_eq_false_2.
  - cbn [Targets.resuming].
    destruct (IH m) as (m' & -> & Hm').
    { intros tg' e Ht He. apply (Hts tg'); [set_solver|done]. }
    exists m'. split; [done|]. intros e. by rewrite Hm'.
Qed.

Lemma elem_of_running_targets m es t :
  t ∈ Targets.running_targets m es ->
  exists e el, e ∈ es /\ m !! e = Some el
               /\ ActionManager.paused el = false /\ ActionManager.target el = t.
Proof.
  unfold Targets.running_targets. intros Ht.
  apply list_elem_of_join in Ht as (l & Ht & Hl).
  apply list_elem_of_fmap in Hl as (e & -> & He).
  exists e. destruct (m !! e) as [el|]; [|set_solver].
  exists el. destruct (ActionManager.paused el); [set_solver|].
  apply list_elem_of_singleton in Ht as ->. done.
Qed.

Lemma record_of_one_true (w : ActionManager.t A) ts e :
  Targets.record_of_one w ts e = true <->
  exists tg, Some tg ∈ ts /\ ActionManager._elementsMap w !! tg = Some e.
Proof.
  unfold Targets.record_of_one. rewrite existsb_exists. split.
  - intros ([tg|] & Hin & Hb); [|done]. exists tg.
    apply bool_decide_eq_true in Hb. split; [|done]. by apply list_elem_of_In.
  - intros (tg & Hin & Hm). exists (Some tg).
    split; [by apply list_elem_of_In|]. by apply bool_decide_eq_true.
Qed.

(** X26.  [pauseAllRunningActions()] and [resumeTargets]: on a
    manager whose records are linked to their targets,
    [pauseAllRunningActions] leaves every record paused, and
    [resumeTargets] with the list it returned gives the manager back as
    it was: the records that were paused before stay paused. *)
Theorem resumeTargets_undoes_pauseAllRunningActions (w : ActionManager.t A) :
  Targets.linked w ->
  exists w1 ids,
    Targets.pauseAllRunningActions w = Ok (w1, ids)
    /\ (forall e, e ∈ ActionManager._elementsArr w ->
          exists el, ActionManager.elements w1 !! e = Some el
                     /\ ActionManager.paused el = true)
    /\ Targets.resumeTargets (Some ids) w1 = Ok w.
Proof.
  intros Hl. unfold Targets.pauseAllRunningActions.
  destruct (pausing_spec w (ActionManager._elementsArr w) []
              (ActionManager.elements w)) as (m1 & Hp & Hm1).
  { apply Hl. }
  { intros e He. destruct (linked_record w e Hl He) as (el & _ & -> & _).
    by eexists. }
  rewrite with_elements_id in Hp. rewrite Hp. cbn [app].
  eexists _, _. split; [done|]. split.
  { intros e He. destruct (linked_record w e Hl He) as (el & _ & Hel & _).
    exists (Targets.set_paused true el). split; [|done]. cbn.
    by rewrite Hm1, bool_decide_eq_true_2, Hel. }
  cbn [Targets.resumeTargets].
  destruct (resuming_spec w
              (Targets.running_targets (ActionManager.elements w)
                 (ActionManager._elementsArr w)) m1) as (m2 & -> & Hm2).
  { intros tg e Ht Hm. apply elem_of_running_targets in Ht
      as (e' & el' & He' & Hel' & _ & Htg).
    destruct (linked_record w e' Hl He') as (el2 & tg2 & ? & ? & _ & Hm').
    assert (e = e') as -> by congruence.
    rewrite Hm1, bool_decide_eq_true_2, Hel' by done. by eexists. }
  f_equal. rewrite <- (with_elements_id w) at 2. f_equal.
  apply map_eq. intros e. rewrite Hm2, Hm1.
  destruct (Targets.record_of_one w _ e) eqn:Hr.
  - apply record_of_one_true in Hr as (tg & Ht & Hm).
    apply elem_of_running_targets in Ht as (e' & el' & He' & Hel' & Hp' & Htg).
    destruct (linked_record w e' Hl He') as (el2 & tg2 & ? & ? & _ & Hm').
    assert (e = e') as -> by congruence.
    rewrite bool_decide_eq_true_2, Hel' by done. cbn. f_equal.
    destruct el'. cbn in *. by subst.
  - case_bool_decide as He; [|done].
    destruct (linked_record w e Hl He) as (el & tg & Hel & Htg & _ & Hm).
    rewrite Hel. cbn. f_equal. apply set_paused_same.
    destruct (ActionManager.paused el) eqn:Hp'; [done|].
    assert (Targets.record_of_one w
              (Targets.running_targets (ActionManager.elements w)
                 (ActionManager._elementsArr w)) e = true); [|congruence].
    apply record_of_one_true. exists tg. split; [|done].
    unfold Targets.running_targets. apply list_elem_of_join.
    exists [Some tg]. split; [set_solver|].
    apply list_elem_of_fmap. exists e. by rewrite Hel, Hp', Htg.
Qed.

Lemma tagged_spec (w : ActionManager.t A) tag tg : forall l i0,
  Forall (Records.bound M w tg) l ->
  (Targets.first_tagged M tag l w = Ok None
   /\ ActionManager.find_tagged M tag tg i0 l w = Ok None)
  \/ (exists k r,
        l !! k = Some r
        /\ Targets.first_tagged M tag l w = Ok (Some r)
        /\ ActionManager.find_tagged M tag tg i0 l w = Ok (Some (i0 + k)%nat)).
Proof.
  induction l as [|r l IH]; intros i0 Hb; [by left|].
  apply Forall_cons in Hb as [(a & Ha & Ho) Hb].
  cbn [Targets.first_tagged ActionManager.find_tagged].
  rewrite (get_object_ok w r a Ha). cbn [mbind result_bind].
  rewrite (bool_decide_eq_true_2 _ Ho), andb_true_r.
  destruct (ActionManager.act_tag M a =? tag).
  - right. exists 0%nat, r. by rewrite Nat.add_0_r.
  - destruct (IH (S i0) Hb) as [H|(k & r' & Hk & H1 & H2)]; [by left|].
    right. exists (S k), r'. split; [done|]. split; [done|].
    rewrite H2. do 2 f_equal. lia.
Qed.

(** X27.  [getActionByTag] and [removeActionByTag]: on a
    well-formed manager, [removeActionByTag(tag, target)] takes out of the
    record of the target the action that [getActionByTag(tag, target)]
    returns, and changes nothing if that returns [null]; if the action was
    the only one of the record, the record leaves [$elementsMap] and
    [$elementsArr]. *)
Theorem removeActionByTag_removes_what_getActionByTag_returns
    (w : ActionManager.t A) (e : ActionManager.ref)
    (el : ActionManager.HashElement) (tg : Node) (tag : Z) :
  Records.well_formed M w ->
  e ∈ ActionManager._elementsArr w ->
  ActionManager.elements w !! e = Some el ->
  ActionManager.target el = Some tg ->
  exists found,
    Targets.getActionByTag M tag tg w = Ok found
    /\ match found with
       | None => ActionManager.removeActionByTag M tag tg w = Ok w
       | Some r =>
           exists i w',
             ActionManager.actions el !! i = Some r
             /\ ActionManager.removeActionByTag M tag tg w = Ok w'
             /\ ActionManager.objects w' = ActionManager.objects w
             /\ if bool_decide (ActionManager.actions el = [r])
                then ActionManager._elementsMap w' !! tg = None
                     /\ e ∉ ActionManager._elementsArr w'
                else ActionManager._elementsMap w' = ActionManager._elementsMap w
                     /\ ActionManager._elementsArr w' = ActionManager._elementsArr w
                     /\ ActionManager.elements w' !! e
                        = Some (ActionManager.spliced i el)
       end.
Proof.
  intros (Hnd & Hall & _) Hin He Htg.
  rewrite Forall_forall in Hall.
  destruct (Hall e Hin) as (el0 & tg0 & He0 & Htg0 & Hlock & Hm & Hb).
  assert (el0 = el) as -> by congruence.
  assert (tg0 = tg) as -> by congruence.
  unfold Targets.getActionByTag, ActionManager.removeActionByTag.
  rewrite Hm, (get_element_ok w e el He). cbn [mbind result_bind].
  destruct (tagged_spec w tag tg (ActionManager.actions el) 0%nat Hb)
    as [[-> ->]|(i & r & Hi & -> & ->)].
  { by exists None. }
  exists (Some r). split; [done|]. exists i.
  cbn [mbind result_bind Nat.add].
  unfold ActionManager._removeActionAtIndex.
  rewrite (get_element_ok w e el He). cbn [mbind result_bind].
  set (w2 := ActionManager.set_element e (ActionManager.spliced i el) w).
  destruct (length (delete i (ActionManager.actions el)) =? 0)%nat eqn:Hlen.
  - apply Nat.eqb_eq in Hlen.
    assert (Hone : ActionManager.actions el = [r]).
    { destruct (ActionManager.actions el) as [|x [|y l]] eqn:Hact.
      - done.
      - destruct i; [|done]. cbn in Hi. congruence.
      - destruct i; cbn in Hlen; lia. }
    apply list_elem_of_lookup in Hin as [k Hk].
    destruct (deleteHashElement_spec w2 e (ActionManager.spliced i el) tg k)
      as (w3 & Hd & Harr3 & Hmap3 & _ & Hobj3 & _).
    { subst w2. cbn. by rewrite lookup_insert_eq. }
    { done. }
    { done. }
    { done. }
    { done. }
    { done. }
    rewrite Hd. cbn [mbind result_bind]. exists w3.
    split; [done|]. split; [done|]. split; [done|].
    rewrite (bool_decide_eq_true_2 _ Hone). split.
    + rewrite Hmap3. apply lookup_delete_eq.
    + rewrite Harr3. by apply not_elem_of_deleted.
  - apply Nat.eqb_neq in Hlen. exists w2. split; [done|]. split; [done|]. split; [done|].
    rewrite bool_decide_eq_false_2.
    + split; [done|]. split; [done|]. subst w2. cbn. by rewrite lookup_insert_eq.
    + intros Hone. rewrite Hone in Hlen, Hi. destruct i; [|done]. by cbn in Hlen.
Qed.

Lemma running_same (w w' : ActionManager.t A) tg :
  ActionManager._elementsMap w' !! tg = ActionManager._elementsMap w !! tg ->
  (forall e, ActionManager._elementsMap w !! tg = Some e ->
             ActionManager.elements w' !! e = ActionManager.elements w !! e) ->
  ActionManager.numberOfRunningActionsInTarget tg w'
  = ActionManager.numberOfRunningActionsInTarget tg w.
Proof.
  intros Hm He. unfold ActionManager.numberOfRunningActionsInTarget.
  rewrite Hm. destruct (ActionManager._elementsMap w !! tg) as [e|]; [|done].
  unfold ActionManager.get_element. by rewrite He.
Qed.

Lemma last_elem_of {X} (l : list X) x : last l = Some x -> x ∈ l.
Proof.
  intros H. apply last_Some in H as [l' ->]. apply elem_of_app. right.
  by apply elem_of_cons; left.
Qed.

(** X28.  [addAction]: with an action object and a target,
    on a manager whose map entries are records of their targets and whose
    pooled records are empty, [addAction] returns, the target has one
    running action more than before, the other targets have as many as
    before, and the action has been started with the target. *)
Theorem addAction_adds_one_running_action
    (w : ActionManager.t A) (r : ActionManager.ref) (a : A) (tg : Node)
    (p : bool) :
  Targets.stored w ->
  ActionManager.objects w !! r = Some a ->
  exists w' n,
    ActionManager.addAction M (Some r) (Some tg) p w = Ok w'
    /\ ActionManager.numberOfRunningActionsInTarget tg w = Ok n
    /\ ActionManager.numberOfRunningActionsInTarget tg w' = Ok (n + 1)
    /\ (forall tg', tg' <> tg ->
          ActionManager.numberOfRunningActionsInTarget tg' w'
          = ActionManager.numberOfRunningActionsInTarget tg' w)
    /\ ActionManager.objects w'
       = <[r := ActionManager.act_startWithTarget M tg a]> (ActionManager.objects w).
Proof.
  intros [Hmap Hpool] Ha.
  unfold ActionManager.addAction, ActionManager.numberOfRunningActionsInTarget.
  destruct (ActionManager._elementsMap w !! tg) as [e|] eqn:Hm.
  - destruct (Hmap tg e Hm) as (el & He & Htg).
    cbn [mbind result_bind]. rewrite (get_element_ok w e el He).
    cbn [mbind result_bind].
    unfold ActionManager.get_object. cbn. rewrite Ha. cbn.
    eexists _, _. split; [reflexivity|]. split; [reflexivity|].
    cbn. rewrite Hm. unfold ActionManager.get_element. cbn.
    rewrite lookup_insert_eq. cbn. split.
    { do 2 f_equal. rewrite length_app. cbn. lia. }
    split; [|done]. intros tg' Hne.
    destruct (ActionManager._elementsMap w !! tg') as [e'|] eqn:Hm'; [|done].
    rewrite lookup_insert_ne; [done|]. intros ->.
    destruct (Hmap tg' e' Hm') as (el' & He' & Htg'). congruence.
  - unfold ActionManager._getElement.
    destruct (last (ActionManager._pool w)) as [e|] eqn:Hlast.
    + destruct (Hpool e (last_elem_of _ _ Hlast)) as (el & He & Hact & Htg).
      rewrite (get_element_ok w e el He). cbn.
      unfold ActionManager.get_element. cbn. rewrite lookup_insert_eq. cbn.
      unfold ActionManager.get_object. cbn. rewrite Ha. cbn.
      eexists _, _. split; [reflexivity|]. split; [reflexivity|].
      unfold ActionManager.set_object, ActionManager.set_element. cbn.
      rewrite !lookup_insert_eq. cbn.
      split; [by rewrite Hact|]. split; [|done].
      intros tg' Hne. rewrite lookup_insert_ne by done.
      destruct (ActionManager._elementsMap w !! tg') as [e'|] eqn:Hm'; [|done].
      rewrite !lookup_insert_ne; [done|..]; intros ->;
        destruct (Hmap tg' e' Hm') as (el' & He' & Htg'); congruence.
    + cbn. unfold ActionManager.get_element. cbn. rewrite lookup_insert_eq. cbn.
      unfold ActionManager.get_object. cbn. rewrite Ha. cbn.
      eexists _, _. split; [reflexivity|]. split; [reflexivity|].
      unfold ActionManager.set_object, ActionManager.set_element. cbn.
      rewrite !lookup_insert_eq. cbn.
      split; [done|]. split; [|done].
      intros tg' Hne. rewrite lookup_insert_ne by done.
      destruct (ActionManager._elementsMap w !! tg') as [e'|] eqn:Hm'; [|done].
      destruct (Hmap tg' e' Hm') as (el' & He' & Htg').
      assert (e' <> ActionManager.fresh_element w).
      { intros ->. apply (is_fresh (dom (ActionManager.elements w))).
        apply elem_of_dom. by eexists. }
      by rewrite !lookup_insert_ne.
Qed.
End targets_props.

Lemma three_records_linked : Targets.linked Targets.three_records.
Proof.
  split; [by apply (bool_decide_unpack _)|].
  repeat constructor.
  - eexists _, 7. repeat split; reflexivity.
  - eexists _, 8. repeat split; reflexivity.
  - eexists _, 9. repeat split; reflexivity.
Defined.

Lemma three_records_well_formed :
  Records.well_formed Plain.methods Targets.three_records.
Proof.
  split; [|split].
  - by apply (bool_decide_unpack _).
  - repeat constructor.
    + eexists _, 7. split; [reflexivity|]. split; [reflexivity|].
      split; [reflexivity|]. split; [reflexivity|].
      repeat constructor; eexists; split; reflexivity.
    + eexists _, 8. split; [reflexivity|]. split; [reflexivity|].
      split; [reflexivity|]. split; [reflexivity|].
      repeat constructor; eexists; split; reflexivity.
    + eexists _, 9. split; [reflexivity|]. split; [reflexivity|].
      split; [reflexivity|]. split; [reflexivity|].
      repeat constructor; eexists; split; reflexivity.
  - by apply (bool_decide_unpack _).
Defined.

Lemma three_records_stored : Targets.stored Targets.three_records.
Proof.
  split.
  - intros tg e H. cbn in H.
    apply lookup_insert_Some in H as [[<- <-]|[_ H]];
      [eexists; split; reflexivity|].
    apply lookup_insert_Some in H as [[<- <-]|[_ H]];
      [eexists; split; reflexivity|].
    apply lookup_singleton_Some in H as [<- <-].
    eexists; split; reflexivity.
  - intros e He. cbn in He. by apply elem_of_nil in He.
Defined.

Lemma removeAllActions_leaves_every_second_record_witness :
  exists w',
    Targets.removeAllActions Targets.three_records = Ok w'
    /\ ActionManager._elementsArr w'
       = Targets.odds (ActionManager._elementsArr Targets.three_records)
    /\ Targets.linked w'
    /\ ActionManager.objects w' = ActionManager.objects Targets.three_records
    /\ (forall e,
          e ∈ Targets.odds (ActionManager._elementsArr Targets.three_records) ->
          ActionManager.elements w' !! e
          = ActionManager.elements Targets.three_records !! e).
Proof.
  apply (removeAllActions_leaves_every_second_record Targets.three_records).
  exact three_records_linked.
Defined.

Lemma resumeTargets_undoes_pauseAllRunningActions_witness :
  exists w1 ids,
    Targets.pauseAllRunningActions Targets.three_records = Ok (w1, ids)
    /\ (forall e, e ∈ ActionManager._elementsArr Targets.three_records ->
          exists el, ActionManager.elements w1 !! e = Some el
                     /\ ActionManager.paused el = true)
    /\ Targets.resumeTargets (Some ids) w1 = Ok Targets.three_records.
Proof.
  apply (resumeTargets_undoes_pauseAllRunningActions Targets.three_records).
  exact three_records_linked.
Defined.

Lemma removeActionByTag_removes_what_getActionByTag_returns_witness :
  exists found,
    Targets.getActionByTag Plain.methods 5 9 Targets.three_records = Ok found
    /\ match found with
       | None =>
           ActionManager.removeActionByTag Plain.methods 5 9 Targets.three_records
           = Ok Targets.three_records
       | Some r =>
           exists i w',
             [2%nat; 3%nat] !! i = Some r
             /\ ActionManager.removeActionByTag Plain.methods 5 9
                  Targets.three_records = Ok w'
             /\ ActionManager.objects w'
                = ActionManager.objects Targets.three_records
             /\ if bool_decide ([2%nat; 3%nat] = [r])
                then ActionManager._elementsMap w' !! 9 = None
                     /\ 2%nat ∉ ActionManager._elementsArr w'
                else ActionManager._elementsMap w'
                     = ActionManager._elementsMap Targets.three_records
                     /\ ActionManager._elementsArr w'
                        = ActionManager._elementsArr Targets.three_records
                     /\ ActionManager.elements w' !! 2%nat
                        = Some (ActionManager.spliced i
                                  (ActionManager.mkHashElement [2%nat; 3%nat]
                                     (Some 9) 0 None false false))
       end.
Proof.
  apply (removeActionByTag_removes_what_getActionByTag_returns Plain.methods
           Targets.three_records 2%nat
           (ActionManager.mkHashElement [2%nat; 3%nat] (Some 9) 0 None false false)
           9 5).
  - exact three_records_well_formed.
  - by apply (bool_decide_unpack _).
  - reflexivity.
  - reflexivity.
Defined.

Lemma addAction_adds_one_running_action_witness :
  exists w' n,
    ActionManager.addAction Plain.methods (Some 4%nat) (Some 7) false
      Targets.three_records = Ok w'
    /\ ActionManager.numberOfRunningActionsInTarget 7 Targets.three_records = Ok n
    /\ ActionManager.numberOfRunningActionsInTarget 7 w' = Ok (n + 1)
    /\ (forall tg', tg' <> 7 ->
          ActionManager.numberOfRunningActionsInTarget tg' w'
          = ActionManager.numberOfRunningActionsInTarget tg' Targets.three_records)
    /\ ActionManager.objects w'
       = <[4%nat := Plain.startWithTarget 7 (Plain.new 2 false)]>
           (ActionManager.objects Targets.three_records).
Proof.
  apply (addAction_adds_one_running_action Plain.methods Targets.three_records
           4%nat (Plain.new 2 false) 7 false).
  - exact three_records_stored.
  - reflexivity.
Defined.

